(** * VaultStack: the encrypted synchronisation engine

  A shallow embedding of the client-side crypto helper ([VaultCrypto],
  lib/crypto.ts), the client-side store ([vaultDB], lib/database.ts), the
  master password and session service ([AuthService], lib/auth.ts) and the
  file server's handlers (file-server/server.js), together with the
  properties the design document states about them and further properties
  read off the code.

  The third-party library crypto-js is not part of the repository: its
  primitives are taken as an interface ([CryptoJS]) and every fact used
  about them is a named law, assumed where it is needed; a small reference
  implementation of the interface shows that the laws can be met together
  and lets the embedded functions run on concrete inputs. The same holds
  for what the server uses of Node and of Express ([NodeJS], [Express]);
  the paths of the stored files are joined and normalised as Node's [path]
  does on POSIX, under the directory of server.js ([Deployment]). *)

From stdpp Require Import gmap strings list fin_maps sorting pretty.
From Stdlib Require Import ZArith Lia Ascii.

Local Open Scope Z_scope.

Set Warnings "-register-all".

(** ** JavaScript strings *)

Module JS.

(** [s.includes(':')] *)
Fixpoint includes (c : ascii) (s : string) : bool :=
  match s with
  | EmptyString => false
  | String a s' => if Ascii.eqb a c then true else includes c s'
  end.

(** [s.split(':')]: the pieces between the separators, in order; a string
    without separator is returned whole, the empty string gives [[""]]. *)
Fixpoint split (c : ascii) (s : string) : list string :=
  match s with
  | EmptyString => [EmptyString]
  | String a s' =>
      if Ascii.eqb a c then EmptyString :: split c s'
      else match split c s' with
           | [] => [String a EmptyString]
           | p :: ps => String a p :: ps
           end
  end.

(** Truthiness of a string value: only the empty string is falsy. *)
Definition truthy (s : string) : bool :=
  match s with EmptyString => false | _ => true end.

(** [String(n)] for an integral number. *)
Definition String_of_Z (n : Z) : string := pretty n.

(** A thrown [Error], carrying its message. *)
Inductive result (A : Type) : Type :=
| Ok (a : A)
| Throw (message : string).
Arguments Ok {A} a.
Arguments Throw {A} message.

Global Instance result_ret : MRet result := λ A a, Ok a.
Global Instance result_bind : MBind result := λ A B k r,
  match r with Ok a => k a | Throw m => Throw m end.
Global Instance result_fmap : FMap result := λ A B f r,
  match r with Ok a => Ok (f a) | Throw m => Throw m end.

(** [try { body } catch (error) { handler(error) }] *)
Definition try_catch {A} (body : result A) (handler : string → result A)
  : result A :=
  match body with Ok a => Ok a | Throw m => handler m end.

Definition is_Ok {A} (r : result A) : bool :=
  match r with Ok _ => true | Throw _ => false end.

End JS.

Import JS.

Abbreviation colon := (":"%char).

(** ** The crypto-js interface *)

(** A [WordArray] is a sequence of bytes. *)
Abbreviation WordArray := (list ascii).

Class CryptoJS := {
  (** the state of the random source behind [WordArray.random] *)
  Entropy : Type;
  (** [CryptoJS.lib.WordArray.random(n)] *)
  WordArray_random : nat → Entropy → WordArray * Entropy;
  (** [wordArray.toString()], the hexadecimal text of a word array *)
  Hex_stringify : WordArray → string;
  (** [CryptoJS.enc.Hex.parse(s)] *)
  Hex_parse : string → WordArray;
  (** [wordArray.toString(CryptoJS.enc.Utf8)]; [None] is the library's
      exception "Malformed UTF-8 data" *)
  Utf8_stringify : WordArray → option string;
  (** [CryptoJS.SHA256(s).toString()] *)
  SHA256 : string → string;
  (** [CryptoJS.PBKDF2(password, salt, {keySize: 8, iterations: 10000})]
      with a textual salt, and with a word-array salt *)
  PBKDF2 : string → string → WordArray;
  PBKDF2_words : string → WordArray → WordArray;
  (** [CryptoJS.AES.encrypt(data, key, {iv, mode: CBC, padding: Pkcs7})
      .toString()] where [key] is a string: the library treats it as a
      passphrase and draws a salt of its own from the random source *)
  AES_encrypt_passphrase :
    string → string → WordArray → Entropy → string * Entropy;
  (** [CryptoJS.AES.decrypt(text, key, {iv, mode: CBC, padding: Pkcs7})]
      where [key] is a string *)
  AES_decrypt_passphrase : string → string → WordArray → WordArray;
  (** the same two calls where [key] is a word array *)
  AES_encrypt_key : string → WordArray → WordArray → string;
  AES_decrypt_key : string → WordArray → WordArray → WordArray;
}.

(** The laws of the interface. Each is a fact about crypto-js that the
  repository's code relies on; theorems assume exactly the ones they use. *)
Section Laws.
Context {crypto_js : CryptoJS}.

(** hexadecimal text uses the digits [0-9a-f] only *)
Definition hex_has_no_colon : Prop :=
  ∀ w, includes colon (Hex_stringify w) = false.

(** parsing the hexadecimal text of a word array gives it back *)
Definition hex_parse_stringify : Prop :=
  ∀ w, Hex_parse (Hex_stringify w) = w.

(** the text of a cipher result is Base64 *)
Definition ciphertext_has_no_colon : Prop :=
  ∀ data key iv e,
    includes colon (AES_encrypt_passphrase data key iv e).1 = false.

(** decrypting with the passphrase and IV used to encrypt gives back the
    text *)
Definition passphrase_round_trip : Prop :=
  ∀ data key iv e,
    Utf8_stringify
      (AES_decrypt_passphrase (AES_encrypt_passphrase data key iv e).1 key iv)
    = Some data.

Definition key_round_trip : Prop :=
  ∀ data key iv,
    Utf8_stringify (AES_decrypt_key (AES_encrypt_key data key iv) key iv)
    = Some data.

(** a SHA-256 digest in hexadecimal is never the empty string *)
Definition digest_nonempty : Prop :=
  ∀ s, truthy (SHA256 s) = true.
End Laws.

(** ** The vault item of lib/database.ts *)

Inductive Category := Passwords | Notes | Links | Files.

Inductive StorageType := LocalStorage | ServerStorage | HybridStorage.

Inductive SyncStatus := Synced | Pending | SyncError | LocalOnly.

Record FileData := {
  file_name : string;
  file_type : string;
  file_size : Z;
  file_data : list ascii;
  serverId : option string;
  storageType : option StorageType;
  serverUrl : option string;
  lastSynced : option Z;
}.

(** A [Date] is its time value in milliseconds; an optional field is an
    [option]. The declared type of every sensitive field is [string]. *)
Record VaultItem := {
  id : option Z;
  name : string;
  category : Category;
  description : option string;
  filepath : option string;
  fileData : option (list FileData);
  platform : option string;
  username : option string;
  password : option string;
  url : option string;
  linkUrl : option string;
  links : option string;
  createdAt : Z;
  updatedAt : Z;
  isFavorite : option bool;
  orderIndex : option Z;
  useServerStorage : option bool;
  serverFileIds : option (list string);
  syncStatus : option SyncStatus;
}.

(** The names listed in [sensitiveFields]. *)
Inductive Field := f_password | f_username | f_description | f_url | f_linkUrl.

Global Instance Field_eq_dec : EqDecision Field.
Proof. solve_decision. Defined.

(** [item[field]] *)
Definition get_field (f : Field) (i : VaultItem) : option string :=
  match f with
  | f_password => password i
  | f_username => username i
  | f_description => description i
  | f_url => url i
  | f_linkUrl => linkUrl i
  end.

Definition set_id (v : option Z) (i : VaultItem) : VaultItem :=
  {| id := v; name := name i; category := category i;
     description := description i; filepath := filepath i;
     fileData := fileData i; platform := platform i; username := username i;
     password := password i; url := url i; linkUrl := linkUrl i;
     links := links i; createdAt := createdAt i; updatedAt := updatedAt i;
     isFavorite := isFavorite i; orderIndex := orderIndex i;
     useServerStorage := useServerStorage i; serverFileIds := serverFileIds i;
     syncStatus := syncStatus i |}.

Definition set_description (v : option string) (i : VaultItem) : VaultItem :=
  {| id := id i; name := name i; category := category i;
     description := v; filepath := filepath i;
     fileData := fileData i; platform := platform i; username := username i;
     password := password i; url := url i; linkUrl := linkUrl i;
     links := links i; createdAt := createdAt i; updatedAt := updatedAt i;
     isFavorite := isFavorite i; orderIndex := orderIndex i;
     useServerStorage := useServerStorage i; serverFileIds := serverFileIds i;
     syncStatus := syncStatus i |}.

Definition set_username (v : option string) (i : VaultItem) : VaultItem :=
  {| id := id i; name := name i; category := category i;
     description := description i; filepath := filepath i;
     fileData := fileData i; platform := platform i; username := v;
     password := password i; url := url i; linkUrl := linkUrl i;
     links := links i; createdAt := createdAt i; updatedAt := updatedAt i;
     isFavorite := isFavorite i; orderIndex := orderIndex i;
     useServerStorage := useServerStorage i; serverFileIds := serverFileIds i;
     syncStatus := syncStatus i |}.

Definition set_password (v : option string) (i : VaultItem) : VaultItem :=
  {| id := id i; name := name i; category := category i;
     description := description i; filepath := filepath i;
     fileData := fileData i; platform := platform i; username := username i;
     password := v; url := url i; linkUrl := linkUrl i;
     links := links i; createdAt := createdAt i; updatedAt := updatedAt i;
     isFavorite := isFavorite i; orderIndex := orderIndex i;
     useServerStorage := useServerStorage i; serverFileIds := serverFileIds i;
     syncStatus := syncStatus i |}.

Definition set_url (v : option string) (i : VaultItem) : VaultItem :=
  {| id := id i; name := name i; category := category i;
     description := description i; filepath := filepath i;
     fileData := fileData i; platform := platform i; username := username i;
     password := password i; url := v; linkUrl := linkUrl i;
     links := links i; createdAt := createdAt i; updatedAt := updatedAt i;
     isFavorite := isFavorite i; orderIndex := orderIndex i;
     useServerStorage := useServerStorage i; serverFileIds := serverFileIds i;
     syncStatus := syncStatus i |}.

Definition set_linkUrl (v : option string) (i : VaultItem) : VaultItem :=
  {| id := id i; name := name i; category := category i;
     description := description i; filepath := filepath i;
     fileData := fileData i; platform := platform i; username := username i;
     password := password i; url := url i; linkUrl := v;
     links := links i; createdAt := createdAt i; updatedAt := updatedAt i;
     isFavorite := isFavorite i; orderIndex := orderIndex i;
     useServerStorage := useServerStorage i; serverFileIds := serverFileIds i;
     syncStatus := syncStatus i |}.

Definition set_dates (created updated : Z) (i : VaultItem) : VaultItem :=
  {| id := id i; name := name i; category := category i;
     description := description i; filepath := filepath i;
     fileData := fileData i; platform := platform i; username := username i;
     password := password i; url := url i; linkUrl := linkUrl i;
     links := links i; createdAt := created; updatedAt := updated;
     isFavorite := isFavorite i; orderIndex := orderIndex i;
     useServerStorage := useServerStorage i; serverFileIds := serverFileIds i;
     syncStatus := syncStatus i |}.

(** [item[field] = value] *)
Definition set_field (f : Field) (v : string) (i : VaultItem) : VaultItem :=
  match f with
  | f_password => set_password (Some v) i
  | f_username => set_username (Some v) i
  | f_description => set_description (Some v) i
  | f_url => set_url (Some v) i
  | f_linkUrl => set_linkUrl (Some v) i
  end.

(** The fields that are not in [sensitiveFields], together. *)
Definition clear_part (i : VaultItem) :=
  (id i, name i, category i, filepath i, fileData i, platform i, links i,
   createdAt i, updatedAt i, isFavorite i, orderIndex i, useServerStorage i,
   serverFileIds i, syncStatus i).

(** Truthiness of an optional string property: [undefined] and the empty
    string are falsy. *)
Definition present (v : option string) : bool :=
  match v with Some s => truthy s | None => false end.

(** ** lib/crypto.ts: [VaultCrypto] *)

Module VaultCrypto.
Section VaultCrypto.
Context {crypto_js : CryptoJS}.

Definition SALT_LENGTH : nat := 32.
Definition IV_LENGTH : nat := 16.

Definition hashMasterPassword (password : string) : string :=
  SHA256 password.

Definition deriveKey (password salt : string) : string :=
  Hex_stringify (PBKDF2 password salt).

Definition generateSalt (e : Entropy) : string * Entropy :=
  let '(w, e') := WordArray_random SALT_LENGTH e in (Hex_stringify w, e').

Definition generateIV (e : Entropy) : string * Entropy :=
  let '(w, e') := WordArray_random IV_LENGTH e in (Hex_stringify w, e').

(** [encrypt(data, masterPassword)]. The random source is threaded through;
    the library calls of the body raise nothing on a string, so the [catch]
    block of the source is not entered. *)
Definition encrypt (data masterPassword : string) (e : Entropy)
  : string * Entropy :=
  let '(salt, e1) := generateSalt e in
  let '(iv, e2) := generateIV e1 in
  let key := deriveKey masterPassword salt in
  let '(encrypted, e3) :=
    AES_encrypt_passphrase data key (Hex_parse iv) e2 in
  (salt +:+ ":" +:+ iv +:+ ":" +:+ encrypted, e3).

Definition format_error : string := "Ongeldig encrypted data formaat".
Definition empty_error : string :=
  "Decryptie mislukt - mogelijk verkeerd wachtwoord".
Definition utf8_error : string := "Malformed UTF-8 data".
Definition decrypt_error : string :=
  "Kon gegevens niet ontsleutelen - controleer je master wachtwoord".

(** The body of the [try] block of [decrypt]. *)
Definition decrypt_body (encryptedData masterPassword : string)
  : result string :=
  let parts := split colon encryptedData in
  if negb (length parts =? 3)%nat then Throw format_error
  else
    match parts with
    | [salt; iv; encrypted] =>
        let key := deriveKey masterPassword salt in
        let decrypted :=
          AES_decrypt_passphrase encrypted key (Hex_parse iv) in
        match Utf8_stringify decrypted with
        | None => Throw utf8_error
        | Some decryptedString =>
            if negb (truthy decryptedString) then Throw empty_error
            else Ok decryptedString
        end
    | _ => Throw format_error
    end.

(** [decrypt(encryptedData, masterPassword)]: whatever the body throws is
    caught, logged and replaced by one error. *)
Definition decrypt (encryptedData masterPassword : string) : result string :=
  try_catch (decrypt_body encryptedData masterPassword)
            (fun _ => Throw decrypt_error).



Definition sensitiveFields : list Field :=
  [f_password; f_username; f_description; f_url; f_linkUrl].

(** One turn of the [forEach] of [encryptVaultItem]. *)
Definition encrypt_field (masterPassword : string)
    (st : VaultItem * Entropy) (field : Field) : VaultItem * Entropy :=
  let '(encryptedItem, e) := st in
  match get_field field encryptedItem with
  | Some v =>
      if truthy v then
        let '(c, e') := encrypt v masterPassword e in
        (set_field field c encryptedItem, e')
      else (encryptedItem, e)
  | None => (encryptedItem, e)
  end.

Definition encryptVaultItem (item : VaultItem) (masterPassword : string)
    (e : Entropy) : VaultItem * Entropy :=
  fold_left (encrypt_field masterPassword) sensitiveFields (item, e).

(** One turn of the [forEach] of [decryptVaultItem]; the [catch] keeps the
    stored value. *)
Definition decrypt_field (masterPassword : string)
    (decryptedItem : VaultItem) (field : Field) : VaultItem :=
  match get_field field decryptedItem with
  | Some v =>
      if truthy v && includes colon v then
        match decrypt v masterPassword with
        | Ok p => set_field field p decryptedItem
        | Throw _ => decryptedItem
        end
      else decryptedItem
  | None => decryptedItem
  end.

Definition decryptVaultItem (encryptedItem : VaultItem)
    (masterPassword : string) : VaultItem :=
  fold_left (decrypt_field masterPassword) sensitiveFields encryptedItem.

(** What [decryptVaultItem] leaves in a sensitive field that held [v]:
    decryption is tried on a non-empty value that contains the delimiter,
    and a failure keeps the stored value. *)
Definition decrypt_or_keep (masterPassword : string) (v : option string)
  : option string :=
  match v with
  | Some s =>
      if truthy s && includes colon s then
        match decrypt s masterPassword with
        | Ok p => Some p
        | Throw _ => Some s
        end
      else Some s
  | None => None
  end.

(** [validateMasterPassword(password, testData?)] *)
Definition validateMasterPassword (password : string)
    (testData : option string) (e : Entropy) : bool :=
  if present testData then
    match testData with
    | Some t => is_Ok (decrypt t password)
    | None => false
    end
  else
    let testString := "test_validation_string" in
    let '(encrypted, _) := encrypt testString password e in
    match decrypt encrypted password with
    | Ok decrypted => bool_decide (decrypted = testString)
    | Throw _ => false
    end.

(** What the library recovers from the three parts of an envelope under
    the key derived from the password and the envelope's salt: the decoded
    text, or [None] when the bytes are no UTF-8. *)
Definition recovered (salt iv text masterPassword : string) : option string :=
  Utf8_stringify
    (AES_decrypt_passphrase text (deriveKey masterPassword salt)
                            (Hex_parse iv)).

(** The three parts [encrypt] joins, and the random source afterwards. *)
Definition envelope_parts (data masterPassword : string) (e : Entropy)
  : string * string * string :=
  let salt := (generateSalt e).1 in
  let iv := (generateIV (generateSalt e).2).1 in
  (salt, iv,
   (AES_encrypt_passphrase data (deriveKey masterPassword salt)
                           (Hex_parse iv) (generateIV (generateSalt e).2).2).1).

End VaultCrypto.
End VaultCrypto.

(** ** lib/database.ts: the table [db.vaultItems] *)

(** The Dexie table declared by ['++id, name, category, createdAt, ...']:
    its rows in the order of the primary key, and the key generator, which
    only grows. *)
Record Table := {
  rows : list VaultItem;
  keygen : Z;
}.

(** [table.toArray()] *)
Definition toArray (t : Table) : list VaultItem := rows t.

(** [table.count()] *)
Definition count (t : Table) : nat := length (rows t).

(** [table.clear()]: the rows go, the key generator stays. *)
Definition clear (t : Table) : Table := {| rows := []; keygen := keygen t |}.

(** [table.add(item)] for an item without [id], as every caller passes it:
    the generator's key becomes its [id]. *)
Definition add (item : VaultItem) (t : Table) : Z * Table :=
  (keygen t,
   {| rows := rows t ++ [set_id (Some (keygen t)) item];
      keygen := keygen t + 1 |}).

(** [table.bulkDelete(keys)] *)
Definition bulkDelete (keys : list (option Z)) (t : Table) : Table :=
  {| rows := filter (λ r, id r ∉ keys) (rows t); keygen := keygen t |}.

(** The order of the index [createdAt]: by time, then by primary key. *)
Definition index_le (a b : VaultItem) : Prop :=
  createdAt a < createdAt b
  ∨ (createdAt a = createdAt b ∧ default 0 (id a) ≤ default 0 (id b)).

Global Instance index_le_dec : RelDecision index_le.
Proof. intros a b. unfold index_le. apply _. Defined.

(** [table.orderBy('createdAt').reverse().toArray()] *)
Definition orderBy_createdAt_reverse (t : Table) : list VaultItem :=
  reverse (merge_sort index_le (rows t)).

(** A table as Dexie keeps it: every row has a key, the keys are pairwise
    distinct and below the generator. *)
Definition well_formed (t : Table) : Prop :=
  NoDup (id <$> rows t) ∧ Forall (λ r, ∃ k, id r = Some k ∧ k < keygen t) (rows t).

Module Dexie.

(** [table.get(key)] *)
Definition get (key : Z) (t : Table) : option VaultItem :=
  head (filter (λ r, id r = Some key) (rows t)).

(** [table.delete(key)] *)
Definition delete (key : Z) (t : Table) : Table :=
  {| rows := filter (λ r, id r ≠ Some key) (rows t); keygen := keygen t |}.

End Dexie.

Global Instance Category_eq_dec : EqDecision Category.
Proof. solve_decision. Defined.

Definition set_isFavorite (v : option bool) (i : VaultItem) : VaultItem :=
  {| id := id i; name := name i; category := category i;
     description := description i; filepath := filepath i;
     fileData := fileData i; platform := platform i; username := username i;
     password := password i; url := url i; linkUrl := linkUrl i;
     links := links i; createdAt := createdAt i; updatedAt := updatedAt i;
     isFavorite := v; orderIndex := orderIndex i;
     useServerStorage := useServerStorage i; serverFileIds := serverFileIds i;
     syncStatus := syncStatus i |}.

(** ** lib/database.ts: the remote side as the client sees it *)

(** An item as the server sends and receives it: the vault item's fields
    with a textual [id]. *)
Record WireItem := {
  wire_id : string;
  wire_fields : VaultItem;
}.

(** The file server behind [getFileServerAPI]: the outcomes of the
    availability probes to come, the answer of [getVaultItems], the outcome
    of [saveVaultItems], and the arrays saved so far. *)
Record Remote := {
  probes : list bool;
  getVaultItems : result (list WireItem);
  saveVaultItems : list WireItem → result unit;
  pushed : list (list WireItem);
}.

(** [fileServerAPI.isAvailable()]: a failed or timed-out probe is [false]. *)
Definition isAvailable (r : Remote) : bool * Remote :=
  match probes r with
  | [] => (false, r)
  | b :: bs =>
      (b, {| probes := bs; getVaultItems := getVaultItems r;
             saveVaultItems := saveVaultItems r; pushed := pushed r |})
  end.

Definition record_push (items : list WireItem) (r : Remote) : Remote :=
  {| probes := probes r; getVaultItems := getVaultItems r;
     saveVaultItems := saveVaultItems r; pushed := pushed r ++ [items] |}.

(** [String(item.id)] *)
Definition String_of_id (k : option Z) : string :=
  match k with Some n => String_of_Z n | None => "undefined" end.

Definition category_text (c : Category) : string :=
  match c with
  | Passwords => "passwords"
  | Notes => "notes"
  | Links => "links"
  | Files => "files"
  end.

(** ** lib/database.ts: [vaultDB] *)

Inductive Action := loaded | synced | none.

Record CleanupResult := { removed : nat; remaining : nat }.

Record LoadResult := {
  load_success : bool;
  load_items : option (list WireItem);
  load_error : option string;
}.

Record SyncResult := {
  sync_success : bool;
  sync_synced : nat;
  sync_error : option string;
}.

Record AutoSyncResult := {
  success : bool;
  action : Action;
  count_synced : option nat;
  error : option string;
}.

Record PushResult := {
  push_success : bool;
  push_error : option string;
}.

(** The state of the [vaultDB] object and of the database it uses. *)
Record Client := {
  db : Table;
  _masterPassword : string;
}.

Module vaultDB.
Section vaultDB.
Context {crypto_js : CryptoJS}.

Definition with_db (t : Table) (c : Client) : Client :=
  {| db := t; _masterPassword := _masterPassword c |}.

Definition setMasterPassword (password : string) (c : Client) : Client :=
  {| db := db c; _masterPassword := password |}.

Definition clearMasterPassword (c : Client) : Client :=
  {| db := db c; _masterPassword := "" |}.

(** The key of [removeDuplicateItems]:
    [`${item.name}-${item.category}-${item.createdAt?.getTime()}`] *)
Definition duplicate_key (item : VaultItem) : string :=
  name item +:+ "-" +:+ category_text (category item) +:+ "-"
  +:+ String_of_Z (createdAt item).

(** One turn of the loop over [allItems]: the set [seen] and the array
    [duplicates]. *)
Definition scan (st : gset string * list (option Z)) (item : VaultItem)
  : gset string * list (option Z) :=
  let '(seen, duplicates) := st in
  let key := duplicate_key item in
  if decide (key ∈ seen) then (seen, duplicates ++ [id item])
  else ({[key]} ∪ seen, duplicates).

Definition removeDuplicateItems (t : Table) : Table * CleanupResult :=
  let allItems := toArray t in
  let '(_, duplicates) := fold_left scan allItems (∅, []) in
  let t' := if (0 <? length duplicates)%nat then bulkDelete duplicates t
            else t in
  (t', {| removed := length duplicates; remaining := count t' |}).

(** The collection without duplicates, in the words of the design: of the
    items that share a key, the first is kept and the others are removed. *)
Fixpoint keep_first (items : list VaultItem) : list VaultItem :=
  match items with
  | [] => []
  | item :: rest =>
      item :: filter (λ other, duplicate_key other ≠ duplicate_key item)
                     (keep_first rest)
  end.

(** The loop of [removeDuplicateItems] seen from its two outcomes: the
    items that are not reported, and the keys pushed on [duplicates]. *)
Fixpoint unreported (seen : gset string) (items : list VaultItem)
  : list VaultItem :=
  match items with
  | [] => []
  | item :: rest =>
      if decide (duplicate_key item ∈ seen) then unreported seen rest
      else item :: unreported ({[duplicate_key item]} ∪ seen) rest
  end.

Fixpoint reported (seen : gset string) (items : list VaultItem)
  : list (option Z) :=
  match items with
  | [] => []
  | item :: rest =>
      if decide (duplicate_key item ∈ seen) then id item :: reported seen rest
      else reported ({[duplicate_key item]} ∪ seen) rest
  end.

(** The rows that successive [add]s append, starting at key [k]. *)
Fixpoint keyed (k : Z) (items : list VaultItem) : list VaultItem :=
  match items with
  | [] => []
  | item :: rest => set_id (Some k) item :: keyed (k + 1) rest
  end.

(** [getAllItems()]; [decryptVaultItem] raises nothing, so the [catch] of
    the [map] is not entered. *)
Definition getAllItems (c : Client) : Client * list VaultItem :=
  let '(t, _) := removeDuplicateItems (db c) in
  let items := orderBy_createdAt_reverse t in
  (with_db t c,
   if negb (truthy (_masterPassword c)) then items
   else (λ item, VaultCrypto.decryptVaultItem item (_masterPassword c))
          <$> items).

Definition to_wire (item : VaultItem) : WireItem :=
  {| wire_id := String_of_id (id item); wire_fields := item |}.

Definition syncVaultItemsToServer (c : Client) (r : Remote)
  : Client * Remote * PushResult :=
  if negb (truthy (_masterPassword c)) then
    (c, r, {| push_success := false;
              push_error := Some "Master password required" |})
  else
    let '(available, r1) := isAvailable r in
    if negb available then
      (c, r1, {| push_success := false;
                 push_error := Some "Server not available" |})
    else
      let '(c1, items) := getAllItems c in
      let itemsForServer := to_wire <$> items in
      match saveVaultItems r1 itemsForServer with
      | Ok _ =>
          (c1, record_push itemsForServer r1,
           {| push_success := true; push_error := None |})
      | Throw m =>
          (c1, r1, {| push_success := false; push_error := Some m |})
      end.

Definition loadVaultItemsFromServer (c : Client) (r : Remote)
  : Remote * LoadResult :=
  if negb (truthy (_masterPassword c)) then
    (r, {| load_success := false; load_items := None;
           load_error := Some "Master password required" |})
  else
    let '(available, r1) := isAvailable r in
    if negb available then
      (r1, {| load_success := false; load_items := None;
              load_error := Some "Server not available" |})
    else
      match getVaultItems r1 with
      | Ok items =>
          (r1, {| load_success := true; load_items := Some items;
                  load_error := None |})
      | Throw m =>
          (r1, {| load_success := false; load_items := None;
                  load_error := Some m |})
      end.

(** The record added for one server item:
    [{...itemWithoutId, createdAt: new Date(item.createdAt), ...}] *)
Definition imported (item : WireItem) : VaultItem :=
  set_dates (createdAt (wire_fields item)) (updatedAt (wire_fields item))
    (set_id None (wire_fields item)).

(** The composite key a server item gets once imported. *)
Definition imported_key (item : WireItem) : string :=
  duplicate_key (imported item).

Definition syncVaultItemsFromServer (c : Client) (r : Remote)
  : Client * Remote * SyncResult :=
  let '(r1, loadResult) := loadVaultItemsFromServer c r in
  match load_items loadResult with
  | Some items =>
      if negb (load_success loadResult) then
        (c, r1, {| sync_success := false; sync_synced := 0;
                   sync_error := load_error loadResult |})
      else
        let t1 := clear (db c) in
        let '(t2, n) :=
          fold_left (λ '(t, n) item, ((add (imported item) t).2, S n))
                    items (t1, 0%nat) in
        let '(t3, _) := removeDuplicateItems t2 in
        (with_db t3 c, r1,
         {| sync_success := true; sync_synced := n; sync_error := None |})
  | None =>
      (c, r1, {| sync_success := false; sync_synced := 0;
                 sync_error := load_error loadResult |})
  end.

Definition autoSyncVaultItems (c : Client) (r : Remote)
  : Client * Remote * AutoSyncResult :=
  if negb (truthy (_masterPassword c)) then
    (c, r, {| success := false; action := none; count_synced := None;
              error := Some "Master password required" |})
  else
    let '(available, r1) := isAvailable r in
    if negb available then
      (c, r1, {| success := true; action := none; count_synced := None;
                 error := Some "Server not available, using local data" |})
    else
      let '(c2, r2, syncResult) := syncVaultItemsFromServer c r1 in
      (c2, r2, {| success := sync_success syncResult; action := loaded;
                  count_synced := Some (sync_synced syncResult);
                  error := sync_error syncResult |}).

(** [typeof isFavorite === 'string' ? isFavorite === 'true' : !!isFavorite]
    for an [isFavorite] that is absent, a boolean or a string. *)
Definition isFavoriteBoolean (isFavorite : option (bool + string)) : bool :=
  match isFavorite with
  | Some (inr text) => bool_decide (text = "true")
  | Some (inl b) => b
  | None => false
  end.

(** [addItem(item)] up to the key it returns. [item] carries the fields of
    a vault item other than [id], [createdAt], [updatedAt] and [isFavorite],
    which the record added sets; the push to the server that [addItem]
    starts is not awaited: it is [syncVaultItemsToServer], run on the state
    returned here. *)
Definition addItem (c : Client) (item : VaultItem)
    (isFavorite : option (bool + string)) (now : Z) (e : Entropy)
  : Client * Entropy * Z :=
  let '(itemToStore, e') :=
    if truthy (_masterPassword c)
    then VaultCrypto.encryptVaultItem item (_masterPassword c) e
    else (item, e) in
  let '(itemId, t) :=
    add (set_dates now now
           (set_isFavorite (Some (isFavoriteBoolean isFavorite)) itemToStore))
        (db c) in
  (with_db t c, e', itemId).

(** [getItemById(id)]; [decryptVaultItem] raises nothing. *)
Definition getItemById (c : Client) (key : Z) : option VaultItem :=
  match Dexie.get key (db c) with
  | Some item =>
      if negb (truthy (_masterPassword c)) then Some item
      else Some (VaultCrypto.decryptVaultItem item (_masterPassword c))
  | None => None
  end.


End vaultDB.
End vaultDB.

(** What a read of [vaultDB] returns for the rows it found, the last lines
    of [getAllItems] and of [getItemsByCategory]: the rows themselves while
    no master password is set, and each row decrypted otherwise. *)
Definition as_read {crypto_js : CryptoJS} (W : string) (l : list VaultItem)
  : list VaultItem :=
  if negb (truthy W) then l
  else (λ item, VaultCrypto.decryptVaultItem item W) <$> l.

(** ** JSON values, as the server's handlers see them *)

(** A number is an integer here; an object is the list of its properties in
    insertion order. *)
Inductive json :=
| JNull
| JBool (b : bool)
| JNum (n : Z)
| JStr (s : string)
| JArr (xs : list json)
| JObj (props : list (string * json)).

Module Json.

Fixpoint lookup_prop (k : string) (props : list (string * json))
  : option json :=
  match props with
  | [] => None
  | (k', v) :: ps => if decide (k' = k) then Some v else lookup_prop k ps
  end.

(** [obj[k] = v]: an existing property keeps its place. *)
Fixpoint set_prop (k : string) (v : json) (props : list (string * json))
  : list (string * json) :=
  match props with
  | [] => [(k, v)]
  | (k', v') :: ps =>
      if decide (k' = k) then (k, v) :: ps else (k', v') :: set_prop k v ps
  end.

(** The own enumerable properties that a spread [{...x}] copies. *)
Definition own_props (x : json) : list (string * json) :=
  match x with
  | JObj props => props
  | JArr xs => imap (λ i v, (pretty i, v)) xs
  | JStr s =>
      imap (λ i c, (pretty i, JStr (String c EmptyString)))
           (String.list_ascii_of_string s)
  | _ => []
  end.

(** Copying properties into an object literal under construction. *)
Definition assign (target source : list (string * json))
  : list (string * json) :=
  fold_left (λ acc kv, set_prop kv.1 kv.2 acc) source target.

(** The message of the [TypeError] for [null.k]. *)
Definition null_error (k : string) : string :=
  "Cannot read properties of null (reading '" +:+ k +:+ "')".

(** [x.k]; reading a property of [null] raises a [TypeError]. *)
Definition get (x : json) (k : string) : result (option json) :=
  match x with
  | JNull => Throw (null_error k)
  | JObj props => Ok (lookup_prop k props)
  | _ => Ok None
  end.

(** [x.length] *)
Definition length_of (x : json) : result (option json) :=
  match x with
  | JArr xs => Ok (Some (JNum (Z.of_nat (length xs))))
  | JStr s => Ok (Some (JNum (Z.of_nat (String.length s))))
  | _ => get x "length"
  end.

Definition truthy_value (x : json) : bool :=
  match x with
  | JNull => false
  | JBool b => b
  | JNum n => negb (n =? 0)
  | JStr s => truthy s
  | JArr _ | JObj _ => true
  end.

(** Truthiness of a value that may be [undefined]. *)
Definition truthy_opt (x : option json) : bool :=
  match x with Some v => truthy_value v | None => false end.

(** [typeof x === 'string'] *)
Definition is_string (x : option json) : bool :=
  match x with Some (JStr _) => true | _ => false end.

(** [typeof x === 'object'] *)
Definition is_object (x : json) : bool :=
  match x with JNull | JArr _ | JObj _ => true | _ => false end.

(** [x === s] for a string [s] *)
Definition strict_eq_string (x : option json) (s : string) : bool :=
  match x with Some (JStr t) => bool_decide (t = s) | _ => false end.

(** [xs.filter(p)] where the callback may raise *)
Fixpoint filter_result (p : json → result bool) (xs : list json)
  : result (list json) :=
  match xs with
  | [] => Ok []
  | x :: xs' =>
      match p x with
      | Throw m => Throw m
      | Ok b =>
          match filter_result p xs' with
          | Throw m => Throw m
          | Ok ys => Ok (if b then x :: ys else ys)
          end
      end
  end.

(** [xs.findIndex(p)] where the callback may raise; [None] is [-1] *)
Fixpoint findIndex (p : json → result bool) (xs : list json)
  : result (option nat) :=
  match xs with
  | [] => Ok None
  | x :: xs' =>
      match p x with
      | Throw m => Throw m
      | Ok true => Ok (Some 0%nat)
      | Ok false =>
          match findIndex p xs' with
          | Throw m => Throw m
          | Ok r => Ok (S <$> r)
          end
      end
  end.

(** The [id] of an item, when the item is an object whose [id] is a
    string. *)
Definition string_id (item : json) : option string :=
  match item with
  | JObj props =>
      match lookup_prop "id" props with
      | Some (JStr s) => Some s
      | _ => None
      end
  | _ => None
  end.

(** An item whose [id] is a string other than the empty one. *)
Definition has_id (item : json) : bool :=
  match string_id item with Some s => truthy s | None => false end.

(** [message.includes(text)] *)
Definition includes_text (text message : string) : bool :=
  bool_decide (is_Some (String.index 0 text message)).

(** [array.join(',')] on the texts of the elements *)
Fixpoint join (texts : list string) : string :=
  match texts with
  | [] => ""
  | [text] => text
  | text :: rest => text +:+ "," +:+ join rest
  end.

(** [String(v)], which is also what a template literal makes of [v]. *)
Fixpoint to_text (v : json) : string :=
  match v with
  | JNull => "null"
  | JBool b => if b then "true" else "false"
  | JNum n => String_of_Z n
  | JStr s => s
  | JArr xs =>
      join (map (λ x, match x with JNull => "" | _ => to_text x end) xs)
  | JObj _ => "[object Object]"
  end.

(** The same for a value that may be [undefined]. *)
Definition String_of (v : option json) : string :=
  match v with Some x => to_text x | None => "undefined" end.

End Json.

(** ** What the handlers use of Node.js *)

Class NodeJS := {
  (** [JSON.stringify(x)] *)
  JSON_stringify : json → string;
  (** [JSON.parse(text)]; a [SyntaxError] is raised on other text *)
  JSON_parse : string → result json;
  (** [buffer.toString('base64')] *)
  Buffer_toString_base64 : list ascii → string;
  (** [Buffer.from(text, 'base64')] *)
  Buffer_from_base64 : string → list ascii;
  (** [new Date(t).toISOString()] *)
  Date_toISOString : Z → string;
}.

Section NodeLaws.
Context {node_js : NodeJS}.

Definition json_round_trip : Prop :=
  ∀ x, JSON_parse (JSON_stringify x) = Ok x.

Definition base64_round_trip : Prop :=
  ∀ bytes, Buffer_from_base64 (Buffer_toString_base64 bytes) = bytes.

End NodeLaws.

(** ** file-server/server.js: storage and [FileEncryption] *)

(** An encrypted artifact on disk, the object [{encrypted, salt, iv}]. *)
Record EncryptedData := {
  encrypted : string;
  salt : string;
  iv : string;
}.

(** The disk as the handlers reach it: the three storage directories, each
    a map from the name of a file of the directory itself to its content,
    and the encrypted artifacts anywhere else, by absolute path. Every path
    a handler builds ends in [.enc] or [.meta]; what the disk holds under
    such a path is taken to be an encrypted artifact, as the server itself
    writes them, and different normalised paths are different files. *)
Record Storage := {
  FILES_DIR : gmap string EncryptedData;
  METADATA_DIR : gmap string EncryptedData;
  VAULT_ITEMS_DIR : gmap string EncryptedData;
  ELSEWHERE : gmap (list string) EncryptedData;
}.

(** The three directories of the storage, and their names under
    [STORAGE_DIR]. *)
Inductive Directory := in_FILES_DIR | in_METADATA_DIR | in_VAULT_ITEMS_DIR.

Global Instance Directory_eq_dec : EqDecision Directory.
Proof. solve_decision. Defined.

Definition directory_name (d : Directory) : string :=
  match d with
  | in_FILES_DIR => "files"
  | in_METADATA_DIR => "metadata"
  | in_VAULT_ITEMS_DIR => "vault-items"
  end.

Definition directory_of (name : string) : option Directory :=
  if decide (name = "files") then Some in_FILES_DIR
  else if decide (name = "metadata") then Some in_METADATA_DIR
  else if decide (name = "vault-items") then Some in_VAULT_ITEMS_DIR
  else None.

(** The file a path names: a file of one of the three directories, or
    another place of the disk, given by its absolute path. *)
Inductive Location :=
| Within (d : Directory) (name : string)
| Elsewhere (path : list string).

Global Instance Location_eq_dec : EqDecision Location.
Proof. solve_decision. Defined.

(** The name of the file at a location: the last segment of its path. *)
Definition basename (place : Location) : option string :=
  match place with
  | Within _ name => Some name
  | Elsewhere path => last path
  end.

(** A segment that [path.normalize] keeps. *)
Definition proper (segment : string) : Prop :=
  segment ≠ "" ∧ segment ≠ "." ∧ segment ≠ "..".

(** ** What the handlers use of Node's [path], of the place of server.js
    and of Express *)

Definition slash : ascii := "/"%char.

(** [path.normalize], as on POSIX, on the segments of an absolute path: an
    empty segment and [.] are dropped, [..] takes the segment before it
    away and is dropped at the root. [stack] holds the segments passed,
    the last one first. *)
Fixpoint normalize (stack segments : list string) : list string :=
  match segments with
  | [] => reverse stack
  | segment :: rest =>
      if decide (segment = "" ∨ segment = ".") then normalize stack rest
      else if decide (segment = "..") then normalize (tail stack) rest
      else normalize (segment :: stack) rest
  end.

(** [path.join(dir, name)] for a directory [dir] given by the segments of
    its normalised absolute path. *)
Definition path_join (dir : list string) (name : string) : list string :=
  normalize (reverse dir) (split slash name).

(** What is left of [path] behind [prefix]. *)
Fixpoint strip (prefix path : list string) : option (list string) :=
  match prefix, path with
  | [], rest => Some rest
  | a :: prefix', b :: path' =>
      if decide (a = b) then strip prefix' path' else None
  | _ :: _, [] => None
  end.

Class Deployment := {
  (** [__dirname], the directory of server.js: the segments of its
      absolute path *)
  __dirname : list string;
}.

Class Express := {
  (** [res.set(field, value)]: the text of the header as Express sets it,
      which for [Content-Type] may have a charset added and for a value
      that is no string is the text of the value, or the message of the
      exception raised for a text that no header may hold *)
  res_set : string → option json → result string;
}.

Module FileEncryption.
Section FileEncryption.
Context {crypto_js : CryptoJS}.

Definition encrypt (data masterPassword : string) (e : Entropy)
  : EncryptedData * Entropy :=
  let '(salt, e1) := WordArray_random 32 e in
  let key := PBKDF2_words masterPassword salt in
  let '(iv, e2) := WordArray_random 16 e1 in
  let encrypted := AES_encrypt_key data key iv in
  ({| encrypted := encrypted; salt := Hex_stringify salt;
      iv := Hex_stringify iv |}, e2).

Definition decrypt (encryptedData : EncryptedData) (masterPassword : string)
  : result string :=
  let key := PBKDF2_words masterPassword (Hex_parse (salt encryptedData)) in
  let decrypted :=
    AES_decrypt_key (encrypted encryptedData) key
                    (Hex_parse (iv encryptedData)) in
  match Utf8_stringify decrypted with
  | Some text => Ok text
  | None => Throw VaultCrypto.utf8_error
  end.

End FileEncryption.
End FileEncryption.

(** ** file-server/server.js: the handlers *)

(** What a handler answers: [res.status(s).json(body)], or the bytes of a
    file under the headers that the handler has set, each with its text.
    Of an answer in JSON the status and the body are kept, not its
    headers. *)
Inductive Response :=
| Json (status : nat) (body : json)
| Sent (headers : list (string * string)) (content : list ascii).

(** An uploaded file as multer hands it over. *)
Record UploadedFile := {
  originalname : string;
  mimetype : string;
  filesize : Z;
  buffer : list ascii;
}.

Module Server.
Section Server.
Context {crypto_js : CryptoJS} {node_js : NodeJS}.
Context {deployment : Deployment} {express : Express}.

(** [retryOperation(operation, maxRetries = 3, delay)]: the first attempt
    and, while it raises, two more; the last error is raised again. *)
Fixpoint attempts {A} (operation : unit → result A) (retries : nat)
  : result A :=
  match retries with
  | O => operation ()
  | S n =>
      match operation () with
      | Ok a => Ok a
      | Throw _ => attempts operation n
      end
  end.

Definition retryOperation {A} (operation : unit → result A) : result A :=
  attempts operation 2.

Definition vaultItemsPath : string := "vault-items.enc".
Definition backup_prefix : string := "vault-items-backup-".

(** [`vault-items-backup-${Date.now()}.enc`] *)
Definition backupPath (now : Z) : string :=
  backup_prefix +:+ String_of_Z now +:+ ".enc".

Definition with_vault_items (dir : gmap string EncryptedData) (st : Storage)
  : Storage :=
  {| FILES_DIR := FILES_DIR st; METADATA_DIR := METADATA_DIR st;
     VAULT_ITEMS_DIR := dir; ELSEWHERE := ELSEWHERE st |}.

Definition with_files (files metadata : gmap string EncryptedData)
    (st : Storage) : Storage :=
  {| FILES_DIR := files; METADATA_DIR := metadata;
     VAULT_ITEMS_DIR := VAULT_ITEMS_DIR st; ELSEWHERE := ELSEWHERE st |}.

Definition with_elsewhere (disk : gmap (list string) EncryptedData)
    (st : Storage) : Storage :=
  {| FILES_DIR := FILES_DIR st; METADATA_DIR := METADATA_DIR st;
     VAULT_ITEMS_DIR := VAULT_ITEMS_DIR st; ELSEWHERE := disk |}.

(** [path.join(__dirname, 'vault-storage')] *)
Definition STORAGE_DIR : list string := __dirname ++ ["vault-storage"].

(** [FILES_DIR], [METADATA_DIR] and [VAULT_ITEMS_DIR] as paths:
    [path.join(STORAGE_DIR, 'files')] and so on. *)
Definition directory_path (d : Directory) : list string :=
  STORAGE_DIR ++ [directory_name d].

(** The file that an absolute path names. *)
Definition locate (path : list string) : Location :=
  match strip STORAGE_DIR path with
  | Some [d; name] =>
      match directory_of d with
      | Some dir => Within dir name
      | None => Elsewhere path
      end
  | _ => Elsewhere path
  end.

(** [fs.pathExists(path)] and [fs.readJson(path)] in one: the content of
    the file, if there is one. *)
Definition readJson (st : Storage) (place : Location)
  : option EncryptedData :=
  match place with
  | Within in_FILES_DIR name => FILES_DIR st !! name
  | Within in_METADATA_DIR name => METADATA_DIR st !! name
  | Within in_VAULT_ITEMS_DIR name => VAULT_ITEMS_DIR st !! name
  | Elsewhere path => ELSEWHERE st !! path
  end.

(** [fs.writeJson(path, content)] *)
Definition writeJson (place : Location) (content : EncryptedData)
    (st : Storage) : Storage :=
  match place with
  | Within in_FILES_DIR name =>
      with_files (<[name := content]> (FILES_DIR st)) (METADATA_DIR st) st
  | Within in_METADATA_DIR name =>
      with_files (FILES_DIR st) (<[name := content]> (METADATA_DIR st)) st
  | Within in_VAULT_ITEMS_DIR name =>
      with_vault_items (<[name := content]> (VAULT_ITEMS_DIR st)) st
  | Elsewhere path => with_elsewhere (<[path := content]> (ELSEWHERE st)) st
  end.


(** [fs.readdir(dir)] *)
Definition readdir (dir : gmap string EncryptedData) : list string :=
  (map_to_list dir).*1.

(** The callback of the validation of POST /api/vault-items:
    [item => !item.id || typeof item.id !== 'string'] *)
Definition invalid_item (item : json) : result bool :=
  i ← Json.get item "id";
  Ok (negb (Json.truthy_opt i) || negb (Json.is_string i)).

(** The callback of the validation of GET /api/vault-items:
    [item => item && typeof item === 'object' && item.id] *)
Definition valid_item (item : json) : result bool :=
  if negb (Json.truthy_value item) then Ok false
  else if negb (Json.is_object item) then Ok false
  else i ← Json.get item "id"; Ok (Json.truthy_opt i).

(** Calling an array method on a parsed value. *)
Definition as_array (x : json) (method : string) : result (list json) :=
  match x with
  | JArr xs => Ok xs
  | JNull => Throw (Json.null_error method)
  | _ => Throw ("items." +:+ method +:+ " is not a function")
  end.

(** The backups in the order of the clean-up: names sorted, then reversed. *)
Definition backupFiles (dir : gmap string EncryptedData) : list string :=
  reverse (merge_sort String.le
             (filter (λ file, String.prefix backup_prefix file = true)
                     (readdir dir))).

(** "Clean up old backups (keep only last 5)" *)
Definition prune_backups (dir : gmap string EncryptedData)
  : gmap string EncryptedData :=
  fold_left (λ d oldBackup, delete oldBackup d) (drop 5 (backupFiles dir)) dir.

(** "Verify the save by reading back": what is read, decrypted and parsed
    must have the length of the input. *)
Definition verify (dir : gmap string EncryptedData) (masterPassword : string)
    (n : nat) : result unit :=
  verification ← match dir !! vaultItemsPath with
                 | Some v => Ok v
                 | None => Throw "ENOENT: no such file or directory"
                 end;
  text ← FileEncryption.decrypt verification masterPassword;
  verifiedItems ← JSON_parse text;
  len ← Json.length_of verifiedItems;
  match len with
  | Some (JNum k) =>
      if k =? Z.of_nat n then Ok ()
      else Throw "Verification failed: item count mismatch"
  | _ => Throw "Verification failed: item count mismatch"
  end.

Definition save_error (details : string) : Response :=
  Json 500 (JObj [("error", JStr "Failed to save vault items");
                  ("code", JStr "SAVE_ERROR");
                  ("details", JStr details)]).

(** "Restore from backup if save failed" *)
Definition restore (now : Z) (dir : gmap string EncryptedData)
  : gmap string EncryptedData :=
  match dir !! backupPath now with
  | Some backup => <[vaultItemsPath := backup]> dir
  | None => dir
  end.

(** "Create backup of existing items before saving" *)
Definition backup (now : Z) (dir : gmap string EncryptedData)
  : gmap string EncryptedData :=
  match dir !! vaultItemsPath with
  | Some existing => <[backupPath now := existing]> dir
  | None => dir
  end.

(** The answer of a save that was verified. *)
Definition saved_response (n : nat) (now : Z) : Response :=
  Json 200 (JObj [("success", JBool true);
                  ("itemCount", JNum (Z.of_nat n));
                  ("savedAt", JStr (Date_toISOString now));
                  ("verified", JBool true)]).

(** The snapshot that a save writes for the items [xs]. *)
Definition written (xs : list json) (masterPassword : string) (e : Entropy)
  : EncryptedData :=
  (FileEncryption.encrypt (JSON_stringify (JArr xs)) masterPassword e).1.

(** The directory of a save once the backup is made and the new snapshot
    written. *)
Definition after_write (dir : gmap string EncryptedData) (xs : list json)
    (masterPassword : string) (e : Entropy) (now : Z)
  : gmap string EncryptedData :=
  <[vaultItemsPath := written xs masterPassword e]> (backup now dir).

(** The answer to an array in which [n] items fail the validation. *)
Definition invalid_structure (n : nat) : Response :=
  Json 400 (JObj [("error", JStr "All items must have valid ID");
                  ("code", JStr "INVALID_ITEM_STRUCTURE");
                  ("invalidCount", JNum (Z.of_nat n))]).

(** POST /api/vault-items with [items = req.body.items]. *)
Definition post_vault_items (st : Storage) (items : option json)
    (masterPassword : string) (e : Entropy) (now : Z)
  : Storage * Entropy * Response :=
  match items with
  | Some (JArr xs) =>
      match Json.filter_result invalid_item xs with
      | Throw m => (st, e, save_error m)
      | Ok invalidItems =>
          if (0 <? length invalidItems)%nat then
            (st, e, invalid_structure (length invalidItems))
          else
            let dir0 := backup now (VAULT_ITEMS_DIR st) in
            let '(encryptedItems, e') :=
              FileEncryption.encrypt (JSON_stringify (JArr xs))
                                     masterPassword e in
            let dir1 := <[vaultItemsPath := encryptedItems]> dir0 in
            match verify dir1 masterPassword (length xs) with
            | Ok _ =>
                (with_vault_items (prune_backups dir1) st, e',
                 saved_response (length xs) now)
            | Throw m =>
                (with_vault_items (restore now dir1) st, e', save_error m)
            end
      end
  | _ =>
      (st, e,
       Json 400 (JObj [("error", JStr "Items array required");
                       ("code", JStr "INVALID_ITEMS")]))
  end.

(** The [catch] of the reading handlers: the answer depends on the text of
    the error. *)
Definition read_error (failed code details : string) : Response :=
  if Json.includes_text "decrypt" details then
    Json 401 (JObj [("error",
                     JStr "Decryption failed - invalid master password");
                    ("code", JStr "DECRYPTION_ERROR")])
  else
    Json 500 (JObj [("error", JStr failed); ("code", JStr code);
                    ("details", JStr details)]).

(** The stored snapshot as a handler loads it: decrypted, then parsed. *)
Definition load_items (encryptedItems : EncryptedData)
    (masterPassword : string) : result json :=
  itemsJson ← FileEncryption.decrypt encryptedItems masterPassword;
  JSON_parse itemsJson.

(** GET /api/vault-items *)
Definition get_vault_items (st : Storage) (masterPassword : string) (now : Z)
  : Response :=
  match VAULT_ITEMS_DIR st !! vaultItemsPath with
  | None =>
      Json 200 (JObj [("items", JArr []); ("totalCount", JNum 0);
                      ("timestamp", JStr (Date_toISOString now))])
  | Some encryptedItems =>
      match
        itemsJson ← retryOperation
          (λ _, FileEncryption.decrypt encryptedItems masterPassword);
        items ← JSON_parse itemsJson;
        xs ← as_array items "filter";
        validItems ← Json.filter_result valid_item xs;
        Ok (length xs, validItems)
      with
      | Ok (n, validItems) =>
          let invalidCount := (n - length validItems)%nat in
          Json 200
            (JObj ([("items", JArr validItems);
                    ("totalCount", JNum (Z.of_nat (length validItems)))]
                   ++ (if (0 <? invalidCount)%nat
                       then [("invalidCount", JNum (Z.of_nat invalidCount))]
                       else [])
                   ++ [("timestamp", JStr (Date_toISOString now))]))
      | Throw m => read_error "Failed to get vault items" "GET_ERROR" m
      end
  end.

(** The items a single-item handler starts from: [let items = []], and the
    stored snapshot when its file exists. *)
Definition stored_items (st : Storage) (masterPassword : string)
  : result json :=
  match VAULT_ITEMS_DIR st !! vaultItemsPath with
  | Some encryptedItems => load_items encryptedItems masterPassword
  | None => Ok (JArr [])
  end.

(** The invariant of the snapshot: read with the master password it is an
    array, and every item of it is an object whose [id] is a string. *)
Definition string_ids (st : Storage) (masterPassword : string) : Prop :=
  ∃ xs, stored_items st masterPassword = Ok (JArr xs)
        ∧ Forall (λ item, is_Some (Json.string_id item)) xs.

(** The array that PUT /api/vault-items/:itemId writes:
    [{...items[itemIndex], ...item, id: itemId}] replaces the item found,
    [{...item, id: itemId}] is pushed when there is none. *)
Definition upsert (items : json) (itemId : string) (item : json)
  : result (list json) :=
  xs ← as_array items "findIndex";
  itemIndex ← Json.findIndex
    (λ i, v ← Json.get i "id"; Ok (Json.strict_eq_string v itemId)) xs;
  match itemIndex with
  | Some k =>
      match xs !! k with
      | Some old =>
          Ok (<[k := JObj (Json.set_prop "id" (JStr itemId)
                             (Json.assign (Json.assign [] (Json.own_props old))
                                          (Json.own_props item)))]> xs)
      | None => Ok xs
      end
  | None =>
      Ok (xs ++ [JObj (Json.set_prop "id" (JStr itemId)
                         (Json.assign [] (Json.own_props item)))])
  end.

(** PUT /api/vault-items/:itemId with [item = req.body.item]. *)
Definition put_vault_item (st : Storage) (itemId : string)
    (item : option json) (masterPassword : string) (e : Entropy) (now : Z)
  : Storage * Entropy * Response :=
  match item with
  | Some item' =>
      if negb (Json.truthy_value item') then
        (st, e, Json 400 (JObj [("error", JStr "Item data required")]))
      else
        match
          items ← stored_items st masterPassword;
          upsert items itemId item'
        with
        | Ok xs =>
            let '(encryptedItems, e') :=
              FileEncryption.encrypt (JSON_stringify (JArr xs))
                                     masterPassword e in
            (with_vault_items
               (<[vaultItemsPath := encryptedItems]> (VAULT_ITEMS_DIR st)) st,
             e',
             Json 200 (JObj [("success", JBool true);
                             ("itemId", JStr itemId);
                             ("updatedAt", JStr (Date_toISOString now))]))
        | Throw _ =>
            (st, e,
             Json 500 (JObj [("error", JStr "Failed to update vault item")]))
        end
  | None => (st, e, Json 400 (JObj [("error", JStr "Item data required")]))
  end.

(** DELETE /api/vault-items/:itemId *)
Definition delete_vault_item (st : Storage) (itemId : string)
    (masterPassword : string) (e : Entropy) (now : Z)
  : Storage * Entropy * Response :=
  match VAULT_ITEMS_DIR st !! vaultItemsPath with
  | None => (st, e, Json 404 (JObj [("error", JStr "No vault items found")]))
  | Some encryptedItems =>
      match
        items ← load_items encryptedItems masterPassword;
        initial ← Json.length_of items;
        xs ← as_array items "filter";
        kept ← Json.filter_result
          (λ i, v ← Json.get i "id";
                Ok (negb (Json.strict_eq_string v itemId))) xs;
        Ok (xs, kept)
      with
      | Ok (xs, kept) =>
          if (length kept =? length xs)%nat then
            (st, e, Json 404 (JObj [("error", JStr "Item not found")]))
          else
            let '(encryptedUpdatedItems, e') :=
              FileEncryption.encrypt (JSON_stringify (JArr kept))
                                     masterPassword e in
            (with_vault_items
               (<[vaultItemsPath := encryptedUpdatedItems]>
                  (VAULT_ITEMS_DIR st)) st,
             e',
             Json 200 (JObj [("success", JBool true);
                             ("itemId", JStr itemId);
                             ("deletedAt", JStr (Date_toISOString now))]))
      | Throw _ =>
          (st, e,
           Json 500 (JObj [("error", JStr "Failed to delete vault item")]))
      end
  end.

(** [path.join(FILES_DIR, `${fileId}.enc`)] and
    [path.join(METADATA_DIR, `${fileId}.meta`)]: the file named. Express
    decodes the parameter of the route, so that a [fileId] may hold a [/],
    and the file it names need not be one of the directory itself. *)
Definition filePath (fileId : string) : Location :=
  locate (path_join (directory_path in_FILES_DIR) (fileId +:+ ".enc")).

Definition metadataPath (fileId : string) : Location :=
  locate (path_join (directory_path in_METADATA_DIR) (fileId +:+ ".meta")).

(** The metadata record of an upload. *)
Definition metadata_of (fileId : string) (file : UploadedFile)
    (description category : option string) (now : Z)
    (fileDataBase64 : string) : json :=
  JObj [("id", JStr fileId);
        ("name", JStr (originalname file));
        ("type", JStr (mimetype file));
        ("size", JNum (filesize file));
        ("description", JStr (if present description
                              then default "" description else ""));
        ("category", JStr (if present category
                           then default "files" category else "files"));
        ("uploadedAt", JStr (Date_toISOString now));
        ("encrypted", JBool true);
        ("checksum", JStr (SHA256 fileDataBase64))].

(** POST /api/files/upload; [fileId] is the identifier [uuidv4()] returns.
    Nothing in the body raises on this model's inputs, so the clean-up of
    the [catch] is not entered. *)
Definition upload_file (st : Storage) (file : option UploadedFile)
    (description category : option string) (masterPassword : string)
    (e : Entropy) (fileId : string) (now : Z)
  : Storage * Entropy * Response :=
  match file with
  | None =>
      (st, e, Json 400 (JObj [("error", JStr "No file provided");
                              ("code", JStr "NO_FILE")]))
  | Some f =>
      if 100 * 1024 * 1024 <? filesize f then
        (st, e, Json 413 (JObj [("error", JStr "File too large (max 100MB)");
                                ("code", JStr "FILE_TOO_LARGE")]))
      else
        let fileDataBase64 := Buffer_toString_base64 (buffer f) in
        let '(encryptedFile, e1) :=
          FileEncryption.encrypt fileDataBase64 masterPassword e in
        let metadata :=
          metadata_of fileId f description category now fileDataBase64 in
        let '(encryptedMetadata, e2) :=
          FileEncryption.encrypt (JSON_stringify metadata)
                                 masterPassword e1 in
        (writeJson (metadataPath fileId) encryptedMetadata
           (writeJson (filePath fileId) encryptedFile st),
         e2,
         Json 200 (JObj [("success", JBool true);
                         ("fileId", JStr fileId);
                         ("name", JStr (originalname f));
                         ("size", JNum (filesize f));
                         ("type", JStr (mimetype f));
                         ("uploadedAt", JStr (Date_toISOString now))]))
  end.

(** The storage once the encrypted body of a file was replaced on disk. *)
Definition with_file_body (fileId : string) (body : EncryptedData)
    (st : Storage) : Storage :=
  writeJson (filePath fileId) body st.

Definition integrity_error : Response :=
  Json 500 (JObj [("error", JStr "File integrity check failed");
                  ("code", JStr "INTEGRITY_ERROR")]).

(** The double quote of [filename="..."]. *)
Definition quote : ascii := ascii_of_nat 34.

(** The object passed to [res.set]: the headers in the order written, each
    with the value the handler gives it. *)
Definition download_headers (fileId : string) (metadata : json)
    (fileBuffer : list ascii) : result (list (string * option json)) :=
  type ← Json.get metadata "type";
  name ← Json.get metadata "name";
  uploadedAt ← Json.get metadata "uploadedAt";
  Ok [("Content-Type", type);
      ("Content-Length", Some (JNum (Z.of_nat (length fileBuffer))));
      ("Content-Disposition",
       Some (JStr ("attachment; filename="
                   +:+ String quote (Json.String_of name
                                     +:+ String quote ""))));
      ("X-File-ID", Some (JStr fileId));
      ("X-Upload-Date", uploadedAt)].

(** [res.set(object)]: the headers are set one after the other, and the
    first value that Express refuses raises. *)
Fixpoint set_all (headers : list (string * option json))
  : result (list (string * string)) :=
  match headers with
  | [] => Ok []
  | (field, value) :: rest =>
      text ← res_set field value;
      others ← set_all rest;
      Ok ((field, text) :: others)
  end.

(** The [try] block of GET /api/files/:fileId once both artifacts exist. *)
Definition download_body (fileId : string)
    (encryptedFile encryptedMetadata : EncryptedData)
    (masterPassword : string) : result Response :=
  metadataJson ← retryOperation
    (λ _, FileEncryption.decrypt encryptedMetadata masterPassword);
  metadata ← JSON_parse metadataJson;
  fileDataBase64 ← retryOperation
    (λ _, FileEncryption.decrypt encryptedFile masterPassword);
  let fileBuffer := Buffer_from_base64 fileDataBase64 in
  checksum ← Json.get metadata "checksum";
  if Json.truthy_opt checksum
     && negb (Json.strict_eq_string checksum (SHA256 fileDataBase64))
  then Ok integrity_error
  else
    headers ← download_headers fileId metadata fileBuffer;
    sent ← set_all headers;
    Ok (Sent sent fileBuffer).

(** GET /api/files/:fileId *)
Definition get_file (st : Storage) (fileId : string) (masterPassword : string)
  : Response :=
  if negb (truthy fileId) || (String.length fileId <? 10)%nat then
    Json 400 (JObj [("error", JStr "Invalid file ID");
                    ("code", JStr "INVALID_FILE_ID")])
  else
    match readJson st (filePath fileId),
          readJson st (metadataPath fileId) with
    | Some encryptedFile, Some encryptedMetadata =>
        match download_body fileId encryptedFile encryptedMetadata
                            masterPassword with
        | Ok response => response
        | Throw m => read_error "Download failed" "DOWNLOAD_ERROR" m
        end
    | _, _ =>
        Json 404 (JObj [("error", JStr "File not found");
                        ("code", JStr "FILE_NOT_FOUND")])
    end.


(** GET /api/files/:fileId/metadata *)
Definition get_file_metadata (st : Storage) (fileId : string)
    (masterPassword : string) : Response :=
  match readJson st (metadataPath fileId) with
  | None => Json 404 (JObj [("error", JStr "File not found")])
  | Some encryptedMetadata =>
      match
        metadataJson ← FileEncryption.decrypt encryptedMetadata
                                              masterPassword;
        JSON_parse metadataJson
      with
      | Ok metadata => Json 200 metadata
      | Throw _ => Json 500 (JObj [("error", JStr "Failed to get metadata")])
      end
  end.

End Server.
End Server.

(** ** lib/auth.ts: [AuthService] *)

(** What the session code uses of JavaScript's coercions beyond the cases
    written out below. *)
Class ECMAScript := {
  (** [now - v > maxAge] for a [v] that is a string, an array or an
      object *)
  minus_exceeds : Z → json → Z → bool;
}.

(** the empty text is no JSON: [JSON.parse('')] raises *)
Definition empty_text_is_no_json {node_js : NodeJS} : Prop :=
  is_Ok (JSON_parse "") = false.

(** The browser as [AuthService] sees it: the two storages, and the
    [vaultDB] object with its database. *)
Record Browser := {
  localStorage : gmap string string;
  sessionStorage : gmap string string;
  vault : Client;
}.

Module AuthService.
Section AuthService.
Context {crypto_js : CryptoJS} {node_js : NodeJS} {ecma_script : ECMAScript}.

Definition MASTER_PASSWORD_KEY : string := "vault_master_password_hash".
Definition SESSION_KEY : string := "vault_session".
Definition VALIDATION_DATA_KEY : string := "vault_validation_data".
Definition SESSION_PASSWORD_KEY : string := "vault_session_password".

Definition with_localStorage (s : gmap string string) (b : Browser)
  : Browser :=
  {| localStorage := s; sessionStorage := sessionStorage b;
     vault := vault b |}.

Definition with_sessionStorage (s : gmap string string) (b : Browser)
  : Browser :=
  {| localStorage := localStorage b; sessionStorage := s;
     vault := vault b |}.

Definition with_vault (c : Client) (b : Browser) : Browser :=
  {| localStorage := localStorage b; sessionStorage := sessionStorage b;
     vault := c |}.

(** [array.join(',')] on the texts of the elements *)
Fixpoint join_comma (texts : list string) : string :=
  match texts with
  | [] => ""
  | [text] => text
  | text :: rest => text +:+ "," +:+ join_comma rest
  end.

(** [String(v)], as the operator [+] applies it to a parsed value. *)
Fixpoint to_string (v : json) : string :=
  match v with
  | JNull => "null"
  | JBool b => if b then "true" else "false"
  | JNum n => String_of_Z n
  | JStr s => s
  | JArr xs =>
      join_comma
        (map (λ x, match x with JNull => "" | _ => to_string x end) xs)
  | JObj _ => "[object Object]"
  end.

(** ['session_key_' + sessionData.timestamp] *)
Definition sessionKey (timestamp : option json) : string :=
  "session_key_"
  +:+ match timestamp with Some v => to_string v | None => "undefined" end.

(** [8 * 60 * 60 * 1000] *)
Definition maxAge : Z := 8 * 60 * 60 * 1000.

(** [Date.now() - session.timestamp > maxAge]; the difference with
    [undefined] is [NaN], which exceeds nothing. *)
Definition isExpired (now : Z) (timestamp : option json) : bool :=
  match timestamp with
  | None => false
  | Some JNull => bool_decide (now - 0 > maxAge)
  | Some (JBool b) => bool_decide (now - (if b then 1 else 0) > maxAge)
  | Some (JNum t) => bool_decide (now - t > maxAge)
  | Some v => minus_exceeds now v maxAge
  end.

(** [{timestamp: Date.now(), isAuthenticated: true}] *)
Definition sessionData (now : Z) : json :=
  JObj [("timestamp", JNum now); ("isAuthenticated", JBool true)].

Definition hasMasterPassword (b : Browser) : bool :=
  bool_decide (is_Some (localStorage b !! MASTER_PASSWORD_KEY)).

(** [setMasterPassword(password)]: the error raised when a master password
    is set already is caught, and [false] is returned. *)
Definition setMasterPassword (b : Browser) (password : string) (e : Entropy)
  : Browser * Entropy * bool :=
  if hasMasterPassword b then (b, e, false)
  else
    let hashedPassword := VaultCrypto.hashMasterPassword password in
    let '(validationData, e') :=
      VaultCrypto.encrypt "validation_test" password e in
    (with_localStorage
       (<[VALIDATION_DATA_KEY := validationData]>
          (<[MASTER_PASSWORD_KEY := hashedPassword]> (localStorage b))) b,
     e', true).

(** [verifyMasterPassword(password)]; the random source is that of the
    branch of [validateMasterPassword] for absent test data, which is not
    taken here. *)
Definition verifyMasterPassword (b : Browser) (password : string)
    (e : Entropy) : bool :=
  let storedHash := localStorage b !! MASTER_PASSWORD_KEY in
  let validationData := localStorage b !! VALIDATION_DATA_KEY in
  if negb (present storedHash) then false
  else if negb (bool_decide
                  (Some (VaultCrypto.hashMasterPassword password)
                   = storedHash)) then false
  else if present validationData then
    VaultCrypto.validateMasterPassword password validationData e
  else true.

(** [logout()]; the file-server client that [clearServerAPI] drops is
    made anew from the master password at each use. *)
Definition logout (b : Browser) : Browser :=
  {| localStorage := localStorage b;
     sessionStorage :=
       delete SESSION_PASSWORD_KEY (delete SESSION_KEY (sessionStorage b));
     vault := vaultDB.clearMasterPassword (vault b) |}.

Definition changeMasterPassword (b : Browser)
    (currentPassword newPassword : string) (e : Entropy)
  : Browser * Entropy * bool :=
  if negb (verifyMasterPassword b currentPassword e) then (b, e, false)
  else
    let newHashedPassword := VaultCrypto.hashMasterPassword newPassword in
    let '(newValidationData, e') :=
      VaultCrypto.encrypt "validation_test" newPassword e in
    (logout
       (with_localStorage
          (<[VALIDATION_DATA_KEY := newValidationData]>
             (<[MASTER_PASSWORD_KEY := newHashedPassword]>
                (localStorage b))) b),
     e', true).

(** [login(password)]: the outcome of the synchronisation is only
    logged. *)
Definition login (b : Browser) (r : Remote) (password : string) (now : Z)
    (e : Entropy) : Browser * Remote * Entropy * bool :=
  if verifyMasterPassword b password e then
    let s1 := <[SESSION_KEY := JSON_stringify (sessionData now)]>
                (sessionStorage b) in
    let '(encryptedPassword, e') :=
      VaultCrypto.encrypt password (sessionKey (Some (JNum now))) e in
    let s2 := <[SESSION_PASSWORD_KEY := encryptedPassword]> s1 in
    let c := vaultDB.setMasterPassword password (vault b) in
    let '(c', r', _) := vaultDB.autoSyncVaultItems c r in
    ({| localStorage := localStorage b; sessionStorage := s2;
        vault := c' |}, r', e', true)
  else (b, r, e, false).

(** [isAuthenticated()]: an expired session is logged out; whatever is
    raised gives [false]. *)
Definition isAuthenticated (b : Browser) (now : Z) : Browser * bool :=
  match sessionStorage b !! SESSION_KEY with
  | None => (b, false)
  | Some text =>
      if negb (truthy text) then (b, false)
      else
        match JSON_parse text with
        | Throw _ => (b, false)
        | Ok session =>
            match Json.get session "timestamp" with
            | Throw _ => (b, false)
            | Ok timestamp =>
                if isExpired now timestamp then (logout b, false)
                else
                  match Json.get session "isAuthenticated" with
                  | Ok (Some (JBool true)) => (b, true)
                  | _ => (b, false)
                  end
            end
        end
  end.

(** [restoreMasterPasswordFromSession()] *)
Definition restoreMasterPasswordFromSession (b : Browser) (now : Z)
    (e : Entropy) : Browser * bool :=
  let encryptedPassword := sessionStorage b !! SESSION_PASSWORD_KEY in
  let sessionDataStr := sessionStorage b !! SESSION_KEY in
  match encryptedPassword, sessionDataStr with
  | Some envelope, Some text =>
      if negb (truthy envelope) || negb (truthy text) then (b, false)
      else
        let '(b1, authenticated) := isAuthenticated b now in
        if negb authenticated then (b1, false)
        else
          match JSON_parse text with
          | Throw _ => (b1, false)
          | Ok session =>
              match Json.get session "timestamp" with
              | Throw _ => (b1, false)
              | Ok timestamp =>
                  match VaultCrypto.decrypt envelope (sessionKey timestamp)
                  with
                  | Throw _ => (b1, false)
                  | Ok decryptedPassword =>
                      if verifyMasterPassword b1 decryptedPassword e then
                        (with_vault
                           (vaultDB.setMasterPassword decryptedPassword
                              (vault b1)) b1, true)
                      else (b1, false)
                  end
              end
          end
  | _, _ => (b, false)
  end.

Definition resetAuth (b : Browser) : Browser :=
  {| localStorage :=
       delete VALIDATION_DATA_KEY
         (delete MASTER_PASSWORD_KEY (localStorage b));
     sessionStorage :=
       delete SESSION_PASSWORD_KEY (delete SESSION_KEY (sessionStorage b));
     vault := vaultDB.clearMasterPassword (vault b) |}.

(** [extendSession()]: [Date.now()] is read once by [isAuthenticated] and
    once for the new session. *)
Definition extendSession (b : Browser) (now now' : Z) : Browser :=
  let '(b1, authenticated) := isAuthenticated b now in
  if authenticated then
    with_sessionStorage
      (<[SESSION_KEY := JSON_stringify (sessionData now')]>
         (sessionStorage b1)) b1
  else b1.

End AuthService.
End AuthService.

(** ** A reference implementation of the two interfaces

    It is not crypto-js: it is the smallest implementation that meets the
    laws above, so that they are known to hold together and the embedded
    functions can be run. The cipher masks the UTF-8 bytes of the text with
    one byte drawn from the key (and, in key mode, the IV) and writes the
    result in hexadecimal; as with AES-CBC nothing authenticates the
    result, so a wrong key gives other bytes, which may or may not be
    UTF-8. *)

Module Reference.

Definition hex_digit (n : N) : ascii :=
  match n with
  | 0 => "0" | 1 => "1" | 2 => "2" | 3 => "3" | 4 => "4" | 5 => "5"
  | 6 => "6" | 7 => "7" | 8 => "8" | 9 => "9" | 10 => "a" | 11 => "b"
  | 12 => "c" | 13 => "d" | 14 => "e" | _ => "f"
  end%N%char.

Definition hex_value (c : ascii) : option N :=
  let n := N_of_ascii c in
  if (48 <=? n)%N && (n <=? 57)%N then Some (n - 48)%N
  else if (97 <=? n)%N && (n <=? 102)%N then Some (n - 87)%N
  else if (65 <=? n)%N && (n <=? 70)%N then Some (n - 55)%N
  else None.

Fixpoint hex_stringify (w : list ascii) : string :=
  match w with
  | [] => ""
  | a :: w' =>
      String (hex_digit (N_of_ascii a / 16))
        (String (hex_digit (N_of_ascii a mod 16)) (hex_stringify w'))
  end.

(** Two digits make a byte; like [parseInt], a pair that starts with no
    digit counts as zero and a pair whose second character is no digit
    counts as its first digit. *)
Definition hex_pair (c1 c2 : ascii) : ascii :=
  match hex_value c1, hex_value c2 with
  | Some h, Some l => ascii_of_N (16 * h + l)
  | Some h, None => ascii_of_N h
  | None, _ => zero
  end.

Fixpoint hex_parse (s : string) : list ascii :=
  match s with
  | String c1 (String c2 s') => hex_pair c1 c2 :: hex_parse s'
  | String c1 EmptyString => [hex_pair c1 " "]
  | EmptyString => []
  end.

(** UTF-8 of the code points below 256. *)
Definition utf8_char (a : ascii) : list ascii :=
  let n := N_of_ascii a in
  if (n <? 128)%N then [a]
  else [ascii_of_N (192 + n / 64); ascii_of_N (128 + n mod 64)].

Fixpoint utf8_parse (s : string) : list ascii :=
  match s with
  | EmptyString => []
  | String a s' => utf8_char a ++ utf8_parse s'
  end.

Fixpoint utf8_stringify (w : list ascii) : option string :=
  match w with
  | [] => Some EmptyString
  | b :: rest =>
      let n := N_of_ascii b in
      if (n <? 128)%N then String b <$> utf8_stringify rest
      else if (n =? 194)%N || (n =? 195)%N then
        match rest with
        | c :: rest' =>
            let m := N_of_ascii c in
            if (128 <=? m)%N && (m <? 192)%N then
              String (ascii_of_N ((n - 192) * 64 + (m - 128)))
                <$> utf8_stringify rest'
            else None
        | [] => None
        end
      else None
  end.

Definition xor_ascii (a b : ascii) : ascii :=
  match a, b with
  | Ascii a0 a1 a2 a3 a4 a5 a6 a7, Ascii b0 b1 b2 b3 b4 b5 b6 b7 =>
      Ascii (xorb a0 b0) (xorb a1 b1) (xorb a2 b2) (xorb a3 b3)
            (xorb a4 b4) (xorb a5 b5) (xorb a6 b6) (xorb a7 b7)
  end.

Definition key_byte (key : list ascii) : ascii := foldr xor_ascii zero key.

Definition mask (k : ascii) (w : list ascii) : list ascii :=
  xor_ascii k <$> w.

Definition random (n : nat) (e : nat) : list ascii * nat :=
  ((λ i, ascii_of_nat (e + i)) <$> seq 0 n, (e + n)%nat).

Definition crypto : CryptoJS := {|
  Entropy := nat;
  WordArray_random := random;
  Hex_stringify := hex_stringify;
  Hex_parse := hex_parse;
  Utf8_stringify := utf8_stringify;
  SHA256 := λ s, "sha256:" +:+ s;
  PBKDF2 := λ password salt, String.list_ascii_of_string (password +:+ salt);
  PBKDF2_words := λ password salt, String.list_ascii_of_string password ++ salt;
  AES_encrypt_passphrase := λ data key iv e,
    (hex_stringify
       (mask (key_byte (String.list_ascii_of_string key)) (utf8_parse data)),
     e);
  AES_decrypt_passphrase := λ text key iv,
    mask (key_byte (String.list_ascii_of_string key)) (hex_parse text);
  AES_encrypt_key := λ data key iv,
    hex_stringify
      (mask (xor_ascii (key_byte key) (key_byte iv)) (utf8_parse data));
  AES_decrypt_key := λ text key iv,
    mask (xor_ascii (key_byte key) (key_byte iv)) (hex_parse text);
|}.

(** JSON text, for the reference, is the binary numeral of the value's code
    in an enumeration of all values. *)
Definition leaf : Type := unit + bool + Z + string.

Fixpoint to_tree (x : json) : gen_tree leaf :=
  match x with
  | JNull => GenLeaf (inl (inl (inl ())))
  | JBool b => GenLeaf (inl (inl (inr b)))
  | JNum n => GenLeaf (inl (inr n))
  | JStr s => GenLeaf (inr s)
  | JArr xs => GenNode 0 (to_tree <$> xs)
  | JObj props =>
      GenNode 1 ((λ kv, GenNode 2 [GenLeaf (inr kv.1); to_tree kv.2])
                   <$> props)
  end.

Fixpoint of_tree (t : gen_tree leaf) : option json :=
  match t with
  | GenLeaf (inl (inl (inl _))) => Some JNull
  | GenLeaf (inl (inl (inr b))) => Some (JBool b)
  | GenLeaf (inl (inr n)) => Some (JNum n)
  | GenLeaf (inr s) => Some (JStr s)
  | GenNode 0 ts => JArr <$> mapM of_tree ts
  | GenNode 1 ts =>
      JObj <$> mapM (λ t',
                 match t' with
                 | GenNode 2 [GenLeaf (inr k); v] => pair k <$> of_tree v
                 | _ => None
                 end) ts
  | GenNode _ _ => None
  end.

Fixpoint pos_to_bits (p : positive) : string :=
  match p with
  | xH => EmptyString
  | xO p' => String "0" (pos_to_bits p')
  | xI p' => String "1" (pos_to_bits p')
  end.

Fixpoint bits_to_pos (s : string) : positive :=
  match s with
  | EmptyString => xH
  | String c s' =>
      if Ascii.eqb c "1" then xI (bits_to_pos s') else xO (bits_to_pos s')
  end.

Definition json_stringify (x : json) : string :=
  pos_to_bits (encode (to_tree x)).

Definition json_parse (text : string) : result json :=
  match decode (bits_to_pos text) ≫= of_tree with
  | Some x => Ok x
  | None => Throw "Unexpected token in JSON"
  end.

Definition node : NodeJS := {|
  JSON_stringify := json_stringify;
  JSON_parse := json_parse;
  Buffer_toString_base64 := hex_stringify;
  Buffer_from_base64 := hex_parse;
  Date_toISOString := λ t, pretty t;
|}.

(** A faulty runtime for the scenario that forces the verification to
    fail: its parser forgets the items. *)
Definition forgetful_node : NodeJS := {|
  JSON_stringify := json_stringify;
  JSON_parse := λ _, Ok (JArr []);
  Buffer_toString_base64 := hex_stringify;
  Buffer_from_base64 := hex_parse;
  Date_toISOString := λ t, pretty t;
|}.

(** Of the coercions only the written cases are used: every other
    difference counts as [NaN]. *)
Definition ecma : ECMAScript := {| minus_exceeds := λ _ _ _, false |}.

(** The place of server.js. *)
Definition deployment : Deployment :=
  {| __dirname := ["srv"; "vaultstack"; "file-server"] |}.

(** The characters a header may hold: the tabulator and what is neither a
    control character nor DEL. *)
Definition header_char (c : ascii) : bool :=
  let n := N_of_ascii c in
  (n =? 9)%N || ((32 <=? n)%N && negb (n =? 127)%N).

(** The types to which Express adds a charset. *)
Definition textual (type : string) : bool :=
  String.prefix "text/" type
  || String.prefix "application/json" type
  || String.prefix "application/javascript" type.

(** [res.set] as Express and Node have it for one value: the text of the
    value, for [Content-Type] with the charset added to a textual type
    that names none, and an exception for a text with a character that no
    header may hold. *)
Definition express : Express := {|
  res_set := λ field value,
    let text := Json.String_of value in
    let text :=
      if decide (field = "Content-Type") then
        if textual text && negb (Json.includes_text "charset" text)
        then text +:+ "; charset=utf-8" else text
      else text in
    if forallb header_char (String.list_ascii_of_string text) then Ok text
    else Throw ("Invalid character in header content ["
                +:+ String Server.quote (field
                +:+ String Server.quote "]"));
|}.

End Reference.

(** ** The records of the scenarios *)

Module Scenario.

(** Scenario A: the item added under the master password. *)
Definition masterPassword : string := "Tr0ub4dor&3".

Definition gmail : VaultItem :=
  {| id := None; name := "Gmail"; category := Passwords;
     description := None; filepath := None; fileData := None;
     platform := None; username := Some "me@x.com"; password := Some "p@ss";
     url := None; linkUrl := None; links := None;
     createdAt := 1700000000000; updatedAt := 1700000000000;
     isFavorite := Some false; orderIndex := None;
     useServerStorage := None; serverFileIds := None; syncStatus := None |}.

(** The same item as stored, with the envelope of the password damaged:
    its last part is cut off. *)
Definition gmail_damaged : VaultItem :=
  set_password (Some "00ff:0a0b")
    (@VaultCrypto.encryptVaultItem Reference.crypto gmail masterPassword
       0%nat).1.

(** A text with its last character overwritten. *)
Fixpoint replace_last (c : ascii) (s : string) : string :=
  match s with
  | EmptyString => EmptyString
  | String a EmptyString => String c EmptyString
  | String a rest => String a (replace_last c rest)
  end.

(** The Gmail item as stored, and the same with the last character of the
    envelope of the password overwritten. *)
Definition gmail_stored : VaultItem :=
  (@VaultCrypto.encryptVaultItem Reference.crypto gmail masterPassword
     0%nat).1.

Definition gmail_garbled : VaultItem :=
  set_password (replace_last "1" <$> password gmail_stored) gmail_stored.
(** What the sensitive fields of [gmail] hold, the password apart. *)
Definition gmail_plain (f : Field) : option string :=
  match f with f_username => Some "me@x.com" | _ => None end.

Definition bank_note : VaultItem :=
  {| id := None; name := "Bank"; category := Notes;
     description := Some "PIN in the safe"; filepath := None;
     fileData := None; platform := None; username := None; password := None;
     url := None; linkUrl := None; links := None;
     createdAt := 1700000000500; updatedAt := 1700000000500;
     isFavorite := Some false; orderIndex := None;
     useServerStorage := None; serverFileIds := None; syncStatus := None |}.

(** A server that is reachable and whose snapshot holds the Gmail item
    under two identifiers. *)
Definition server_with_duplicate : Remote :=
  {| probes := [true; true];
     getVaultItems := Ok [ {| wire_id := "1"; wire_fields := gmail |};
                           {| wire_id := "2"; wire_fields := gmail |} ];
     saveVaultItems := λ _, Ok ();
     pushed := [] |}.

(** A server that is reachable and whose snapshot holds two items. *)
Definition server_with_two : Remote :=
  {| probes := [true; true];
     getVaultItems := Ok [ {| wire_id := "1"; wire_fields := gmail |};
                           {| wire_id := "2"; wire_fields := bank_note |} ];
     saveVaultItems := λ _, Ok ();
     pushed := [] |}.

(** A client that is unlocked and holds one local item. *)
Definition unlocked_client : Client :=
  {| db := {| rows := [set_id (Some 7) bank_note]; keygen := 8 |};
     _masterPassword := masterPassword |}.

(** Scenario E: three items, and the storage after they were saved. *)
Definition three_items : list json :=
  [JObj [("id", JStr "1"); ("name", JStr "Gmail")];
   JObj [("id", JStr "2"); ("name", JStr "Bank")];
   JObj [("id", JStr "3"); ("name", JStr "Wiki")]].

Definition empty_storage : Storage :=
  {| FILES_DIR := ∅; METADATA_DIR := ∅; VAULT_ITEMS_DIR := ∅;
     ELSEWHERE := ∅ |}.

Definition snapshot_of_three : EncryptedData :=
  @Server.written Reference.crypto Reference.node three_items masterPassword
    0%nat.

Definition storage_with_three : Storage :=
  {| FILES_DIR := ∅; METADATA_DIR := ∅;
     VAULT_ITEMS_DIR := {[ Server.vaultItemsPath := snapshot_of_three ]};
     ELSEWHERE := ∅ |}.

(** A file of two bytes, and the storage after its upload. *)
Definition note_file : UploadedFile :=
  {| originalname := "note.txt"; mimetype := "text/plain"; filesize := 2;
     buffer := ["h"; "i"]%char |}.

Definition note_id : string := "3f2b8c1e-0d4a-4b6f-9a77-5e1c2d3f4a5b".

(** The same file under a name that holds a line break. *)
Definition two_line_name : string :=
  "a" +:+ String (ascii_of_nat 10) "b.txt".

Definition two_line_file : UploadedFile :=
  {| originalname := two_line_name; mimetype := "text/plain"; filesize := 2;
     buffer := ["h"; "i"]%char |}.

Definition storage_with_note : Storage :=
  (@Server.upload_file Reference.crypto Reference.node Reference.deployment
     empty_storage (Some note_file) None None masterPassword 0%nat note_id
     1700000000000).1.1.

(** The encrypted body of that file as the upload stored it. *)
Definition note_body : EncryptedData :=
  (@FileEncryption.encrypt Reference.crypto
     (@Buffer_toString_base64 Reference.node (buffer note_file))
     masterPassword 0%nat).1.

(** A body on disk whose first byte was overwritten. *)
Definition replace_first (c : ascii) (s : string) : string :=
  match s with
  | String _ rest => String c rest
  | EmptyString => EmptyString
  end.

Definition corrupt (c : ascii) (body : EncryptedData) : EncryptedData :=
  {| encrypted := replace_first c (encrypted body); salt := salt body;
     iv := iv body |}.

(** A table in which the Gmail item was imported twice. *)
Definition table_with_duplicate : Table :=
  {| rows := [set_id (Some 1) gmail; set_id (Some 2) bank_note;
              set_id (Some 3) gmail];
     keygen := 4 |}.

(** A snapshot on disk that is no ciphertext made under the master
    password. *)
Definition garbled_snapshot : EncryptedData :=
  {| encrypted := "ff"; salt := "00"; iv := "00" |}.

Definition garbled_storage : Storage :=
  {| FILES_DIR := ∅; METADATA_DIR := ∅;
     VAULT_ITEMS_DIR := {[ Server.vaultItemsPath := garbled_snapshot ]};
     ELSEWHERE := ∅ |}.

(** The client of above, locked. *)
Definition locked_client : Client :=
  vaultDB.clearMasterPassword unlocked_client.

(** The client of above after the Gmail item was added under the master
    password, what it pushes, and a server that serves what was pushed. *)
Definition client_with_gmail : Client :=
  (@vaultDB.addItem Reference.crypto unlocked_client gmail None
     1700000001000 0%nat).1.1.

Definition pushed_items : list WireItem :=
  vaultDB.to_wire <$> (@vaultDB.getAllItems Reference.crypto
                         client_with_gmail).2.

Definition server_with_pushed : Remote :=
  {| probes := [true];
     getVaultItems := Ok pushed_items;
     saveVaultItems := λ _, Ok ();
     pushed := [] |}.

(** A browser in which nothing was stored yet, and the same after the
    master password, or the empty password, was set. *)
Definition fresh_browser : Browser :=
  {| localStorage := ∅; sessionStorage := ∅; vault := locked_client |}.

Definition browser_with_password : Browser :=
  (@AuthService.setMasterPassword Reference.crypto fresh_browser
     masterPassword 0%nat).1.1.

Definition browser_with_empty_password : Browser :=
  (@AuthService.setMasterPassword Reference.crypto fresh_browser ""
     0%nat).1.1.

End Scenario.

(** * Properties *)

(** ** Properties of [split] and [includes] *)

Section StringFacts.

Lemma append_nil_l (s : string) : "" +:+ s = s.
Proof. reflexivity. Qed.

Lemma append_cons (a : ascii) (s t : string) :
  String a s +:+ t = String a (s +:+ t).
Proof. reflexivity. Qed.

Lemma split_nonempty c s : split c s ≠ [].
Proof.
  destruct s as [|a s]; simpl; [done|].
  destruct (Ascii.eqb a c); [done|]. by destruct (split c s).
Qed.

Lemma length_split_pos c s : (1 ≤ length (split c s))%nat.
Proof.
  pose proof (split_nonempty c s). destruct (split c s); simpl; [done|lia].
Qed.

(** A string without separator is a single piece. *)
Lemma split_without c s : includes c s = false → split c s = [s].
Proof.
  induction s as [|a s IH]; simpl; [done|].
  destruct (Ascii.eqb a c); [done|]. intros Hs. by rewrite IH.
Qed.

(** The first piece ends at the first separator. *)
Lemma split_app c s t :
  includes c s = false → split c (s +:+ String c t) = s :: split c t.
Proof.
  induction s as [|a s IH]; intros Hs.
  - rewrite append_nil_l. simpl. by rewrite Ascii.eqb_refl.
  - rewrite append_cons. simpl in *.
    destruct (Ascii.eqb a c); [done|]. by rewrite IH.
Qed.

(** A string with a separator has at least two pieces. *)
Lemma includes_split c s : includes c s = true → (2 ≤ length (split c s))%nat.
Proof.
  induction s as [|a s IH]; simpl; [done|].
  destruct (Ascii.eqb a c).
  - intros _. pose proof (length_split_pos c s). simpl. lia.
  - intros Hs. specialize (IH Hs). destruct (split c s); simpl in *; lia.
Qed.

Lemma includes_truthy c s : includes c s = true → truthy s = true.
Proof. by destruct s. Qed.

Lemma truthy_nonempty s : truthy s = true ↔ s ≠ "".
Proof. by destruct s. Qed.

(** The shape [salt:iv:text] splits into its three parts. *)
Lemma split_envelope salt iv text :
  includes colon salt = false → includes colon iv = false →
  includes colon text = false →
  split colon (salt +:+ ":" +:+ iv +:+ ":" +:+ text) = [salt; iv; text].
Proof.
  intros Hs Hi Ht.
  change (":" +:+ iv +:+ ":" +:+ text)
    with (String colon (iv +:+ String colon text)).
  rewrite split_app by done. rewrite split_app by done.
  by rewrite split_without.
Qed.

End StringFacts.

(** ** The reference implementation meets the laws *)

Section ReferenceLaws.

Lemma hex_pair_digits a :
  Reference.hex_pair (Reference.hex_digit (N_of_ascii a / 16))
                     (Reference.hex_digit (N_of_ascii a mod 16)) = a.
Proof. destruct a as [[] [] [] [] [] [] [] []]; reflexivity. Qed.

Lemma hex_digit_not_colon n : Ascii.eqb (Reference.hex_digit n) colon = false.
Proof.
  destruct n as [|p]; [reflexivity|].
  do 4 (try destruct p as [p|p|]); reflexivity.
Qed.

Lemma reference_hex_parse_stringify w :
  Reference.hex_parse (Reference.hex_stringify w) = w.
Proof.
  induction w as [|a w IH]; [done|].
  simpl. by rewrite hex_pair_digits, IH.
Qed.

Lemma reference_hex_no_colon w :
  includes colon (Reference.hex_stringify w) = false.
Proof.
  induction w as [|a w IH]; [done|].
  simpl. by rewrite !hex_digit_not_colon.
Qed.

Lemma utf8_char_stringify a w :
  Reference.utf8_stringify (Reference.utf8_char a ++ w)
  = String a <$> Reference.utf8_stringify w.
Proof. destruct a as [[] [] [] [] [] [] [] []]; reflexivity. Qed.

Lemma reference_utf8_round_trip s :
  Reference.utf8_stringify (Reference.utf8_parse s) = Some s.
Proof.
  induction s as [|a s IH]; [done|].
  simpl. by rewrite utf8_char_stringify, IH.
Qed.

Lemma xorb_cancel (a b : bool) : xorb a (xorb a b) = b.
Proof. by destruct a, b. Qed.

Lemma xor_ascii_cancel k a :
  Reference.xor_ascii k (Reference.xor_ascii k a) = a.
Proof.
  destruct k as [k0 k1 k2 k3 k4 k5 k6 k7], a as [a0 a1 a2 a3 a4 a5 a6 a7].
  simpl. f_equal; apply xorb_cancel.
Qed.

Lemma mask_cancel k w : Reference.mask k (Reference.mask k w) = w.
Proof.
  unfold Reference.mask. induction w as [|a w IH]; [done|].
  rewrite !fmap_cons. by rewrite xor_ascii_cancel, IH.
Qed.

Lemma reference_hex_has_no_colon : @hex_has_no_colon Reference.crypto.
Proof. intros w. apply reference_hex_no_colon. Qed.

Lemma reference_hex_round_trip : @hex_parse_stringify Reference.crypto.
Proof. intros w. apply reference_hex_parse_stringify. Qed.

Lemma reference_ciphertext_has_no_colon :
  @ciphertext_has_no_colon Reference.crypto.
Proof. intros data key iv e. apply reference_hex_no_colon. Qed.

Lemma reference_passphrase_round_trip :
  @passphrase_round_trip Reference.crypto.
Proof.
  intros data key iv e. simpl.
  by rewrite reference_hex_parse_stringify, mask_cancel,
    reference_utf8_round_trip.
Qed.

Lemma reference_key_round_trip : @key_round_trip Reference.crypto.
Proof.
  intros data key iv. simpl.
  by rewrite reference_hex_parse_stringify, mask_cancel,
    reference_utf8_round_trip.
Qed.

Lemma reference_digest_nonempty : @digest_nonempty Reference.crypto.
Proof. intros s. reflexivity. Qed.

Lemma bits_to_pos_to_bits p :
  Reference.bits_to_pos (Reference.pos_to_bits p) = p.
Proof. induction p as [p IH|p IH|]; simpl; by rewrite ?IH. Qed.

End ReferenceLaws.

Section ReferenceJson.

Lemma json_nested_ind (P : json → Prop) :
  P JNull → (∀ b, P (JBool b)) → (∀ n, P (JNum n)) → (∀ s, P (JStr s)) →
  (∀ xs, Forall P xs → P (JArr xs)) →
  (∀ props, Forall (λ kv, P kv.2) props → P (JObj props)) →
  ∀ x, P x.
Proof.
  intros Hnull Hbool Hnum Hstr Harr Hobj. fix IH 1.
  intros [| b | n | s | xs | props].
  - exact Hnull.
  - apply Hbool.
  - apply Hnum.
  - apply Hstr.
  - apply Harr. induction xs as [|x xs IHxs]; constructor; [apply IH|].
    exact IHxs.
  - apply Hobj.
    induction props as [|[k v] props IHprops]; constructor; [apply IH|].
    exact IHprops.
Qed.

Lemma of_tree_to_tree x : Reference.of_tree (Reference.to_tree x) = Some x.
Proof.
  induction x as [| b | n | s | xs IH | props IH] using json_nested_ind;
    try reflexivity.
  - cbn [Reference.to_tree Reference.of_tree].
    erewrite mapM_fmap_Forall_Some; done.
  - cbn [Reference.to_tree Reference.of_tree].
    erewrite mapM_fmap_Forall_Some; [done|].
    eapply Forall_impl; [exact IH|].
    intros [k v] Hv. simpl in *. by rewrite Hv.
Qed.

Lemma reference_json_round_trip : @json_round_trip Reference.node.
Proof.
  intros x. simpl. unfold Reference.json_parse, Reference.json_stringify.
  by rewrite bits_to_pos_to_bits, decode_encode; simpl;
    rewrite of_tree_to_tree.
Qed.

Lemma reference_base64_round_trip : @base64_round_trip Reference.node.
Proof. intros bytes. apply reference_hex_parse_stringify. Qed.

End ReferenceJson.

(** ** [VaultCrypto]: envelopes *)

Section EnvelopeFacts.
Context {crypto_js : CryptoJS}.

(** [decrypt] in one equation: the parts, what the library recovers from
    them, and the single error of the [catch]. *)
Lemma decrypt_unfold e W :
  VaultCrypto.decrypt e W =
  match split colon e with
  | [salt; iv; text] =>
      match VaultCrypto.recovered salt iv text W with
      | Some s => if truthy s then Ok s else Throw VaultCrypto.decrypt_error
      | None => Throw VaultCrypto.decrypt_error
      end
  | _ => Throw VaultCrypto.decrypt_error
  end.
Proof.
  unfold VaultCrypto.decrypt, VaultCrypto.decrypt_body,
    VaultCrypto.recovered.
  destruct (split colon e) as [|salt [|iv [|text [|x l]]]]; try reflexivity.
  simpl. destruct (Utf8_stringify _) as [s|]; [|reflexivity].
  by destruct (truthy s).
Qed.

Lemma encrypt_unfold data W e :
  (VaultCrypto.encrypt data W e).1 =
  let '(salt, iv, text) := VaultCrypto.envelope_parts data W e in
  salt +:+ ":" +:+ iv +:+ ":" +:+ text.
Proof.
  unfold VaultCrypto.encrypt, VaultCrypto.envelope_parts.
  destruct (VaultCrypto.generateSalt e) as [salt e1]. simpl.
  destruct (VaultCrypto.generateIV e1) as [iv e2]. simpl.
  by destruct (AES_encrypt_passphrase _ _ _ e2) as [text e3].
Qed.

Lemma generateSalt_no_colon e :
  hex_has_no_colon → includes colon (VaultCrypto.generateSalt e).1 = false.
Proof.
  intros Hhex. unfold VaultCrypto.generateSalt.
  destruct (WordArray_random _ e) as [w e']. apply Hhex.
Qed.

Lemma generateIV_no_colon e :
  hex_has_no_colon → includes colon (VaultCrypto.generateIV e).1 = false.
Proof.
  intros Hhex. unfold VaultCrypto.generateIV.
  destruct (WordArray_random _ e) as [w e']. apply Hhex.
Qed.

(** An envelope made by [encrypt] splits into the three parts joined. *)
Lemma split_encrypt data W e :
  hex_has_no_colon → ciphertext_has_no_colon →
  split colon (VaultCrypto.encrypt data W e).1 =
  let '(salt, iv, text) := VaultCrypto.envelope_parts data W e in
  [salt; iv; text].
Proof.
  intros Hhex Hct. rewrite encrypt_unfold.
  unfold VaultCrypto.envelope_parts.
  apply split_envelope; auto using generateSalt_no_colon,
    generateIV_no_colon.
Qed.

Lemma includes_append_r c s t :
  includes c t = true → includes c (s +:+ t) = true.
Proof.
  intros Ht. induction s as [|a s IH]; [done|].
  rewrite append_cons. simpl. by destruct (Ascii.eqb a c).
Qed.

Lemma encrypt_includes_colon data W e :
  includes colon (VaultCrypto.encrypt data W e).1 = true.
Proof.
  rewrite encrypt_unfold.
  destruct (VaultCrypto.envelope_parts data W e) as [[salt iv] text].
  by apply includes_append_r.
Qed.

(** Decrypting a fresh envelope under the password that made it. *)
Lemma decrypt_encrypt data W e :
  hex_has_no_colon → ciphertext_has_no_colon → passphrase_round_trip →
  VaultCrypto.decrypt (VaultCrypto.encrypt data W e).1 W =
  if truthy data then Ok data else Throw VaultCrypto.decrypt_error.
Proof.
  intros Hhex Hct Hrt. rewrite decrypt_unfold, split_encrypt by done.
  unfold VaultCrypto.envelope_parts, VaultCrypto.recovered.
  by rewrite Hrt.
Qed.

(** The case of a non-empty text, as the proofs about records use it. *)
Lemma decrypt_encrypt_nonempty (P W : string) (e : Entropy) :
  hex_has_no_colon → ciphertext_has_no_colon → passphrase_round_trip →
  P ≠ "" →
  VaultCrypto.decrypt (VaultCrypto.encrypt P W e).1 W = Ok P.
Proof.
  intros Hhex Hct Hrt HP%truthy_nonempty. rewrite decrypt_encrypt by done.
  by rewrite HP.
Qed.

(** C1, as amended: for every non-empty plaintext P and password W,
    decrypting the envelope that encrypt(P, W) produces, with the same
    password, returns exactly P. *)
Theorem decrypt_encrypt_round_trip (P W : string) (e : Entropy) :
  hex_has_no_colon → ciphertext_has_no_colon → passphrase_round_trip →
  P ≠ "" →
  VaultCrypto.decrypt (VaultCrypto.encrypt P W e).1 W = Ok P.
Proof.
  intros Hhex Hct Hrt HP. rewrite decrypt_encrypt by done.
  apply truthy_nonempty in HP. by rewrite HP.
Qed.

(** The empty plaintext does not come back: the result of decryption is
    tested for truthiness, and the empty string is rejected like a failed
    decryption. *)
Lemma decrypt_encrypt_empty (W : string) (e : Entropy) :
  hex_has_no_colon → ciphertext_has_no_colon → passphrase_round_trip →
  VaultCrypto.decrypt (VaultCrypto.encrypt "" W e).1 W
  = Throw VaultCrypto.decrypt_error.
Proof. intros Hhex Hct Hrt. by rewrite decrypt_encrypt. Qed.

End EnvelopeFacts.

(** The round trip at a concrete password and plaintext. *)
Lemma decrypt_encrypt_round_trip_witness :
  @VaultCrypto.decrypt Reference.crypto
    (@VaultCrypto.encrypt Reference.crypto "p@ss" "Tr0ub4dor&3" 0%nat).1
    "Tr0ub4dor&3" = Ok "p@ss".
Proof.
  apply (@decrypt_encrypt_round_trip Reference.crypto "p@ss" "Tr0ub4dor&3"
           0%nat reference_hex_has_no_colon reference_ciphertext_has_no_colon
           reference_passphrase_round_trip).
  discriminate.
Defined.

(** C1 as stated fails at the empty plaintext: encrypting it and decrypting
    the envelope under the same password raises the decryption error. *)
Lemma round_trip_fails_on_empty_plaintext :
  @VaultCrypto.decrypt Reference.crypto
    (@VaultCrypto.encrypt Reference.crypto "" "Tr0ub4dor&3" 0%nat).1
    "Tr0ub4dor&3" = Throw VaultCrypto.decrypt_error.
Proof.
  exact (@decrypt_encrypt_empty Reference.crypto "Tr0ub4dor&3" 0%nat
           reference_hex_has_no_colon reference_ciphertext_has_no_colon
           reference_passphrase_round_trip).
Qed.

Section DecryptFailures.
Context {crypto_js : CryptoJS}.

Lemma decrypt_error_is_one e W m :
  VaultCrypto.decrypt e W = Throw m → m = VaultCrypto.decrypt_error.
Proof.
  unfold VaultCrypto.decrypt, try_catch.
  destruct (VaultCrypto.decrypt_body e W); congruence.
Qed.

Lemma decrypt_Ok_iff e W s :
  VaultCrypto.decrypt e W = Ok s ↔
  ∃ salt iv text, split colon e = [salt; iv; text] ∧ s ≠ ""
    ∧ VaultCrypto.recovered salt iv text W = Some s.
Proof.
  rewrite decrypt_unfold. split.
  - destruct (split colon e) as [|salt [|iv [|text [|x l]]]]; try done.
    destruct (VaultCrypto.recovered salt iv text W) as [s'|] eqn:Hrec;
      [|done].
    destruct (truthy s') eqn:Hs'; [|done].
    intros [= ->]. exists salt, iv, text.
    by rewrite <- truthy_nonempty.
  - intros (salt & iv & text & -> & Hs & ->).
    apply truthy_nonempty in Hs. by rewrite Hs.
Qed.

Lemma decrypt_Throw_iff e W :
  VaultCrypto.decrypt e W = Throw VaultCrypto.decrypt_error ↔
  length (split colon e) ≠ 3%nat
  ∨ ∃ salt iv text, split colon e = [salt; iv; text]
      ∧ ∀ s, VaultCrypto.recovered salt iv text W = Some s → s = "".
Proof.
  rewrite decrypt_unfold. split.
  - destruct (split colon e) as [|salt [|iv [|text [|x l]]]];
      try (intros _; left; simpl; lia).
    intros Hd. right. exists salt, iv, text. split; [done|].
    intros s Hs. rewrite Hs in Hd. by destruct s.
  - intros [Hlen|(salt & iv & text & -> & Hrec)].
    + by destruct (split colon e) as [|salt [|iv [|text [|x l]]]].
    + destruct (VaultCrypto.recovered salt iv text W) as [s|]; [|done].
      by rewrite (Hrec s).
Qed.

(** C3, as amended: decrypt(e, W) fails, always with the one decryption
    error, exactly when e does not split into exactly three colon-separated
    parts or the library recovers no non-empty UTF-8 text from them under
    the key derived from (W, e's salt); otherwise it returns the text
    recovered. For an envelope made by encrypt(P, W1) and any password W2
    the outcome is therefore decided by what the key derived from W2
    recovers: the call fails when that is no text or the empty text, and
    returns it when it is a non-empty text. *)
Theorem decrypt_fails_exactly_when (e W P W1 W2 : string) (r : Entropy) :
  hex_has_no_colon → ciphertext_has_no_colon →
  (VaultCrypto.decrypt e W = Throw VaultCrypto.decrypt_error ↔
     length (split colon e) ≠ 3%nat
     ∨ ∃ salt iv text, split colon e = [salt; iv; text]
         ∧ ∀ s, VaultCrypto.recovered salt iv text W = Some s → s = "")
  ∧ (∀ s, VaultCrypto.decrypt e W = Ok s ↔
       ∃ salt iv text, split colon e = [salt; iv; text] ∧ s ≠ ""
         ∧ VaultCrypto.recovered salt iv text W = Some s)
  ∧ (∀ m, VaultCrypto.decrypt e W = Throw m → m = VaultCrypto.decrypt_error)
  ∧ (let '(salt, iv, text) := VaultCrypto.envelope_parts P W1 r in
     VaultCrypto.decrypt (VaultCrypto.encrypt P W1 r).1 W2 =
     match VaultCrypto.recovered salt iv text W2 with
     | Some s => if truthy s then Ok s else Throw VaultCrypto.decrypt_error
     | None => Throw VaultCrypto.decrypt_error
     end).
Proof.
  intros Hhex Hct. split; [apply decrypt_Throw_iff|].
  split; [intros s; apply decrypt_Ok_iff|].
  split; [intros m; apply decrypt_error_is_one|].
  rewrite decrypt_unfold, split_encrypt by done.
  by destruct (VaultCrypto.envelope_parts P W1 r) as [[salt iv] text].
Qed.

(** C7, as amended: for every input string that is not a three-part
    colon-delimited envelope, decrypt fails; the format error raised inside
    is caught and replaced, so the caller receives the same error as for
    any other failed decryption, and that is the only error decrypt
    raises. *)
Theorem malformed_envelope_fails (e W : string) :
  length (split colon e) ≠ 3%nat →
  VaultCrypto.decrypt_body e W = Throw VaultCrypto.format_error
  ∧ VaultCrypto.decrypt e W = Throw VaultCrypto.decrypt_error
  ∧ ∀ e' W' m,
      VaultCrypto.decrypt e' W' = Throw m → m = VaultCrypto.decrypt_error.
Proof.
  intros Hlen. split; [|split].
  - unfold VaultCrypto.decrypt_body.
    destruct (length (split colon e) =? 3)%nat eqn:Heq; [|done].
    by apply Nat.eqb_eq in Heq.
  - apply decrypt_Throw_iff. by left.
  - intros e' W' m. apply decrypt_error_is_one.
Qed.

End DecryptFailures.

(** The characterisation at a concrete envelope and two passwords. *)
Lemma decrypt_fails_exactly_when_witness :
  ∃ text,
    @VaultCrypto.decrypt Reference.crypto
      (@VaultCrypto.encrypt Reference.crypto "p@ss" "Tr0ub4dor&3" 0%nat).1
      "hunter2" = Ok text.
Proof.
  pose proof (@decrypt_fails_exactly_when Reference.crypto
                "me@x.com" "Tr0ub4dor&3" "p@ss" "Tr0ub4dor&3" "hunter2" 0%nat
                reference_hex_has_no_colon reference_ciphertext_has_no_colon)
    as (_ & _ & _ & Hwrong).
  eexists. rewrite Hwrong. vm_compute. reflexivity.
Defined.

(** C3 as stated fails: an envelope made under one password and decrypted
    under another returns a non-empty string that is not the plaintext.
    Nothing in the envelope authenticates the ciphertext, so whenever the
    bytes recovered under the wrong key are UTF-8, they are returned. *)
Lemma wrong_password_returns_garbage :
  @VaultCrypto.decrypt Reference.crypto
    (@VaultCrypto.encrypt Reference.crypto "p@ss" "Tr0ub4dor&3" 0%nat).1
    "hunter2" = Ok "~N}}".
Proof. vm_compute. reflexivity. Qed.

(** The error of a malformed input, at a concrete one. *)
Lemma malformed_envelope_fails_witness :
  @VaultCrypto.decrypt Reference.crypto "me@x.com" "Tr0ub4dor&3"
  = Throw VaultCrypto.decrypt_error.
Proof.
  apply (@malformed_envelope_fails Reference.crypto "me@x.com" "Tr0ub4dor&3").
  vm_compute. lia.
Defined.

(** C7 as stated fails: a string that is no envelope and a well-formed
    envelope decrypted under a wrong password give the caller the very same
    error. *)
Lemma format_error_is_not_distinguished :
  let envelope :=
    (@VaultCrypto.encrypt Reference.crypto (String (ascii_of_nat 233) "")
       "Tr0ub4dor&3" 0%nat).1 in
  length (split colon "me@x.com") ≠ 3%nat
  ∧ length (split colon envelope) = 3%nat
  ∧ @VaultCrypto.decrypt Reference.crypto "me@x.com" "Tr0ub4dor&3"
    = @VaultCrypto.decrypt Reference.crypto envelope "hunter2"
  ∧ @VaultCrypto.decrypt Reference.crypto envelope "hunter2"
    = Throw VaultCrypto.decrypt_error.
Proof. vm_compute. repeat split; (lia || reflexivity). Qed.

(** ** [VaultCrypto]: records *)

Section RecordFacts.
Context {crypto_js : CryptoJS}.

Lemma get_set_field g f v i :
  get_field g (set_field f v i) = if decide (g = f) then Some v
                                  else get_field g i.
Proof. by destruct g, f. Qed.

Lemma clear_part_set_field f v i : clear_part (set_field f v i) = clear_part i.
Proof. by destruct f. Qed.

Lemma sensitiveFields_NoDup : NoDup VaultCrypto.sensitiveFields.
Proof. apply (bool_decide_unpack _). by vm_compute. Qed.

Lemma sensitiveFields_all f : f ∈ VaultCrypto.sensitiveFields.
Proof. destruct f; apply (bool_decide_unpack _); by vm_compute. Qed.

Lemma get_decrypt_field W i f g :
  get_field g (VaultCrypto.decrypt_field W i f) =
  if decide (g = f) then VaultCrypto.decrypt_or_keep W (get_field f i)
  else get_field g i.
Proof.
  unfold VaultCrypto.decrypt_field, VaultCrypto.decrypt_or_keep.
  destruct (get_field f i) as [v|] eqn:Hf.
  - destruct (truthy v && includes colon v).
    + destruct (VaultCrypto.decrypt v W) as [p|m].
      * rewrite get_set_field. by case_decide.
      * case_decide; by subst.
    + case_decide; by subst.
  - case_decide; by subst.
Qed.

Lemma clear_part_decrypt_field W i f :
  clear_part (VaultCrypto.decrypt_field W i f) = clear_part i.
Proof.
  unfold VaultCrypto.decrypt_field.
  destruct (get_field f i) as [v|]; [|done].
  destruct (truthy v && includes colon v); [|done].
  destruct (VaultCrypto.decrypt v W); [|done].
  apply clear_part_set_field.
Qed.

Lemma get_fold_decrypt W fs i g :
  NoDup fs →
  get_field g (fold_left (VaultCrypto.decrypt_field W) fs i) =
  if decide (g ∈ fs) then VaultCrypto.decrypt_or_keep W (get_field g i)
  else get_field g i.
Proof.
  intros Hfs. revert i.
  induction Hfs as [|f fs Hf Hfs IH]; intros i.
  - by rewrite decide_False by apply not_elem_of_nil.
  - cbn [fold_left]. rewrite IH, !get_decrypt_field.
    destruct (decide (g = f)) as [->|Hne].
    + rewrite decide_False by done.
      by rewrite decide_True by (apply elem_of_cons; auto).
    + destruct (decide (g ∈ fs)).
      * by rewrite decide_True by (apply elem_of_cons; auto).
      * by rewrite decide_False by (by intros [?|?]%elem_of_cons).
Qed.

Lemma clear_part_fold_decrypt W fs i :
  clear_part (fold_left (VaultCrypto.decrypt_field W) fs i) = clear_part i.
Proof.
  revert i. induction fs as [|f fs IH]; intros i; simpl; [done|].
  by rewrite IH, clear_part_decrypt_field.
Qed.

(** Every sensitive field of the result, in terms of the field stored. *)
Lemma get_decryptVaultItem item W f :
  get_field f (VaultCrypto.decryptVaultItem item W)
  = VaultCrypto.decrypt_or_keep W (get_field f item).
Proof.
  unfold VaultCrypto.decryptVaultItem.
  rewrite get_fold_decrypt by apply sensitiveFields_NoDup.
  by rewrite decide_True by apply sensitiveFields_all.
Qed.

(** A value that decrypts is non-empty and holds the delimiter. *)
Lemma decrypt_Ok_tried raw W p :
  VaultCrypto.decrypt raw W = Ok p →
  truthy raw && includes colon raw = true.
Proof.
  intros (salt & iv & text & Hsplit & _)%decrypt_Ok_iff.
  destruct (includes colon raw) eqn:Hraw.
  - by rewrite (includes_truthy colon).
  - by rewrite split_without in Hsplit.
Qed.

(** C4, as amended: decryptVaultItem tries decryption only on the sensitive
    fields whose stored value is non-empty and contains the delimiter,
    keeps the stored value of a field whose decryption fails and goes on;
    it is a total function, so nothing is raised to the caller. On a record
    in which one sensitive field is corrupted and every other one holds the
    envelope of a non-empty text, the other fields come out decrypted. The
    corrupted field keeps its raw stored value when its decryption fails;
    when the corrupted value still has three parts from which the library
    recovers a non-empty text, the field comes out as that text. The fields
    that are not sensitive are never touched. *)
Theorem decryptVaultItem_partial (item : VaultItem) (W : string)
    (corrupted : Field) (raw : string) (plain : Field → option string)
    (rnd : Field → Entropy) :
  hex_has_no_colon → ciphertext_has_no_colon → passphrase_round_trip →
  get_field corrupted item = Some raw →
  (∀ g, g ≠ corrupted →
     match plain g with
     | Some p =>
         p ≠ ""
         ∧ get_field g item = Some (VaultCrypto.encrypt p W (rnd g)).1
     | None => get_field g item = None
     end) →
  let result := VaultCrypto.decryptVaultItem item W in
  (∀ f, get_field f result
        = VaultCrypto.decrypt_or_keep W (get_field f item))
  ∧ (∀ f v, get_field f item = Some v → includes colon v = false →
       get_field f result = Some v)
  ∧ clear_part result = clear_part item
  ∧ (∀ g, g ≠ corrupted → get_field g result = plain g)
  ∧ (VaultCrypto.decrypt raw W = Throw VaultCrypto.decrypt_error →
     get_field corrupted result = Some raw)
  ∧ (∀ p, VaultCrypto.decrypt raw W = Ok p →
          get_field corrupted result = Some p)
  ∧ (∀ salt iv text p,
       split colon raw = [salt; iv; text] →
       Utf8_stringify
         (AES_decrypt_passphrase text
            (Hex_stringify (PBKDF2 W salt)) (Hex_parse iv)) = Some p →
       p ≠ "" →
       get_field corrupted result = Some p)
  ∧ (get_field corrupted result = Some raw
     ↔ ∀ p, VaultCrypto.decrypt raw W = Ok p → p = raw).
Proof.
  intros Hhex Hct Hrt Hraw Hothers result. subst result.
  assert (∀ p, VaultCrypto.decrypt raw W = Ok p →
               get_field corrupted (VaultCrypto.decryptVaultItem item W)
               = Some p) as Hreplaced.
  { intros p Hp. rewrite get_decryptVaultItem, Hraw. simpl.
    by rewrite (decrypt_Ok_tried raw W p), Hp. }
  assert (VaultCrypto.decrypt raw W = Throw VaultCrypto.decrypt_error →
          get_field corrupted (VaultCrypto.decryptVaultItem item W)
          = Some raw) as Hkept.
  { intros Hfail. rewrite get_decryptVaultItem, Hraw. simpl.
    destruct (truthy raw && includes colon raw); [|done].
    by rewrite Hfail. }
  split; [intros f; apply get_decryptVaultItem|].
  split.
  { intros f v Hv Hnc. rewrite get_decryptVaultItem, Hv. simpl.
    by rewrite Hnc, andb_false_r. }
  split; [apply clear_part_fold_decrypt|].
  split.
  { intros g Hg. specialize (Hothers g Hg).
    rewrite get_decryptVaultItem.
    destruct (plain g) as [p|]; [|by rewrite Hothers].
    destruct Hothers as [Hplain Hstored]. rewrite Hstored. simpl.
    rewrite encrypt_includes_colon, andb_true_r.
    rewrite decrypt_encrypt_nonempty by done.
    by rewrite (includes_truthy colon) by apply encrypt_includes_colon. }
  split; [exact Hkept|]. split; [exact Hreplaced|]. split.
  { intros salt iv text p Hsplit Hrec Hp. apply Hreplaced.
    apply decrypt_Ok_iff. by exists salt, iv, text. }
  split.
  - intros Hresult p Hp. rewrite (Hreplaced p Hp) in Hresult.
    by injection Hresult.
  - intros Hsame. rewrite decrypt_unfold in Hsame, Hkept, Hreplaced.
    destruct (split colon raw) as [|salt [|iv [|text [|x l]]]];
      try by apply Hkept.
    destruct (VaultCrypto.recovered salt iv text W) as [s|];
      [|by apply Hkept].
    destruct (truthy s); [|by apply Hkept].
    rewrite (Hreplaced s eq_refl). f_equal. by apply Hsame.
Qed.

Lemma get_encrypt_field W i e f g :
  get_field g (VaultCrypto.encrypt_field W (i, e) f).1 =
  if decide (g = f) then
    match get_field f i with
    | Some v => if truthy v then Some (VaultCrypto.encrypt v W e).1
                else Some v
    | None => None
    end
  else get_field g i.
Proof.
  unfold VaultCrypto.encrypt_field.
  destruct (get_field f i) as [v|] eqn:Hf.
  - destruct (truthy v).
    + destruct (VaultCrypto.encrypt v W e) as [c e']. simpl.
      rewrite get_set_field. by case_decide.
    + simpl. case_decide; by subst.
  - simpl. case_decide; by subst.
Qed.

Lemma clear_part_encrypt_field W st f :
  clear_part (VaultCrypto.encrypt_field W st f).1 = clear_part st.1.
Proof.
  destruct st as [i e]. unfold VaultCrypto.encrypt_field.
  destruct (get_field f i) as [v|]; [|done].
  destruct (truthy v); [|done].
  destruct (VaultCrypto.encrypt v W e) as [c e']. simpl.
  apply clear_part_set_field.
Qed.

(** What a sensitive field holds after encryption, given what it held. *)
Definition encrypted_as (W : string) (before after : option string) : Prop :=
  match before with
  | Some v =>
      if truthy v then ∃ e, after = Some (VaultCrypto.encrypt v W e).1
      else after = Some v
  | None => after = None
  end.

Lemma get_fold_encrypt W fs st g :
  NoDup fs →
  if decide (g ∈ fs) then
    encrypted_as W (get_field g st.1)
      (get_field g (fold_left (VaultCrypto.encrypt_field W) fs st).1)
  else get_field g (fold_left (VaultCrypto.encrypt_field W) fs st).1
       = get_field g st.1.
Proof.
  intros Hfs. revert st.
  induction Hfs as [|f fs Hf Hfs IH]; intros [i e].
  - by rewrite decide_False by apply not_elem_of_nil.
  - cbn [fold_left]. specialize (IH (VaultCrypto.encrypt_field W (i, e) f)).
    pose proof (get_encrypt_field W i e f g) as Hstep.
    destruct (decide (g = f)) as [->|Hne].
    + rewrite decide_False in IH by done.
      rewrite decide_True by (apply elem_of_cons; auto). rewrite IH, Hstep.
      unfold encrypted_as. simpl. destruct (get_field f i) as [v|]; [|done].
      destruct (truthy v); [by exists e|done].
    + rewrite Hstep in IH. destruct (decide (g ∈ fs)).
      * by rewrite decide_True by (apply elem_of_cons; auto).
      * by rewrite decide_False by (by intros [?|?]%elem_of_cons).
Qed.

Lemma clear_part_fold_encrypt W fs st :
  clear_part (fold_left (VaultCrypto.encrypt_field W) fs st).1
  = clear_part st.1.
Proof.
  revert st. induction fs as [|f fs IH]; intros st; simpl; [done|].
  by rewrite IH, clear_part_encrypt_field.
Qed.

(** C8, as amended: encryptVaultItem returns a copy of the record in which
    every sensitive field (password, username, description, url, linkUrl)
    that holds a non-empty text holds instead an envelope of exactly three
    colon-separated parts, which decrypts to that text under the password;
    a sensitive field that is absent stays absent, and one that is present
    with the empty text keeps the empty text, since the test of the code is
    the truthiness of the value; name, category and the other fields that
    are not sensitive are stored as they were. *)
Theorem encryptVaultItem_envelopes (item : VaultItem) (W : string)
    (e : Entropy) :
  hex_has_no_colon → ciphertext_has_no_colon → passphrase_round_trip →
  let stored := (VaultCrypto.encryptVaultItem item W e).1 in
  (∀ f,
     match get_field f item with
     | Some v =>
         if truthy v then
           ∃ c, get_field f stored = Some c
                ∧ length (split colon c) = 3%nat
                ∧ VaultCrypto.decrypt c W = Ok v
         else get_field f stored = Some v
     | None => get_field f stored = None
     end)
  ∧ name stored = name item
  ∧ category stored = category item
  ∧ clear_part stored = clear_part item.
Proof.
  intros Hhex Hct Hrt stored. subst stored.
  unfold VaultCrypto.encryptVaultItem.
  assert (clear_part (fold_left (VaultCrypto.encrypt_field W)
                        VaultCrypto.sensitiveFields (item, e)).1
          = clear_part item) as Hclear
    by apply (clear_part_fold_encrypt W _ (item, e)).
  split; [|split; [|split]]; [| | |done].
  - intros f.
    pose proof (get_fold_encrypt W VaultCrypto.sensitiveFields (item, e) f
                  sensitiveFields_NoDup) as Hf.
    rewrite decide_True in Hf by apply sensitiveFields_all.
    unfold encrypted_as in Hf. simpl in Hf.
    destruct (get_field f item) as [v|]; [|done].
    destruct (truthy v) eqn:Hv; [|done].
    destruct Hf as [e' He']. eexists. split; [exact He'|]. split.
    + rewrite split_encrypt by done.
      by destruct (VaultCrypto.envelope_parts v W e') as [[? ?] ?].
    + apply decrypt_encrypt_nonempty; try done.
      by apply truthy_nonempty.
  - unfold clear_part in Hclear. congruence.
  - unfold clear_part in Hclear. congruence.
Qed.

End RecordFacts.

(** Partial success on the stored Gmail item whose password envelope is
    damaged: the username is decrypted, the password keeps its raw value. *)
Lemma decryptVaultItem_partial_witness :
  let result :=
    @VaultCrypto.decryptVaultItem Reference.crypto Scenario.gmail_damaged
      Scenario.masterPassword in
  get_field f_password result = Some "00ff:0a0b"
  ∧ ∀ g, g ≠ f_password → get_field g result = Scenario.gmail_plain g.
Proof.
  intros result.
  destruct (@decryptVaultItem_partial Reference.crypto Scenario.gmail_damaged
              Scenario.masterPassword f_password "00ff:0a0b"
              Scenario.gmail_plain (λ _, 48%nat) reference_hex_has_no_colon
              reference_ciphertext_has_no_colon
              reference_passphrase_round_trip)
    as (_ & _ & _ & Hothers & Hraw & _).
  - reflexivity.
  - intros g Hg. destruct g; try done; vm_compute; reflexivity.
  - split; [|assumption]. apply Hraw. vm_compute. reflexivity.
Defined.

(** C4 as stated fails: the envelope of the password of the stored Gmail
    item is corrupted in its last character. It still has three parts, and
    nothing in it authenticates the ciphertext: the library recovers a
    text, and the field comes out as that text, neither the raw stored
    value nor the password. The other fields are decrypted. *)
Lemma corrupted_envelope_still_decrypts :
  let result :=
    @VaultCrypto.decryptVaultItem Reference.crypto Scenario.gmail_garbled
      Scenario.masterPassword in
  password Scenario.gmail_stored
  = Some ("000102030405060708090a0b0c0d0e0f101112131415161718191a1b1c1d1e1f"
          +:+ ":202122232425262728292a2b2c2d2e2f:25152626")
  ∧ password Scenario.gmail_garbled
    = Some ("000102030405060708090a0b0c0d0e0f101112131415161718191a1b1c1d1e1f"
            +:+ ":202122232425262728292a2b2c2d2e2f:25152621")
  ∧ username Scenario.gmail_garbled = username Scenario.gmail_stored
  ∧ clear_part Scenario.gmail_garbled = clear_part Scenario.gmail_stored
  ∧ @VaultCrypto.decrypt Reference.crypto
      ("000102030405060708090a0b0c0d0e0f101112131415161718191a1b1c1d1e1f"
       +:+ ":202122232425262728292a2b2c2d2e2f:25152626")
      Scenario.masterPassword = Ok "p@ss"
  ∧ username result = Some "me@x.com"
  ∧ password result = Some "p@st"
  ∧ password result ≠ password Scenario.gmail_garbled.
Proof. vm_compute. repeat split; discriminate. Qed.

(** Scenario A: the Gmail item under the master password. *)
Lemma encryptVaultItem_envelopes_witness :
  let stored :=
    (@VaultCrypto.encryptVaultItem Reference.crypto Scenario.gmail
       Scenario.masterPassword 0%nat).1 in
  (∃ c, username stored = Some c ∧ length (split colon c) = 3%nat
        ∧ @VaultCrypto.decrypt Reference.crypto c Scenario.masterPassword
          = Ok "me@x.com")
  ∧ (∃ c, password stored = Some c ∧ length (split colon c) = 3%nat
          ∧ @VaultCrypto.decrypt Reference.crypto c Scenario.masterPassword
            = Ok "p@ss")
  ∧ url stored = None
  ∧ name stored = "Gmail"
  ∧ category stored = Passwords.
Proof.
  intros stored.
  destruct (@encryptVaultItem_envelopes Reference.crypto Scenario.gmail
              Scenario.masterPassword 0%nat reference_hex_has_no_colon
              reference_ciphertext_has_no_colon
              reference_passphrase_round_trip)
    as (Hfields & Hname & Hcategory & _).
  split; [exact (Hfields f_username)|].
  split; [exact (Hfields f_password)|].
  split; [exact (Hfields f_url)|].
  split; [exact Hname|exact Hcategory].
Defined.

(** C8 as stated fails on a sensitive field that is present with the empty
    text: the Gmail item with the password [""] is stored with the password
    [""], which is no envelope of three parts. *)
Lemma empty_field_is_not_encrypted :
  let item := set_password (Some "") Scenario.gmail in
  let stored :=
    (@VaultCrypto.encryptVaultItem Reference.crypto item
       Scenario.masterPassword 0%nat).1 in
  password item = Some ""
  ∧ password stored = Some ""
  ∧ length (split colon "") = 1%nat.
Proof. vm_compute. repeat split; reflexivity. Qed.

(** ** The composite key of [removeDuplicateItems] *)

Section KeyFacts.

Abbreviation hyphen := ("-"%char).

Lemma append_assoc (s t u : string) : (s +:+ t) +:+ u = s +:+ (t +:+ u).
Proof. induction s as [|a s IH]; [done|]. by rewrite !append_cons, IH. Qed.

(** A text is cut in one way only at its last hyphen. *)
Lemma last_hyphen x y a b :
  includes hyphen a = false → includes hyphen b = false →
  x +:+ String hyphen a = y +:+ String hyphen b → x = y ∧ a = b.
Proof.
  intros Ha Hb. revert y. induction x as [|c x IH]; intros [|d y] Heq.
  - by injection Heq as ->.
  - injection Heq as <- ->.
    rewrite includes_append_r in Ha by (simpl; done). done.
  - injection Heq as -> <-.
    rewrite includes_append_r in Hb by (simpl; done). done.
  - rewrite !append_cons in Heq. injection Heq as -> Heq.
    destruct (IH _ Heq) as [-> ->]. done.
Qed.

Lemma includes_pretty_N_go x s :
  includes hyphen (pretty_N_go x s) = includes hyphen s.
Proof.
  revert s. induction (N.lt_wf_0 x) as [x _ IH]; intros s.
  destruct (decide (0 < x)%N) as [Hx|Hx].
  - rewrite pretty_N_go_step by done. rewrite IH by by apply N.div_lt.
    simpl. unfold pretty_N_char. by repeat case_match.
  - assert (x = 0%N) as -> by lia. by rewrite pretty_N_go_0.
Qed.

(** The decimal text of an integer: a hyphen when it is negative, then
    digits. *)
Lemma String_of_Z_sign t :
  ∃ digits, includes hyphen digits = false
    ∧ String_of_Z t = (if decide (t < 0) then String hyphen digits
                       else digits).
Proof.
  unfold String_of_Z, pretty, pretty_Z. destruct t as [|p|p].
  - by exists "0".
  - exists (pretty p). split; [|done].
    unfold pretty, pretty_positive, pretty, pretty_N.
    rewrite decide_False by done. by rewrite includes_pretty_N_go.
  - exists (pretty p). split; [|done].
    unfold pretty, pretty_positive, pretty, pretty_N.
    rewrite decide_False by done. by rewrite includes_pretty_N_go.
Qed.

Lemma category_text_hyphen c : includes hyphen (category_text c) = false.
Proof. by destruct c. Qed.

Lemma category_text_inj c d : category_text c = category_text d → c = d.
Proof. by destruct c, d. Qed.

(** Two items have the same key exactly when they have the same name, the
    same category and the same time of creation. *)
Lemma duplicate_key_inj a b :
  vaultDB.duplicate_key a = vaultDB.duplicate_key b
  ↔ name a = name b ∧ category a = category b ∧ createdAt a = createdAt b.
Proof.
  split; [|unfold vaultDB.duplicate_key; by intros (-> & -> & ->)].
  unfold vaultDB.duplicate_key. intros Hkey.
  assert (∀ n c t, n +:+ "-" +:+ category_text c +:+ "-" +:+ t
                   = (n +:+ String hyphen (category_text c))
                     +:+ String hyphen t) as Hshape.
  { intros n c t. by rewrite append_assoc. }
  rewrite !Hshape in Hkey.
  assert (∀ x y : VaultItem,
            name x +:+ String hyphen (category_text (category x))
            = name y +:+ String hyphen (category_text (category y))
            → name x = name y ∧ category x = category y) as Hhead.
  { intros x y [Hn Hc]%last_hyphen; try apply category_text_hyphen.
    split; [done|]. by apply category_text_inj. }
  destruct (String_of_Z_sign (createdAt a)) as (da & Hda & Ha).
  destruct (String_of_Z_sign (createdAt b)) as (db & Hdb & Hb).
  assert (String_of_Z (createdAt a) = String_of_Z (createdAt b)
          → createdAt a = createdAt b) as Htime
    by (unfold String_of_Z; apply (inj pretty)).
  destruct (decide (createdAt a < 0)) as [Hna|Hna],
           (decide (createdAt b < 0)) as [Hnb|Hnb].
  - rewrite Ha, Hb in Hkey.
    assert (∀ s d, s +:+ String hyphen (String hyphen d)
                   = (s +:+ String hyphen "") +:+ String hyphen d) as Htwo.
    { intros s d. by rewrite append_assoc. }
    rewrite !Htwo in Hkey.
    apply last_hyphen in Hkey as [Hkey ->]; [|done..].
    apply last_hyphen in Hkey as [Hkey _]; [|done..].
    destruct (Hhead _ _ Hkey) as [-> ->].
    split; [done|]. split; [done|]. apply Htime.
    by rewrite Ha, Hb.
  - exfalso. rewrite Ha, Hb in Hkey.
    assert (∀ s d, s +:+ String hyphen (String hyphen d)
                   = (s +:+ String hyphen "") +:+ String hyphen d) as Htwo.
    { intros s d. by rewrite append_assoc. }
    rewrite Htwo in Hkey.
    apply last_hyphen in Hkey as [Hkey _]; [|done..].
    apply eq_sym, last_hyphen in Hkey as [_ Hcat];
      [|apply category_text_hyphen|done].
    by destruct (category b).
  - exfalso. rewrite Ha, Hb in Hkey.
    assert (∀ s d, s +:+ String hyphen (String hyphen d)
                   = (s +:+ String hyphen "") +:+ String hyphen d) as Htwo.
    { intros s d. by rewrite append_assoc. }
    rewrite Htwo in Hkey.
    apply last_hyphen in Hkey as [Hkey _]; [|done..].
    apply last_hyphen in Hkey as [_ Hcat];
      [|apply category_text_hyphen|done].
    by destruct (category a).
  - rewrite Ha, Hb in Hkey.
    apply last_hyphen in Hkey as [Hkey ->]; [|done..].
    destruct (Hhead _ _ Hkey) as [-> ->].
    split; [done|]. split; [done|]. apply Htime.
    by rewrite Ha, Hb.
Qed.

End KeyFacts.

(** ** [vaultDB]: duplicates *)

Section DuplicateFacts.

Lemma filter_ext_elem {A} (P Q : A → Prop) `{∀ x, Decision (P x)}
    `{∀ x, Decision (Q x)} (l : list A) :
  (∀ x, x ∈ l → P x ↔ Q x) → filter P l = filter Q l.
Proof.
  induction l as [|x l IH]; intros HPQ; [done|].
  rewrite !filter_cons.
  rewrite IH by (intros y Hy; apply HPQ, elem_of_cons; by right).
  assert (P x ↔ Q x) as Hx by (apply HPQ, elem_of_cons; by left).
  destruct (decide (P x)), (decide (Q x)); tauto.
Qed.

Lemma scan_reported items seen acc :
  (fold_left vaultDB.scan items (seen, acc)).2
  = acc ++ vaultDB.reported seen items.
Proof.
  revert seen acc. induction items as [|x l IH]; intros seen acc; simpl.
  - by rewrite app_nil_r.
  - destruct (decide (vaultDB.duplicate_key x ∈ seen)).
    + rewrite IH. by rewrite <- app_assoc.
    + by rewrite IH.
Qed.

Lemma reported_ids seen items k :
  k ∈ vaultDB.reported seen items → k ∈ id <$> items.
Proof.
  revert seen. induction items as [|x l IH]; intros seen; simpl.
  - by intros ?%elem_of_nil.
  - destruct (decide (vaultDB.duplicate_key x ∈ seen)).
    + intros [->|Hk]%elem_of_cons; apply elem_of_cons; eauto.
    + intros Hk. apply elem_of_cons; eauto.
Qed.

(** Deleting the reported keys leaves the items that were not reported,
    because no two rows share a primary key. *)
Lemma delete_reported seen items :
  NoDup (id <$> items) →
  filter (λ r, id r ∉ vaultDB.reported seen items) items
  = vaultDB.unreported seen items.
Proof.
  revert seen. induction items as [|x l IH]; intros seen Hnd; [done|].
  rewrite fmap_cons in Hnd. apply NoDup_cons in Hnd as [Hx Hnd]. simpl.
  destruct (decide (vaultDB.duplicate_key x ∈ seen)).
  - rewrite filter_cons_False
      by (intros Hn; apply Hn, elem_of_cons; by left).
    rewrite <- IH by done. apply filter_ext_elem.
    intros r Hr. rewrite not_elem_of_cons.
    split; [tauto|]. intros Hn. split; [|done].
    intros Heq. apply Hx. rewrite <- Heq. by apply list_elem_of_fmap_2.
  - rewrite filter_cons_True
      by (intros Hin; by apply Hx, (reported_ids _ _ _ Hin)).
    by rewrite IH.
Qed.

Lemma unreported_keep_first seen items :
  vaultDB.unreported seen items
  = filter (λ x, vaultDB.duplicate_key x ∉ seen) (vaultDB.keep_first items).
Proof.
  revert seen. induction items as [|x l IH]; intros seen; [done|]. simpl.
  destruct (decide (vaultDB.duplicate_key x ∈ seen)) as [Hin|Hout].
  - rewrite filter_cons_False by tauto.
    rewrite IH, list_filter_filter. apply list_filter_iff.
    intros y. split; [|tauto]. intros Hy. split; [done|].
    intros Heq. apply Hy. by rewrite Heq.
  - rewrite filter_cons_True by done. f_equal.
    rewrite IH, list_filter_filter. apply list_filter_iff.
    intros y. rewrite not_elem_of_union, not_elem_of_singleton. tauto.
Qed.

Lemma unreported_empty items :
  vaultDB.unreported ∅ items = vaultDB.keep_first items.
Proof.
  rewrite unreported_keep_first.
  induction (vaultDB.keep_first items) as [|x l IH]; [done|].
  rewrite filter_cons_True by set_solver. by rewrite IH.
Qed.

Lemma reported_unreported seen items :
  vaultDB.reported seen (vaultDB.unreported seen items) = [].
Proof.
  revert seen. induction items as [|x l IH]; intros seen; [done|]. simpl.
  destruct (decide (vaultDB.duplicate_key x ∈ seen)) as [Hin|Hout];
    [apply IH|].
  simpl. rewrite decide_False by done. apply IH.
Qed.

Lemma reported_keep_first items :
  vaultDB.reported ∅ (vaultDB.keep_first items) = [].
Proof. rewrite <- unreported_empty. apply reported_unreported. Qed.

Lemma keep_first_keys items k :
  k ∈ vaultDB.duplicate_key <$> vaultDB.keep_first items
  ↔ k ∈ vaultDB.duplicate_key <$> items.
Proof.
  induction items as [|x l IH]; [done|]. cbn [vaultDB.keep_first].
  rewrite !fmap_cons, !elem_of_cons, <- IH.
  rewrite !list_elem_of_fmap. split.
  - intros [->|(y & -> & Hy)]; [by left|].
    apply list_elem_of_filter in Hy as [_ Hy]. right. eauto.
  - intros [->|(y & -> & Hy)]; [by left|].
    destruct (decide (vaultDB.duplicate_key y = vaultDB.duplicate_key x))
      as [Heq|Hne]; [by left|].
    right. exists y. split; [done|]. by apply list_elem_of_filter.
Qed.

Lemma keep_first_NoDup items :
  NoDup (vaultDB.duplicate_key <$> vaultDB.keep_first items).
Proof.
  induction items as [|x l IH]; [constructor|]. cbn [vaultDB.keep_first].
  rewrite fmap_cons. apply NoDup_cons. split.
  - intros (y & Heq & Hy)%list_elem_of_fmap.
    apply list_elem_of_filter in Hy as [Hy _]. by apply Hy.
  - eapply sublist_NoDup; [exact IH|]. apply fmap_sublist, sublist_filter.
Qed.

(** The number of items kept is the number of distinct keys. *)
Lemma length_keep_first items :
  length (vaultDB.keep_first items)
  = size (list_to_set (vaultDB.duplicate_key <$> items) : gset string).
Proof.
  rewrite <- (length_fmap vaultDB.duplicate_key).
  rewrite <- (size_list_to_set (C := gset string))
    by apply keep_first_NoDup.
  f_equal. apply set_eq. intros k.
  rewrite !elem_of_list_to_set. apply keep_first_keys.
Qed.

Lemma keep_first_distinct items :
  NoDup (vaultDB.duplicate_key <$> items) → vaultDB.keep_first items = items.
Proof.
  induction items as [|x l IH]; [done|].
  rewrite fmap_cons. intros [Hx Hl]%NoDup_cons. cbn [vaultDB.keep_first].
  rewrite IH by done. f_equal. clear IH.
  induction l as [|y l IHl]; [done|].
  rewrite fmap_cons in Hx, Hl. apply not_elem_of_cons in Hx as [Hxy Hx].
  apply NoDup_cons in Hl as [_ Hl].
  rewrite filter_cons_True by done. f_equal. by apply IHl.
Qed.

Lemma length_reported seen items :
  (length (vaultDB.reported seen items)
   + length (vaultDB.unreported seen items) = length items)%nat.
Proof.
  revert seen. induction items as [|x l IH]; intros seen; [done|]. simpl.
  destruct (decide (vaultDB.duplicate_key x ∈ seen)); simpl.
  - by rewrite IH.
  - rewrite <- (IH ({[vaultDB.duplicate_key x]} ∪ seen)). lia.
Qed.

(** One pass of [removeDuplicateItems] on a table whose rows have distinct
    primary keys. *)
Lemma removeDuplicateItems_once t :
  NoDup (id <$> rows t) →
  vaultDB.removeDuplicateItems t =
  ({| rows := vaultDB.keep_first (rows t); keygen := keygen t |},
   {| removed := (length (rows t)
                  - length (vaultDB.keep_first (rows t)))%nat;
      remaining := length (vaultDB.keep_first (rows t)) |}).
Proof.
  intros Hnd. unfold vaultDB.removeDuplicateItems, toArray.
  pose proof (scan_reported (rows t) ∅ []) as Hscan.
  destruct (fold_left vaultDB.scan (rows t) (∅, [])) as [seen duplicates].
  simpl in Hscan. subst duplicates.
  pose proof (delete_reported ∅ (rows t) Hnd) as Hdel.
  pose proof (length_reported ∅ (rows t)) as Hlen.
  rewrite unreported_empty in Hdel, Hlen.
  assert (length (vaultDB.reported ∅ (rows t))
          = (length (rows t) - length (vaultDB.keep_first (rows t)))%nat)
    as Hremoved by lia.
  destruct (0 <? length (vaultDB.reported ∅ (rows t)))%nat eqn:Hpos.
  - unfold bulkDelete, count. simpl. by rewrite Hdel, Hremoved.
  - apply Nat.ltb_ge in Hpos.
    assert (vaultDB.reported ∅ (rows t) = []) as Hnil
      by (destruct (vaultDB.reported ∅ (rows t)); [done|simpl in Hpos; lia]).
    rewrite Hnil in Hdel.
    assert (vaultDB.keep_first (rows t) = rows t) as Hsame.
    { rewrite <- Hdel. clear. induction (rows t) as [|x l IH]; [done|].
      rewrite filter_cons_True by apply not_elem_of_nil. by rewrite IH. }
    rewrite Hremoved, Hsame. unfold count. by destruct t.
Qed.

Lemma keep_first_idempotent items :
  vaultDB.keep_first (vaultDB.keep_first items) = vaultDB.keep_first items.
Proof. apply keep_first_distinct, keep_first_NoDup. Qed.

Lemma keep_first_sublist items : vaultDB.keep_first items `sublist_of` items.
Proof.
  induction items as [|x l IH]; [done|]. simpl.
  constructor. etrans; [apply sublist_filter|]. exact IH.
Qed.

Lemma keep_first_ids items :
  NoDup (id <$> items) → NoDup (id <$> vaultDB.keep_first items).
Proof.
  intros Hnd. eapply sublist_NoDup; [exact Hnd|].
  apply fmap_sublist, keep_first_sublist.
Qed.

Lemma NoDup_fmap_coarser {A B C} (f : A → B) (g : A → C) (l : list A) :
  (∀ x y, f x = f y → g x = g y) → NoDup (g <$> l) → NoDup (f <$> l).
Proof.
  intros Hfg. induction l as [|x l IH]; [constructor|].
  rewrite !fmap_cons, !NoDup_cons. intros [Hx Hl]. split; [|by apply IH].
  intros (y & Hy & Hin)%list_elem_of_fmap. apply Hx.
  apply list_elem_of_fmap. exists y. split; [by apply Hfg|done].
Qed.

(** C9: on every local collection one pass of removeDuplicateItems keeps,
    for each composite key built from name, category and createdAt
    timestamp, the first item that has it and removes the others, and it
    reports their number: afterwards no two items agree on name, category
    and createdAt, and every item of the collection has an item left that
    agrees with it on the three. A second pass on the result removes
    nothing and leaves the collection as it is. *)
Theorem removeDuplicateItems_idempotent (t : Table) :
  well_formed t →
  let once := vaultDB.removeDuplicateItems t in
  rows once.1 = vaultDB.keep_first (rows t)
  ∧ NoDup (vaultDB.duplicate_key <$> rows once.1)
  ∧ (∀ k, k ∈ vaultDB.duplicate_key <$> rows t
          → k ∈ vaultDB.duplicate_key <$> rows once.1)
  ∧ NoDup ((λ r, (name r, category r, createdAt r)) <$> rows once.1)
  ∧ (∀ r, r ∈ rows t →
          ∃ r', r' ∈ rows once.1 ∧ name r' = name r
                ∧ category r' = category r ∧ createdAt r' = createdAt r)
  ∧ removed once.2 = (length (rows t) - length (rows once.1))%nat
  ∧ remaining once.2 = length (rows once.1)
  ∧ well_formed once.1
  ∧ vaultDB.removeDuplicateItems once.1
    = (once.1, {| removed := 0; remaining := length (rows once.1) |}).
Proof.
  intros [Hnd Hkeys] once. subst once.
  rewrite removeDuplicateItems_once by done. simpl.
  split; [done|]. split; [apply keep_first_NoDup|].
  split; [intros k; apply keep_first_keys|].
  split.
  { eapply NoDup_fmap_coarser; [|apply keep_first_NoDup].
    intros x y Heq. apply duplicate_key_inj. by simplify_eq. }
  split.
  { intros r Hr.
    assert (vaultDB.duplicate_key r
            ∈ vaultDB.duplicate_key <$> vaultDB.keep_first (rows t)) as Hk.
    { apply keep_first_keys, list_elem_of_fmap. by exists r. }
    apply list_elem_of_fmap in Hk as (r' & Hk & Hr'). exists r'.
    split; [done|]. by apply duplicate_key_inj. }
  split; [done|]. split; [done|]. split.
  - split; simpl; [by apply keep_first_ids|].
    rewrite Forall_forall in Hkeys. apply Forall_forall. intros x Hx.
    apply Hkeys. eapply elem_of_sublist; [exact Hx|].
    apply keep_first_sublist.
  - rewrite removeDuplicateItems_once by (by apply keep_first_ids).
    simpl. rewrite keep_first_idempotent. by rewrite Nat.sub_diag.
Qed.

End DuplicateFacts.

(** One pass on a table that holds the Gmail item twice removes the later
    copy, and a second pass removes nothing. *)
Lemma removeDuplicateItems_idempotent_witness :
  let once := vaultDB.removeDuplicateItems Scenario.table_with_duplicate in
  rows once.1 = [set_id (Some 1) Scenario.gmail;
                 set_id (Some 2) Scenario.bank_note]
  ∧ removed once.2 = 1%nat
  ∧ vaultDB.removeDuplicateItems once.1
    = (once.1, {| removed := 0; remaining := 2 |}).
Proof.
  intros once. subst once.
  destruct (removeDuplicateItems_idempotent Scenario.table_with_duplicate)
    as (Hrows & _ & _ & _ & _ & Hremoved & _ & _ & Hagain).
  - split.
    + apply (bool_decide_unpack _). by vm_compute.
    + repeat constructor; eexists; (split; [reflexivity|done]).
  - split; [|split].
    + rewrite Hrows. vm_compute. reflexivity.
    + rewrite Hremoved, Hrows. reflexivity.
    + rewrite Hagain, Hrows. reflexivity.
Defined.

(** ** [vaultDB]: synchronisation from the server *)

Section SyncFacts.
Context {crypto_js : CryptoJS}.

Lemma duplicate_key_set_id k x :
  vaultDB.duplicate_key (set_id k x) = vaultDB.duplicate_key x.
Proof. reflexivity. Qed.

Lemma keyed_keys k items :
  vaultDB.duplicate_key <$> vaultDB.keyed k items
  = vaultDB.duplicate_key <$> items.
Proof.
  revert k. induction items as [|x l IH]; intros k; [done|].
  simpl. by rewrite IH.
Qed.

Lemma keyed_ids_above k items :
  Forall (λ r, ∃ j, id r = Some j ∧ k ≤ j) (vaultDB.keyed k items).
Proof.
  revert k. induction items as [|x l IH]; intros k; simpl; constructor.
  - exists k. split; [done|lia].
  - eapply Forall_impl; [apply (IH (k + 1))|].
    intros r (j & Hj & Hle). exists j. split; [done|lia].
Qed.

Lemma keyed_ids_NoDup k items : NoDup (id <$> vaultDB.keyed k items).
Proof.
  revert k. induction items as [|x l IH]; intros k; simpl; [constructor|].
  apply NoDup_cons. split; [|apply IH].
  intros (r & Hr & Hin)%list_elem_of_fmap.
  pose proof (keyed_ids_above (k + 1) l) as Habove.
  rewrite Forall_forall in Habove.
  destruct (Habove r Hin) as (j & Hj & Hle). simpl in Hr.
  rewrite Hj in Hr. simplify_eq. lia.
Qed.

Lemma length_keyed k items : length (vaultDB.keyed k items) = length items.
Proof. revert k. induction items as [|x l IH]; intros k; simpl; auto. Qed.

(** The loop that adds the server's items to the cleared table. *)
Lemma add_all items t n :
  fold_left (λ '(t, n) item, ((add (vaultDB.imported item) t).2, S n))
    items (t, n)
  = ({| rows := rows t ++ vaultDB.keyed (keygen t)
                            (vaultDB.imported <$> items);
        keygen := keygen t + Z.of_nat (length items) |},
     (n + length items)%nat).
Proof.
  revert t n. induction items as [|x l IH]; intros t n.
  - simpl. rewrite app_nil_r, Z.add_0_r, Nat.add_0_r. by destruct t.
  - cbn [fold_left]. rewrite IH. unfold add. simpl.
    rewrite <- app_assoc. simpl. f_equal; [f_equal|]; lia.
Qed.

Lemma isAvailable_getVaultItems r :
  getVaultItems (isAvailable r).2 = getVaultItems r.
Proof. unfold isAvailable. by destruct (probes r). Qed.

(** What [getAllItems] returns has as many items as the table has after the
    clean-up. *)
Lemma length_getAllItems c :
  NoDup (id <$> rows (db c)) →
  length (vaultDB.getAllItems c).2
  = length (vaultDB.keep_first (rows (db c))).
Proof.
  intros Hnd. unfold vaultDB.getAllItems.
  rewrite removeDuplicateItems_once by done. simpl.
  assert (length (orderBy_createdAt_reverse
                    {| rows := vaultDB.keep_first (rows (db c));
                       keygen := keygen (db c) |})
          = length (vaultDB.keep_first (rows (db c)))) as Hlen.
  { unfold orderBy_createdAt_reverse. rewrite length_reverse. simpl.
    apply Permutation_length, merge_sort_Permutation. }
  destruct (negb (truthy (_masterPassword c))); [done|].
  by rewrite length_fmap.
Qed.

(** A successful synchronisation from the server, in one equation. *)
Lemma syncVaultItemsFromServer_success c r c' r' res :
  vaultDB.syncVaultItemsFromServer c r = (c', r', res) →
  sync_success res = true →
  ∃ items, getVaultItems r = Ok items
    ∧ sync_synced res = length items
    ∧ db c' = {| rows := vaultDB.keep_first
                           (vaultDB.keyed (keygen (db c))
                              (vaultDB.imported <$> items));
                 keygen := keygen (db c) + Z.of_nat (length items) |}.
Proof.
  unfold vaultDB.syncVaultItemsFromServer, vaultDB.loadVaultItemsFromServer.
  destruct (negb (truthy (_masterPassword c))); simpl.
  { intros [= <- <- <-]. done. }
  pose proof (isAvailable_getVaultItems r) as Hget.
  destruct (isAvailable r) as [available r1]. simpl in Hget.
  destruct (negb available); simpl.
  { intros [= <- <- <-]. done. }
  rewrite Hget. destruct (getVaultItems r) as [items|m]; simpl.
  2: { intros [= <- <- <-]. done. }
  rewrite add_all. simpl.
  rewrite removeDuplicateItems_once by (simpl; apply keyed_ids_NoDup).
  simpl. intros [= <- <- <-] _. by exists items.
Qed.

(** Two items of a snapshot get the same key once imported exactly when
    they agree on name, category and createdAt. *)
Lemma imported_key_inj a b :
  vaultDB.imported_key a = vaultDB.imported_key b
  ↔ name (wire_fields a) = name (wire_fields b)
    ∧ category (wire_fields a) = category (wire_fields b)
    ∧ createdAt (wire_fields a) = createdAt (wire_fields b).
Proof. unfold vaultDB.imported_key. by rewrite duplicate_key_inj. Qed.

(** C2, as amended: whatever the local collection held before, if autoSync
    succeeds with action 'loaded' on a server snapshot of N items then
    getAllItems afterwards returns as many items as the snapshot has
    distinct composite keys (name, category, createdAt timestamp), since
    the clean-up after the import keeps one item per key; that is exactly N
    when no two items of the snapshot share their key. *)
Theorem autoSync_snapshot_count (c : Client) (r : Remote) :
  success (vaultDB.autoSyncVaultItems c r).2 = true →
  action (vaultDB.autoSyncVaultItems c r).2 = loaded →
  ∃ items,
    getVaultItems r = Ok items
    ∧ count_synced (vaultDB.autoSyncVaultItems c r).2 = Some (length items)
    ∧ length (vaultDB.getAllItems (vaultDB.autoSyncVaultItems c r).1.1).2
      = size (list_to_set (vaultDB.imported_key <$> items) : gset string)
    ∧ (NoDup (vaultDB.imported_key <$> items) →
       length (vaultDB.getAllItems (vaultDB.autoSyncVaultItems c r).1.1).2
       = length items)
    ∧ (NoDup ((λ item, (name (wire_fields item), category (wire_fields item),
                        createdAt (wire_fields item))) <$> items) →
       length (vaultDB.getAllItems (vaultDB.autoSyncVaultItems c r).1.1).2
       = length items).
Proof.
  unfold vaultDB.autoSyncVaultItems.
  destruct (negb (truthy (_masterPassword c))); [done|].
  pose proof (isAvailable_getVaultItems r) as Hget.
  destruct (isAvailable r) as [available r1]. simpl in Hget.
  destruct (negb available); [done|].
  destruct (vaultDB.syncVaultItemsFromServer c r1) as [[c2 r2] res] eqn:Hsync.
  simpl. intros Hsuccess _.
  destruct (syncVaultItemsFromServer_success _ _ _ _ _ Hsync Hsuccess)
    as (items & Hitems & Hsynced & Hdb).
  exists items. rewrite <- Hget. split; [done|]. split; [by rewrite Hsynced|].
  assert (length (vaultDB.getAllItems c2).2
          = size (list_to_set (vaultDB.imported_key <$> items)
                  : gset string)) as Hcount.
  { rewrite length_getAllItems
      by (rewrite Hdb; simpl; apply keep_first_ids, keyed_ids_NoDup).
    rewrite Hdb. simpl. rewrite keep_first_idempotent, length_keep_first.
    rewrite keyed_keys. by rewrite <- list_fmap_compose. }
  split; [done|].
  assert (NoDup (vaultDB.imported_key <$> items) →
          length (vaultDB.getAllItems c2).2 = length items) as Hdistinct.
  { intros Hnd. rewrite Hcount.
    rewrite size_list_to_set by done. by rewrite length_fmap. }
  split; [done|]. intros Hnd. apply Hdistinct.
  eapply NoDup_fmap_coarser; [|exact Hnd].
  intros x y Heq. apply imported_key_inj in Heq as (-> & -> & ->). done.
Qed.

End SyncFacts.

(** A snapshot of two items with different keys, loaded into a client that
    held one other item: two items afterwards. *)
Lemma autoSync_snapshot_count_witness :
  length (@vaultDB.getAllItems Reference.crypto
            (vaultDB.autoSyncVaultItems Scenario.unlocked_client
               Scenario.server_with_two).1.1).2 = 2%nat.
Proof.
  destruct (@autoSync_snapshot_count Reference.crypto
              Scenario.unlocked_client Scenario.server_with_two)
    as (items & Hitems & _ & _ & Hdistinct & _).
  - reflexivity.
  - reflexivity.
  - injection Hitems as <-. rewrite Hdistinct; [reflexivity|].
    apply (bool_decide_unpack _). by vm_compute.
Defined.

(** C2 as stated fails: the server's snapshot holds two items, autoSync
    succeeds with action 'loaded' and reports two, and getAllItems returns
    one, because the two items share name, category and createdAt and the
    clean-up after the import removes the second. *)
Lemma snapshot_with_shared_key_loses_an_item :
  let after :=
    vaultDB.autoSyncVaultItems Scenario.unlocked_client
      Scenario.server_with_duplicate in
  length <$> getVaultItems Scenario.server_with_duplicate = Ok 2%nat
  ∧ success after.2 = true
  ∧ action after.2 = loaded
  ∧ count_synced after.2 = Some 2%nat
  ∧ length (@vaultDB.getAllItems Reference.crypto after.1.1).2 = 1%nat.
Proof. vm_compute. repeat split; reflexivity. Qed.

(** ** The file server: storage, backups and verification *)

Section StorageFacts.
Context {crypto_js : CryptoJS} {node_js : NodeJS}.

(** [retryOperation] on an operation that always has the same outcome. *)
Lemma attempts_same {A} (operation : unit → result A) n :
  Server.attempts operation n = operation ().
Proof.
  induction n as [|n IH]; [done|]. simpl.
  destruct (operation ()) eqn:Hop; [done|]. by rewrite IH.
Qed.

Lemma retryOperation_same {A} (operation : unit → result A) :
  Server.retryOperation operation = operation ().
Proof. apply attempts_same. Qed.

Lemma FileEncryption_round_trip data W e :
  key_round_trip → hex_parse_stringify →
  FileEncryption.decrypt (FileEncryption.encrypt data W e).1 W = Ok data.
Proof.
  intros Hrt Hhex. unfold FileEncryption.encrypt, FileEncryption.decrypt.
  destruct (WordArray_random 32 e) as [s e1].
  destruct (WordArray_random 16 e1) as [i e2]. simpl.
  by rewrite !Hhex, Hrt.
Qed.

Lemma prefix_append p s : String.prefix p (p +:+ s) = true.
Proof.
  induction p as [|a p IH]; [by destruct s|].
  rewrite append_cons. simpl. by destruct (ascii_dec a a).
Qed.

Lemma backupPath_is_backup now :
  String.prefix Server.backup_prefix (Server.backupPath now) = true.
Proof. apply prefix_append. Qed.

Lemma backupPath_ne now : Server.backupPath now ≠ Server.vaultItemsPath.
Proof.
  intros Heq. pose proof (backupPath_is_backup now) as Hp.
  rewrite Heq in Hp. discriminate Hp.
Qed.

Lemma lookup_delete_all (names : list string)
    (dir : gmap string EncryptedData) f :
  fold_left (λ d oldBackup, delete oldBackup d) names dir !! f
  = if decide (f ∈ names) then None else dir !! f.
Proof.
  revert dir. induction names as [|x l IH]; intros dir; cbn [fold_left].
  - by rewrite decide_False by apply not_elem_of_nil.
  - rewrite IH. destruct (decide (f ∈ l)) as [Hin|Hout].
    + by rewrite decide_True by (apply elem_of_cons; auto).
    + destruct (decide (f = x)) as [->|Hne].
      * rewrite decide_True by (apply elem_of_cons; auto).
        apply lookup_delete_eq.
      * rewrite decide_False by (by intros [?|?]%elem_of_cons).
        by apply lookup_delete_ne.
Qed.

Lemma elem_of_readdir (dir : gmap string EncryptedData) f :
  f ∈ Server.readdir dir ↔ is_Some (dir !! f).
Proof.
  unfold Server.readdir. rewrite list_elem_of_fmap. split.
  - intros ([k v] & -> & Hkv). apply elem_of_map_to_list in Hkv. by exists v.
  - intros [v Hv]. exists (f, v). split; [done|].
    by apply elem_of_map_to_list.
Qed.

(** The list of the clean-up holds the backups of the directory, each
    once, greatest name first. *)
Lemma elem_of_backupFiles dir f :
  f ∈ Server.backupFiles dir
  ↔ is_Some (dir !! f) ∧ String.prefix Server.backup_prefix f = true.
Proof.
  unfold Server.backupFiles.
  rewrite elem_of_reverse, merge_sort_Permutation, list_elem_of_filter.
  rewrite elem_of_readdir. tauto.
Qed.

Lemma backupFiles_NoDup dir : NoDup (Server.backupFiles dir).
Proof.
  unfold Server.backupFiles.
  rewrite reverse_Permutation, merge_sort_Permutation. apply NoDup_filter.
  apply NoDup_fst_map_to_list.
Qed.

Lemma backupFiles_sorted dir :
  Sorted (flip String.le) (Server.backupFiles dir).
Proof. apply Sorted_reverse, Sorted_merge_sort. apply _. Qed.

Lemma lookup_prune_backups dir f :
  Server.prune_backups dir !! f
  = if decide (f ∈ drop 5 (Server.backupFiles dir)) then None else dir !! f.
Proof. apply lookup_delete_all. Qed.

(** The clean-up touches backups only. *)
Lemma prune_backups_other dir f :
  String.prefix Server.backup_prefix f = false →
  Server.prune_backups dir !! f = dir !! f.
Proof.
  intros Hf. rewrite lookup_prune_backups. rewrite decide_False; [done|].
  intros Hdrop.
  assert (f ∈ Server.backupFiles dir) as Hin.
  { rewrite <- (take_drop 5 (Server.backupFiles dir)).
    apply elem_of_app. by right. }
  apply elem_of_backupFiles in Hin as [_ Hp]. congruence.
Qed.

(** Of the backups, the clean-up keeps the first five of the list. *)
Lemma prune_backups_backup dir f :
  String.prefix Server.backup_prefix f = true →
  Server.prune_backups dir !! f
  = if decide (f ∈ take 5 (Server.backupFiles dir)) then dir !! f else None.
Proof.
  intros Hf. rewrite lookup_prune_backups.
  pose proof (backupFiles_NoDup dir) as Hnd.
  rewrite <- (take_drop 5 (Server.backupFiles dir)) in Hnd.
  apply NoDup_app in Hnd as (_ & Hdisjoint & _).
  destruct (decide (f ∈ take 5 (Server.backupFiles dir))) as [Hin|Hout].
  - by rewrite decide_False by by apply Hdisjoint.
  - destruct (decide (f ∈ drop 5 (Server.backupFiles dir))) as [|Hout'];
      [done|].
    destruct (dir !! f) as [v|] eqn:Hv; [|done]. exfalso.
    assert (f ∈ Server.backupFiles dir) as Hin
      by (apply elem_of_backupFiles; eauto).
    rewrite <- (take_drop 5 (Server.backupFiles dir)) in Hin.
    apply elem_of_app in Hin as [?|?]; done.
Qed.

Lemma length_kept_backups dir :
  (length (take 5 (Server.backupFiles dir)) ≤ 5)%nat.
Proof. rewrite length_take. lia. Qed.

End StorageFacts.

(** ** The names of the backups and the times in them *)

Section BackupOrder.

Lemma compare_digit a b :
  (a < 10)%N → (b < 10)%N →
  Ascii.compare (pretty_N_char a) (pretty_N_char b) = (a ?= b)%N.
Proof.
  intros Ha Hb.
  assert (a = 0 ∨ a = 1 ∨ a = 2 ∨ a = 3 ∨ a = 4 ∨ a = 5 ∨ a = 6 ∨ a = 7
          ∨ a = 8 ∨ a = 9)%N as Hcase_a by lia.
  assert (b = 0 ∨ b = 1 ∨ b = 2 ∨ b = 3 ∨ b = 4 ∨ b = 5 ∨ b = 6 ∨ b = 7
          ∨ b = 8 ∨ b = 9)%N as Hcase_b by lia.
  repeat (destruct Hcase_a as [->|Hcase_a]);
    repeat (destruct Hcase_b as [->|Hcase_b]); subst; reflexivity.
Qed.

Lemma compare_decimal a b :
  (a ?= b)%N
  = match (a `div` 10 ?= b `div` 10)%N with
    | Eq => (a `mod` 10 ?= b `mod` 10)%N
    | c => c
    end.
Proof.
  pose proof (N.div_mod a 10 ltac:(done)) as Ha.
  pose proof (N.div_mod b 10 ltac:(done)) as Hb.
  pose proof (N.mod_lt a 10 ltac:(done)) as Hra.
  pose proof (N.mod_lt b 10 ltac:(done)) as Hrb.
  revert Ha Hb Hra Hrb.
  generalize (a `div` 10)%N (a `mod` 10)%N (b `div` 10)%N (b `mod` 10)%N.
  intros qa ra qb rb -> -> Hra Hrb.
  destruct (N.compare_spec qa qb) as [Hq|Hq|Hq].
  - destruct (N.compare_spec ra rb).
    + apply N.compare_eq_iff. lia.
    + apply N.compare_lt_iff. lia.
    + apply N.compare_gt_iff. lia.
  - apply N.compare_lt_iff. lia.
  - apply N.compare_gt_iff. lia.
Qed.

(** Numerals of the same length compare as their numbers do. *)
Lemma compare_pretty_N_go (k : nat) : ∀ x y s t,
  (x < 10 ^ N.of_nat k)%N → (y < 10 ^ N.of_nat k)%N →
  (10 ^ N.of_nat k ≤ 10 * x)%N ∨ k = 0%nat →
  (10 ^ N.of_nat k ≤ 10 * y)%N ∨ k = 0%nat →
  String.compare (pretty_N_go x s) (pretty_N_go y t)
  = match (x ?= y)%N with Eq => String.compare s t | c => c end.
Proof.
  induction k as [|k IH]; intros x y s t Hx Hy Hx' Hy'.
  - simpl in Hx, Hy. assert (x = 0%N) as -> by lia.
    assert (y = 0%N) as -> by lia. by rewrite !pretty_N_go_0.
  - rewrite Nat2N.inj_succ, N.pow_succ_r' in Hx, Hy, Hx', Hy'.
    assert (0 < 10 ^ N.of_nat k)%N as Hpos
      by (apply N.neq_0_lt_0, N.pow_nonzero; lia).
    assert (0 < x)%N by lia. assert (0 < y)%N by lia.
    rewrite (pretty_N_go_step x), (pretty_N_go_step y) by done.
    rewrite (compare_decimal x y).
    pose proof (N.div_mod x 10 ltac:(done)) as Hdx.
    pose proof (N.div_mod y 10 ltac:(done)) as Hdy.
    pose proof (N.mod_lt x 10 ltac:(done)) as Hrx.
    pose proof (N.mod_lt y 10 ltac:(done)) as Hry.
    revert Hdx Hdy Hrx Hry.
    generalize (x `div` 10)%N (x `mod` 10)%N (y `div` 10)%N (y `mod` 10)%N.
    intros qx rx qy ry Hdx Hdy Hrx Hry.
    rewrite IH.
    + destruct (qx ?= qy)%N; [|done..].
      cbn [String.compare]. rewrite compare_digit by done.
      by destruct (rx ?= ry)%N.
    + lia.
    + lia.
    + destruct k as [|k]; [by right|left].
      rewrite Nat2N.inj_succ, N.pow_succ_r' in *. lia.
    + destruct k as [|k]; [by right|left].
      rewrite Nat2N.inj_succ, N.pow_succ_r' in *. lia.
Qed.

Lemma pretty_N_go_app x s u :
  pretty_N_go x s +:+ u = pretty_N_go x (s +:+ u).
Proof.
  revert s. induction (N.lt_wf_0 x) as [x _ IH]; intros s.
  destruct (decide (0 < x)%N) as [Hx|Hx].
  - rewrite (pretty_N_go_step x s), (pretty_N_go_step x (s +:+ u)) by done.
    by rewrite IH by by apply N.div_lt.
  - assert (x = 0%N) as -> by lia. by rewrite !pretty_N_go_0.
Qed.

Lemma compare_prefix p s t :
  String.compare (p +:+ s) (p +:+ t) = String.compare s t.
Proof.
  induction p as [|a p IH]; [done|]. rewrite !append_cons.
  cbn [String.compare]. unfold Ascii.compare. by rewrite N.compare_refl.
Qed.

Lemma compare_refl s : String.compare s s = Eq.
Proof.
  induction s as [|a s IH]; [done|]. cbn [String.compare].
  unfold Ascii.compare. by rewrite N.compare_refl.
Qed.

(** Among times written with the same number of digits, the order of the
    backups' names is the order of their times. *)
Lemma backupPath_le (k : nat) (a b : Z) :
  10 ^ Z.of_nat k ≤ a < 10 ^ (Z.of_nat k + 1) →
  10 ^ Z.of_nat k ≤ b < 10 ^ (Z.of_nat k + 1) →
  String.le (Server.backupPath a) (Server.backupPath b) ↔ a ≤ b.
Proof.
  intros Ha Hb.
  assert (0 < 10 ^ Z.of_nat k) as Hpos by (apply Z.pow_pos_nonneg; lia).
  destruct a as [|p|p]; [lia| |lia]. destruct b as [|q|q]; [lia| |lia].
  unfold Server.backupPath, String_of_Z, String.le, String.leb.
  rewrite compare_prefix.
  unfold pretty, pretty_Z, pretty, pretty_positive, pretty, pretty_N.
  rewrite !decide_False by done. rewrite !pretty_N_go_app.
  rewrite (compare_pretty_N_go (S k)).
  - rewrite compare_refl.
    change (N.pos p ?= N.pos q)%N with (Z.pos p ?= Z.pos q).
    destruct (Z.compare_spec (Z.pos p) (Z.pos q)); simpl; split;
      first [done | lia].
  - apply N2Z.inj_lt. rewrite N2Z.inj_pow, nat_N_Z, Nat2Z.inj_succ.
    simpl. unfold Z.succ. lia.
  - apply N2Z.inj_lt. rewrite N2Z.inj_pow, nat_N_Z, Nat2Z.inj_succ.
    simpl. unfold Z.succ. lia.
  - left. apply N2Z.inj_le.
    rewrite N2Z.inj_pow, N2Z.inj_mul, nat_N_Z, Nat2Z.inj_succ.
    unfold Z.succ. rewrite Z.pow_add_r by lia. simpl. lia.
  - left. apply N2Z.inj_le.
    rewrite N2Z.inj_pow, N2Z.inj_mul, nat_N_Z, Nat2Z.inj_succ.
    unfold Z.succ. rewrite Z.pow_add_r by lia. simpl. lia.
Qed.

(** The clean-up keeps the latest backups: when a backup is kept, so is
    every backup of the directory with a later time, for times written
    with the same number of digits. *)
Lemma kept_backups_are_latest dir (k : nat) (t1 t2 : Z) :
  10 ^ Z.of_nat k ≤ t1 < 10 ^ (Z.of_nat k + 1) →
  10 ^ Z.of_nat k ≤ t2 < 10 ^ (Z.of_nat k + 1) →
  Server.backupPath t1 ∈ take 5 (Server.backupFiles dir) →
  is_Some (dir !! Server.backupPath t2) →
  t1 ≤ t2 →
  Server.backupPath t2 ∈ take 5 (Server.backupFiles dir).
Proof.
  intros Ht1 Ht2 Hkept Hthere Hle.
  assert (Server.backupPath t2 ∈ Server.backupFiles dir) as Hin.
  { apply elem_of_backupFiles. split; [done|apply backupPath_is_backup]. }
  assert (StronglySorted (flip String.le) (Server.backupFiles dir))
    as Hsorted.
  { apply Sorted_StronglySorted; [|apply backupFiles_sorted].
    intros x y z Hxy Hyz. unfold flip in *. by etrans. }
  pose proof (backupFiles_NoDup dir) as Hnd.
  rewrite <- (take_drop 5 (Server.backupFiles dir)) in Hin, Hsorted, Hnd.
  apply elem_of_app in Hin as [Hin|Hin]; [done|].
  pose proof (StronglySorted_app_1_elem_of _ _ _ _ _ Hsorted Hkept Hin)
    as Hnames.
  unfold flip in Hnames. apply (backupPath_le k) in Hnames; [|done..].
  assert (t1 = t2) as -> by lia.
  apply NoDup_app in Hnd as (_ & Hdisjoint & _).
  by destruct (Hdisjoint _ Hkept).
Qed.

End BackupOrder.

(** ** POST /api/vault-items: backup, verification, restore, clean-up *)

Section SaveFacts.
Context {crypto_js : CryptoJS} {node_js : NodeJS}.

(** The handler on an array that passes the validation. *)
Lemma post_vault_items_valid st xs W e now :
  Json.filter_result Server.invalid_item xs = Ok [] →
  Server.post_vault_items st (Some (JArr xs)) W e now =
  let dir1 := Server.after_write (VAULT_ITEMS_DIR st) xs W e now in
  let e' := (FileEncryption.encrypt (JSON_stringify (JArr xs)) W e).2 in
  match Server.verify dir1 W (length xs) with
  | Ok _ =>
      (Server.with_vault_items (Server.prune_backups dir1) st, e',
       Server.saved_response (length xs) now)
  | Throw m =>
      (Server.with_vault_items (Server.restore now dir1) st, e',
       Server.save_error m)
  end.
Proof.
  intros Hvalid. unfold Server.post_vault_items. rewrite Hvalid. simpl.
  unfold Server.after_write, Server.written.
  by destruct (FileEncryption.encrypt _ W e) as [encryptedItems e'].
Qed.

(** The verification reads what was just written, decrypts it, parses it
    and compares its length with the number of items given. *)
Lemma verify_after_write dir xs W e now n :
  Server.verify (Server.after_write dir xs W e now) W n = Ok () ↔
  ∃ text doc,
    FileEncryption.decrypt (Server.written xs W e) W = Ok text
    ∧ JSON_parse text = Ok doc
    ∧ Json.length_of doc = Ok (Some (JNum (Z.of_nat n))).
Proof.
  unfold Server.verify, Server.after_write.
  rewrite lookup_insert_eq. simpl. split.
  - destruct (FileEncryption.decrypt _ W) as [text|m]; simpl; [|done].
    destruct (JSON_parse text) as [doc|m] eqn:Hdoc; simpl; [|done].
    destruct (Json.length_of doc) as [[len|]|m] eqn:Hlen; simpl;
      [|done|done].
    destruct len as [| b | k | s | ys | props]; try done.
    destruct (k =? Z.of_nat n) eqn:Hk; [|done].
    apply Z.eqb_eq in Hk as ->. intros _. by exists text, doc.
  - intros (text & doc & -> & Hdoc & Hlen). simpl.
    rewrite Hdoc. simpl. rewrite Hlen. simpl. by rewrite Z.eqb_refl.
Qed.

(** With a library that keeps its laws, the verification passes. *)
Lemma verify_passes dir xs W e now :
  key_round_trip → hex_parse_stringify → json_round_trip →
  Server.verify (Server.after_write dir xs W e now) W (length xs) = Ok ().
Proof.
  intros Hrt Hhex Hjson. apply verify_after_write.
  exists (JSON_stringify (JArr xs)), (JArr xs).
  split; [by apply FileEncryption_round_trip|]. by split.
Qed.

(** On a first save nothing can be restored: when the verification fails
    and no file has the name of the backup, the snapshot just written
    stays. *)
Lemma first_save_is_not_undone st xs W e now m :
  Json.filter_result Server.invalid_item xs = Ok [] →
  VAULT_ITEMS_DIR st !! Server.vaultItemsPath = None →
  VAULT_ITEMS_DIR st !! Server.backupPath now = None →
  Server.verify (Server.after_write (VAULT_ITEMS_DIR st) xs W e now) W
    (length xs) = Throw m →
  let outcome := Server.post_vault_items st (Some (JArr xs)) W e now in
  outcome.2 = Server.save_error m
  ∧ VAULT_ITEMS_DIR outcome.1.1 !! Server.vaultItemsPath
    = Some (Server.written xs W e).
Proof.
  intros Hvalid Hnone Hnobackup Hverify outcome. subst outcome.
  rewrite post_vault_items_valid by done. cbv zeta. rewrite Hverify. simpl.
  split; [done|]. unfold Server.restore, Server.after_write, Server.backup.
  rewrite Hnone.
  rewrite lookup_insert_ne by (intros Heq; by apply (backupPath_ne now)).
  rewrite Hnobackup. apply lookup_insert_eq.
Qed.

End SaveFacts.

(** Scenario E, first half: saving three items to an empty store is
    verified and reported with their count. *)
Lemma save_three_items :
  let outcome :=
    @Server.post_vault_items Reference.crypto Reference.node
      Scenario.empty_storage (Some (JArr Scenario.three_items))
      Scenario.masterPassword 0%nat 1700000000000 in
  outcome.2 = @Server.saved_response Reference.node 3 1700000000000
  ∧ VAULT_ITEMS_DIR outcome.1.1 !! Server.vaultItemsPath
    = Some Scenario.snapshot_of_three.
Proof.
  intros outcome. subst outcome.
  rewrite post_vault_items_valid by reflexivity. cbv zeta.
  rewrite verify_passes
    by auto using reference_key_round_trip, reference_hex_round_trip,
         reference_json_round_trip.
  cbn [fst snd Server.with_vault_items VAULT_ITEMS_DIR]. split; [done|].
  rewrite prune_backups_other by reflexivity.
  unfold Server.after_write. apply lookup_insert_eq.
Qed.

(** ** The identifiers of the stored snapshot *)

Section IdFacts.
Context {crypto_js : CryptoJS} {node_js : NodeJS}.

(** The validation of the save on one item. *)
Lemma invalid_item_unfold item :
  Server.invalid_item item =
  match item with
  | JNull => Throw (Json.null_error "id")
  | _ => Ok (negb (Json.has_id item))
  end.
Proof.
  destruct item as [| b | n | s | xs | props]; try reflexivity.
  unfold Server.invalid_item, Json.has_id, Json.string_id. simpl.
  destruct (Json.lookup_prop "id" props) as [[| b | n | s | xs | ps]|];
    try reflexivity; simpl.
  - by rewrite orb_true_r.
  - by rewrite orb_true_r.
  - by rewrite orb_false_r.
Qed.

Lemma has_id_string_id item :
  Json.has_id item = true → is_Some (Json.string_id item).
Proof. unfold Json.has_id. destruct (Json.string_id item); eauto. done. Qed.

(** [filter] with a callback that raises on no element of the array. *)
Lemma filter_result_total (p : json → result bool) (q : json → bool) xs :
  Forall (λ x, p x = Ok (q x)) xs →
  Json.filter_result p xs = Ok (filter (λ x, q x = true) xs).
Proof.
  induction 1 as [|x l Hx _ IH]; [done|].
  cbn [Json.filter_result]. rewrite Hx, IH, filter_cons.
  destruct (q x); by case_decide.
Qed.

(** The validation of the save raises as soon as the array holds [null]. *)
Lemma filter_result_null xs :
  JNull ∈ xs →
  Json.filter_result Server.invalid_item xs = Throw (Json.null_error "id").
Proof.
  induction xs as [|x l IH]; [by intros ?%not_elem_of_nil|].
  intros Hin. cbn [Json.filter_result]. rewrite invalid_item_unfold.
  apply elem_of_cons in Hin as [<-|Hin]; [done|]. rewrite (IH Hin).
  by destruct x.
Qed.

Lemma filter_result_invalid xs :
  JNull ∉ xs →
  Json.filter_result Server.invalid_item xs
  = Ok (filter (λ x, negb (Json.has_id x) = true) xs).
Proof.
  intros Hnull. apply (filter_result_total _ (λ x, negb (Json.has_id x))).
  apply Forall_forall. intros x Hx. rewrite invalid_item_unfold.
  by destruct x.
Qed.

(** The arrays that pass the validation. *)
Lemma filter_result_valid xs :
  Forall (λ x, Json.has_id x = true) xs →
  Json.filter_result Server.invalid_item xs = Ok [].
Proof.
  intros Hall. rewrite filter_result_invalid.
  - f_equal. induction Hall as [|x l Hx _ IH]; [done|].
    rewrite filter_cons, Hx. by case_decide.
  - intros Hnull. rewrite Forall_forall in Hall. by specialize (Hall _ Hnull).
Qed.

(** What the handlers read back from a snapshot they wrote. *)
Lemma load_written xs W e :
  key_round_trip → hex_parse_stringify → json_round_trip →
  Server.load_items (Server.written xs W e) W = Ok (JArr xs).
Proof.
  intros Hrt Hhex Hjson. unfold Server.load_items, Server.written.
  rewrite FileEncryption_round_trip by done. simpl. apply Hjson.
Qed.

Lemma stored_items_written dir st xs W e :
  key_round_trip → hex_parse_stringify → json_round_trip →
  dir !! Server.vaultItemsPath = Some (Server.written xs W e) →
  Server.stored_items (Server.with_vault_items dir st) W = Ok (JArr xs).
Proof.
  intros Hrt Hhex Hjson Hdir. unfold Server.stored_items. simpl.
  rewrite Hdir. by apply load_written.
Qed.

(** A save that is accepted: the new snapshot holds the items given. *)
Lemma post_vault_items_stored st xs W e now :
  key_round_trip → hex_parse_stringify → json_round_trip →
  Forall (λ x, Json.has_id x = true) xs →
  (Server.post_vault_items st (Some (JArr xs)) W e now).2
  = Server.saved_response (length xs) now
  ∧ Server.stored_items
      (Server.post_vault_items st (Some (JArr xs)) W e now).1.1 W
    = Ok (JArr xs).
Proof.
  intros Hrt Hhex Hjson Hall.
  rewrite post_vault_items_valid by by apply filter_result_valid.
  cbv zeta. rewrite verify_passes by done.
  cbn [fst snd]. split; [done|].
  eapply stored_items_written; [done..|].
  rewrite prune_backups_other by done.
  unfold Server.after_write. apply lookup_insert_eq.
Qed.

(** A save that is refused: nothing is written. *)
Lemma post_vault_items_refused st xs W e now x :
  x ∈ xs → Json.has_id x = false →
  (0 < length (filter (λ x, negb (Json.has_id x) = true) xs))%nat
  ∧ (JNull ∈ xs →
     Server.post_vault_items st (Some (JArr xs)) W e now
     = (st, e, Server.save_error (Json.null_error "id")))
  ∧ (JNull ∉ xs →
     Server.post_vault_items st (Some (JArr xs)) W e now
     = (st, e,
        Server.invalid_structure
          (length (filter (λ x, negb (Json.has_id x) = true) xs)))).
Proof.
  intros Hin Hx.
  assert (0 < length (filter (λ x, negb (Json.has_id x) = true) xs))%nat
    as Hpos.
  { assert (x ∈ filter (λ x, negb (Json.has_id x) = true) xs) as Hf.
    { apply list_elem_of_filter. split; [by rewrite Hx|done]. }
    destruct (filter _ xs); [by apply not_elem_of_nil in Hf|simpl; lia]. }
  split; [done|]. unfold Server.post_vault_items. split; intros Hnull.
  - by rewrite filter_result_null.
  - rewrite filter_result_invalid by done.
    by apply Nat.ltb_lt in Hpos as ->.
Qed.

Lemma lookup_set_prop k v props :
  Json.lookup_prop k (Json.set_prop k v props) = Some v.
Proof.
  induction props as [|[k' v'] ps IH]; simpl.
  - by rewrite decide_True.
  - destruct (decide (k' = k)) as [->|Hne]; simpl.
    + by rewrite decide_True.
    + by rewrite decide_False.
Qed.

Lemma string_id_set_prop itemId props :
  Json.string_id (JObj (Json.set_prop "id" (JStr itemId) props))
  = Some itemId.
Proof. unfold Json.string_id. by rewrite lookup_set_prop. Qed.

(** [findIndex] over items that are objects: nothing is raised, and an
    index found is an index of the array. *)
Lemma findIndex_objects (q : option json → bool) xs :
  Forall (λ item, is_Some (Json.string_id item)) xs →
  ∃ r, Json.findIndex (λ i, v ← Json.get i "id"; Ok (q v)) xs = Ok r
       ∧ ∀ k, r = Some k → is_Some (xs !! k).
Proof.
  induction 1 as [|x l Hx _ (r & IH & Hr)].
  - exists None. split; [done|]. by intros k.
  - cbn [Json.findIndex]. destruct x; try by destruct Hx. simpl.
    destruct (q _).
    + exists (Some 0%nat). split; [done|]. intros k [= <-]. simpl. eauto.
    + rewrite IH. exists (S <$> r). split; [done|].
      intros k Hk. destruct r as [j|]; [|done].
      injection Hk as <-. simpl. by apply Hr.
Qed.

(** The array a single-item update writes over items with string ids. *)
Lemma upsert_string_ids xs itemId item :
  Forall (λ item, is_Some (Json.string_id item)) xs →
  ∃ ys, Server.upsert (JArr xs) itemId item = Ok ys
        ∧ Forall (λ item, is_Some (Json.string_id item)) ys
        ∧ ∃ y, y ∈ ys ∧ Json.string_id y = Some itemId.
Proof.
  intros Hall. unfold Server.upsert. simpl.
  destruct (findIndex_objects (λ v, Json.strict_eq_string v itemId) xs Hall)
    as (r & -> & Hr).
  simpl. destruct r as [k|].
  - destruct (Hr k eq_refl) as [old Hold]. rewrite Hold.
    eexists. split; [done|]. split.
    + apply Forall_insert; [done|]. rewrite string_id_set_prop. eauto.
    + eexists. split; [|apply string_id_set_prop].
      apply list_elem_of_lookup. exists k.
      apply list_lookup_insert_eq. by eapply lookup_lt_Some.
  - eexists. split; [done|]. split.
    + apply Forall_app. split; [done|]. constructor; [|done].
      rewrite string_id_set_prop. eauto.
    + eexists. split; [|apply string_id_set_prop].
      apply elem_of_app. right. by apply list_elem_of_singleton.
Qed.

(** PUT /api/vault-items/:itemId keeps the invariant, and after an update
    the snapshot holds an item whose id is the path parameter. *)
Lemma put_vault_item_string_ids st itemId item W e now :
  key_round_trip → hex_parse_stringify → json_round_trip →
  Server.string_ids st W →
  Server.string_ids (Server.put_vault_item st itemId item W e now).1.1 W
  ∧ (Json.truthy_opt item = true →
     ∃ ys y,
       Server.stored_items
         (Server.put_vault_item st itemId item W e now).1.1 W = Ok (JArr ys)
       ∧ y ∈ ys ∧ Json.string_id y = Some itemId).
Proof.
  intros Hrt Hhex Hjson Hinv. unfold Server.put_vault_item.
  destruct item as [item'|]; [|by split]. simpl.
  destruct (Json.truthy_value item'); simpl; [|by split].
  destruct Hinv as (xs & Hxs & Hall). rewrite Hxs. simpl.
  destruct (upsert_string_ids xs itemId item' Hall)
    as (ys & -> & Hys & y & Hy & Hid).
  destruct (FileEncryption.encrypt _ W e) as [encryptedItems e'] eqn:Henc.
  assert (Server.stored_items
            (Server.with_vault_items
               (<[Server.vaultItemsPath := encryptedItems]>
                  (VAULT_ITEMS_DIR st)) st) W = Ok (JArr ys)) as Hstored.
  { eapply stored_items_written; [done..|]. rewrite lookup_insert_eq.
    unfold Server.written. by rewrite Henc. }
  cbn [fst snd]. split.
  - by exists ys.
  - intros _. by exists ys, y.
Qed.

(** DELETE /api/vault-items/:itemId keeps the invariant. *)
Lemma delete_vault_item_string_ids st itemId W e now :
  key_round_trip → hex_parse_stringify → json_round_trip →
  Server.string_ids st W →
  Server.string_ids (Server.delete_vault_item st itemId W e now).1.1 W.
Proof.
  intros Hrt Hhex Hjson Hinv. pose proof Hinv as (xs & Hxs & Hall).
  unfold Server.delete_vault_item. unfold Server.stored_items in Hxs.
  destruct (VAULT_ITEMS_DIR st !! Server.vaultItemsPath)
    as [encryptedItems|]; [|done].
  rewrite Hxs. simpl.
  rewrite (filter_result_total _
             (λ i, match Json.get i "id" with
                   | Ok v => negb (Json.strict_eq_string v itemId)
                   | Throw _ => false
                   end)).
  2: { eapply Forall_impl; [exact Hall|]. intros x Hx.
       destruct x; by destruct Hx. }
  simpl. destruct (_ =? _)%nat; [done|].
  destruct (FileEncryption.encrypt _ W e) as [encryptedItems' e'] eqn:Henc.
  cbn [fst snd]. eexists. split.
  - eapply stored_items_written; [done..|]. rewrite lookup_insert_eq.
    unfold Server.written. by rewrite Henc.
  - apply Forall_forall. intros x [_ Hx]%list_elem_of_filter.
    rewrite Forall_forall in Hall. by apply Hall.
Qed.

(** POST /api/vault-items keeps the invariant, whatever is sent. *)
Lemma post_vault_items_string_ids st items W e now :
  key_round_trip → hex_parse_stringify → json_round_trip →
  Server.string_ids st W →
  Server.string_ids (Server.post_vault_items st items W e now).1.1 W.
Proof.
  intros Hrt Hhex Hjson Hinv.
  destruct items as [[| b | n | s | xs | props]|]; try done.
  destruct (Json.filter_result Server.invalid_item xs) as [invalid|m]
    eqn:Hfilter.
  2: { unfold Server.post_vault_items. by rewrite Hfilter. }
  destruct invalid as [|x invalid].
  2: { unfold Server.post_vault_items. by rewrite Hfilter. }
  rewrite post_vault_items_valid by done. cbv zeta.
  rewrite verify_passes by done. cbn [fst snd]. exists xs. split.
  - eapply stored_items_written; [done..|].
    rewrite prune_backups_other by done.
    unfold Server.after_write. apply lookup_insert_eq.
  - apply Forall_forall. intros x Hx. apply has_id_string_id.
    destruct (Json.has_id x) eqn:Hid; [done|].
    destruct (post_vault_items_refused st xs W e now x Hx Hid)
      as (Hpos & Hnull & Hvalid).
    assert (JNull ∉ xs) as Hnot.
    { intros Hin. by rewrite filter_result_null in Hfilter. }
    rewrite filter_result_invalid in Hfilter by done.
    injection Hfilter as Hfilter. rewrite Hfilter in Hpos. simpl in Hpos.
    lia.
Qed.

(** Before anything is saved the invariant holds: there is no item. *)
Lemma string_ids_initially st W :
  VAULT_ITEMS_DIR st !! Server.vaultItemsPath = None →
  Server.string_ids st W.
Proof.
  intros Hnone. exists []. unfold Server.stored_items. by rewrite Hnone.
Qed.

Lemma string_id_has_id item :
  Json.string_id item = None ∨ Json.string_id item = Some "" →
  Json.has_id item = false.
Proof. unfold Json.has_id. by intros [-> | ->]. Qed.

End IdFacts.

(** ** POST /api/vault-items: the outcome of a save *)

Section SaveOutcome.
Context {crypto_js : CryptoJS} {node_js : NodeJS}.

(** The snapshot that a save writes, by the calls of the library. *)
Lemma written_unfold xs W e :
  Server.written xs W e
  = {| encrypted :=
         AES_encrypt_key (JSON_stringify (JArr xs))
           (PBKDF2_words W (WordArray_random 32 e).1)
           (WordArray_random 16 (WordArray_random 32 e).2).1;
       salt := Hex_stringify (WordArray_random 32 e).1;
       iv := Hex_stringify (WordArray_random 16 (WordArray_random 32 e).2).1
    |}.
Proof.
  unfold Server.written, FileEncryption.encrypt.
  destruct (WordArray_random 32 e) as [s e1]. cbn [fst snd].
  destruct (WordArray_random 16 e1) as [i e2]. reflexivity.
Qed.

(** The verification on the snapshot [v] that it reads back. *)
Lemma verify_unfold dir W n v :
  dir !! Server.vaultItemsPath = Some v →
  Server.verify dir W n
  = match
      Utf8_stringify
        (AES_decrypt_key (encrypted v) (PBKDF2_words W (Hex_parse (salt v)))
                         (Hex_parse (iv v)))
    with
    | None => Throw "Malformed UTF-8 data"
    | Some text =>
        match JSON_parse text with
        | Throw m => Throw m
        | Ok JNull =>
            Throw "Cannot read properties of null (reading 'length')"
        | Ok (JArr ys) =>
            if decide (length ys = n) then Ok ()
            else Throw "Verification failed: item count mismatch"
        | Ok (JStr s) =>
            if decide (String.length s = n) then Ok ()
            else Throw "Verification failed: item count mismatch"
        | Ok (JObj props) =>
            match Json.lookup_prop "length" props with
            | Some (JNum k) =>
                if decide (k = Z.of_nat n) then Ok ()
                else Throw "Verification failed: item count mismatch"
            | _ => Throw "Verification failed: item count mismatch"
            end
        | Ok (JBool _) | Ok (JNum _) =>
            Throw "Verification failed: item count mismatch"
        end
    end.
Proof.
  intros Hv. unfold Server.verify. rewrite Hv. cbn [mbind result_bind].
  unfold FileEncryption.decrypt.
  destruct (Utf8_stringify _) as [text|]; [|done]. cbn [mbind result_bind].
  destruct (JSON_parse text) as [[| b | k | s | ys | props]|m];
    cbn [mbind result_bind]; try done.
  - cbn [Json.length_of mbind result_bind].
    destruct (Z.eqb_spec (Z.of_nat (String.length s)) (Z.of_nat n)).
    + by rewrite decide_True by lia.
    + by rewrite decide_False by lia.
  - cbn [Json.length_of mbind result_bind].
    destruct (Z.eqb_spec (Z.of_nat (length ys)) (Z.of_nat n)).
    + by rewrite decide_True by lia.
    + by rewrite decide_False by lia.
  - cbn [Json.length_of Json.get mbind result_bind].
    destruct (Json.lookup_prop "length" props) as [[| b | k | s | ys | ps]|];
      try done.
    destruct (Z.eqb_spec k (Z.of_nat n)).
    + by rewrite decide_True.
    + by rewrite decide_False.
Qed.

(** In a list without duplicates that is sorted with the greatest name
    first, the first [n] names are those with fewer than [n] greater
    names. *)
Lemma take_sorted_greater (n : nat) (names : list string) (f : string) :
  StronglySorted (flip String.le) names → NoDup names → f ∈ names →
  f ∈ take n names
  ↔ (length (filter (λ g, ¬ String.le g f) names) < n)%nat.
Proof.
  intros Hsorted. revert n.
  induction Hsorted as [|x l Hl IH Hx]; intros n Hnd Hin.
  { by apply not_elem_of_nil in Hin. }
  apply NoDup_cons in Hnd as [Hxl Hnd].
  destruct n as [|n].
  { simpl. split; [by intros ?%not_elem_of_nil|lia]. }
  rewrite Forall_forall in Hx. unfold flip in Hx.
  cbn [take]. rewrite filter_cons.
  apply elem_of_cons in Hin as [->|Hin].
  - rewrite decide_False by (intros Hne; by apply Hne).
    assert (filter (λ g, ¬ String.le g x) l = []) as ->.
    { clear -Hx. induction l as [|g l IH]; [done|].
      rewrite filter_cons_False
        by (intros Hne; apply Hne, Hx, elem_of_cons; by left).
      apply IH. intros y Hy. apply Hx, elem_of_cons. by right. }
    simpl. split; [lia|]. intros _. apply elem_of_cons. by left.
  - assert (f ≠ x) as Hne by (intros ->; done).
    rewrite decide_True.
    + rewrite elem_of_cons, (IH n Hnd Hin). simpl.
      split; [intros [?|?]; [done|lia]|]. intros ?. right. lia.
    + intros Hle. apply Hne. apply (anti_symm String.le); [by apply Hx|done].
Qed.

(** The backups that the clean-up keeps: those with fewer than five
    backups of a greater name in the directory. *)
Lemma kept_backups_by_count dir f :
  f ∈ Server.backupFiles dir →
  f ∈ take 5 (Server.backupFiles dir)
  ↔ (length (filter (λ g, ¬ String.le g f)
               (filter (λ g, String.prefix "vault-items-backup-" g = true)
                       (Server.readdir dir))) < 5)%nat.
Proof.
  intros Hin. rewrite take_sorted_greater.
  - assert (filter (λ g, ¬ String.le g f) (Server.backupFiles dir)
            ≡ₚ filter (λ g, ¬ String.le g f)
                 (filter (λ g, String.prefix "vault-items-backup-" g = true)
                         (Server.readdir dir))) as ->; [|done].
    unfold Server.backupFiles.
    by rewrite reverse_Permutation, merge_sort_Permutation.
  - apply Sorted_StronglySorted; [|apply backupFiles_sorted].
    intros x y z Hxy Hyz. unfold flip in *. by etrans.
  - apply backupFiles_NoDup.
  - done.
Qed.

(** The directory after the clean-up, file by file. *)
Lemma lookup_prune_backups_count dir f :
  Server.prune_backups dir !! f
  = if decide (String.prefix "vault-items-backup-" f = true
               ∧ (5 ≤ length
                        (filter (λ g, ¬ String.le g f)
                           (filter (λ g, String.prefix "vault-items-backup-"
                                                       g = true)
                                   (Server.readdir dir))))%nat)
    then None else dir !! f.
Proof.
  destruct (String.prefix "vault-items-backup-" f) eqn:Hf.
  - rewrite prune_backups_backup by done.
    destruct (dir !! f) as [v|] eqn:Hv.
    + assert (f ∈ Server.backupFiles dir) as Hin
        by (apply elem_of_backupFiles; eauto).
      pose proof (kept_backups_by_count dir f Hin) as Hkept.
      destruct (decide (f ∈ take 5 (Server.backupFiles dir))) as [Hk|Hk].
      * rewrite decide_False; [done|]. intros [_ Hfive].
        apply Hkept in Hk. lia.
      * rewrite decide_True; [done|]. split; [done|].
        apply Nat.nlt_ge. intros Hlt. by apply Hk, Hkept.
    + by repeat case_decide.
  - rewrite prune_backups_other by done.
    by rewrite decide_False by (by intros [? _]).
Qed.

(** After the clean-up at most five backups are left. *)
Lemma at_most_five_backups dir :
  (length (filter (λ g, String.prefix "vault-items-backup-" g = true)
             (Server.readdir (Server.prune_backups dir))) ≤ 5)%nat.
Proof.
  etrans; [|apply (length_kept_backups dir)].
  apply submseteq_length, NoDup_submseteq.
  - apply NoDup_filter, NoDup_fst_map_to_list.
  - intros f [Hf Hin]%list_elem_of_filter.
    apply elem_of_readdir in Hin as [v Hv].
    rewrite prune_backups_backup in Hv by done.
    by case_decide.
Qed.

(** C5, as amended: on every save of a valid item array the server copies
    the stored snapshot, if there is one, to the backup named after the
    time, writes the new snapshot, reads it back, decrypts it, parses it
    and compares its length with the number of items given. When that
    succeeds the save is reported, the new snapshot stays and a backup is
    removed exactly when the directory holds five or more backups of a
    greater name, so that at most five are left, the order of the names
    being that of the times for times written with the same number of
    digits. When reading back raises or the lengths differ, 500 SAVE_ERROR
    is reported with the message, and the file with the name of the backup
    is copied over the snapshot if there is such a file: after a save over
    a stored snapshot the snapshot is the one stored before; after a first
    save there is no backup, and the snapshot just written stays. With a
    library that keeps its round-trip laws the verification succeeds. The
    other directories are not touched. *)
Theorem save_backs_up_verifies_restores (st : Storage) (xs : list json)
    (W : string) (e : Entropy) (now : Z) :
  Forall (λ x, ∃ props s, x = JObj props
                          ∧ Json.lookup_prop "id" props = Some (JStr s)
                          ∧ s ≠ "") xs →
  let before := VAULT_ITEMS_DIR st in
  let backup_name := "vault-items-backup-" +:+ String_of_Z now +:+ ".enc" in
  let salt_words := (WordArray_random 32 e).1 in
  let iv_words := (WordArray_random 16 (WordArray_random 32 e).2).1 in
  let snapshot :=
    {| encrypted :=
         AES_encrypt_key (JSON_stringify (JArr xs))
                         (PBKDF2_words W salt_words) iv_words;
       salt := Hex_stringify salt_words;
       iv := Hex_stringify iv_words |} in
  let backed_up :=
    match before !! "vault-items.enc" with
    | Some previous => <[backup_name := previous]> before
    | None => before
    end in
  let written := <["vault-items.enc" := snapshot]> backed_up in
  let read_back :=
    Utf8_stringify
      (AES_decrypt_key (encrypted snapshot)
                       (PBKDF2_words W (Hex_parse (salt snapshot)))
                       (Hex_parse (iv snapshot))) in
  let mismatch : result unit :=
    Throw "Verification failed: item count mismatch" in
  let verdict : result unit :=
    match read_back with
    | None => Throw "Malformed UTF-8 data"
    | Some text =>
        match JSON_parse text with
        | Throw m => Throw m
        | Ok JNull =>
            Throw "Cannot read properties of null (reading 'length')"
        | Ok (JArr ys) =>
            if decide (length ys = length xs) then Ok () else mismatch
        | Ok (JStr s) =>
            if decide (String.length s = length xs) then Ok () else mismatch
        | Ok (JObj props) =>
            match Json.lookup_prop "length" props with
            | Some (JNum k) =>
                if decide (k = Z.of_nat (length xs)) then Ok () else mismatch
            | _ => mismatch
            end
        | Ok (JBool _) | Ok (JNum _) => mismatch
        end
    end in
  let is_backup (f : string) := String.prefix "vault-items-backup-" f = true in
  let greater_backups (f : string) :=
    filter (λ g, ¬ String.le g f) (filter is_backup (Server.readdir written)) in
  let outcome := Server.post_vault_items st (Some (JArr xs)) W e now in
  let after := VAULT_ITEMS_DIR outcome.1.1 in
  FILES_DIR outcome.1.1 = FILES_DIR st
  ∧ METADATA_DIR outcome.1.1 = METADATA_DIR st
  ∧ ELSEWHERE outcome.1.1 = ELSEWHERE st
  ∧ match verdict with
    | Ok _ =>
        outcome.2
        = Json 200 (JObj [("success", JBool true);
                          ("itemCount", JNum (Z.of_nat (length xs)));
                          ("savedAt", JStr (Date_toISOString now));
                          ("verified", JBool true)])
        ∧ (∀ f, after !! f
                = if decide (is_backup f
                             ∧ (5 ≤ length (greater_backups f))%nat)
                  then None else written !! f)
        ∧ after !! "vault-items.enc" = Some snapshot
        ∧ (length (filter is_backup (Server.readdir after)) ≤ 5)%nat
    | Throw m =>
        outcome.2
        = Json 500 (JObj [("error", JStr "Failed to save vault items");
                          ("code", JStr "SAVE_ERROR");
                          ("details", JStr m)])
        ∧ after
          = match written !! backup_name with
            | Some saved => <["vault-items.enc" := saved]> written
            | None => written
            end
        ∧ (∀ previous,
             before !! "vault-items.enc" = Some previous →
             after !! "vault-items.enc" = Some previous
             ∧ after !! backup_name = Some previous
             ∧ ∀ f, f ≠ "vault-items.enc" → f ≠ backup_name →
                    after !! f = before !! f)
        ∧ (before !! "vault-items.enc" = None →
           before !! backup_name = None →
           after = <["vault-items.enc" := snapshot]> before)
    end
  ∧ (key_round_trip → hex_parse_stringify → json_round_trip →
     verdict = Ok ())
  ∧ (∀ (k : nat) t1 t2,
       10 ^ Z.of_nat k ≤ t1 < 10 ^ (Z.of_nat k + 1) →
       10 ^ Z.of_nat k ≤ t2 < 10 ^ (Z.of_nat k + 1) →
       String.le ("vault-items-backup-" +:+ String_of_Z t1 +:+ ".enc")
                 ("vault-items-backup-" +:+ String_of_Z t2 +:+ ".enc")
       ↔ t1 ≤ t2).
Proof.
  intros Hvalid before backup_name salt_words iv_words snapshot backed_up
    written read_back mismatch verdict is_backup greater_backups outcome
    after.
  assert (Json.filter_result Server.invalid_item xs = Ok []) as Hfilter.
  { apply filter_result_valid. eapply Forall_impl; [exact Hvalid|].
    intros x (props & s & -> & Hid & Hs).
    unfold Json.has_id, Json.string_id. rewrite Hid.
    by apply truthy_nonempty. }
  assert (Server.written xs W e = snapshot) as Hsnapshot
    by apply written_unfold.
  assert (Server.after_write (VAULT_ITEMS_DIR st) xs W e now = written)
    as Hwritten.
  { unfold Server.after_write. by rewrite Hsnapshot. }
  assert (written !! "vault-items.enc" = Some snapshot) as Hlookup
    by apply lookup_insert_eq.
  assert (Server.verify written W (length xs) = verdict) as Hverify
    by apply (verify_unfold written W (length xs) snapshot Hlookup).
  assert (backup_name ≠ "vault-items.enc") as Hname
    by apply (backupPath_ne now).
  subst outcome after. rewrite post_vault_items_valid by done.
  cbv zeta. rewrite Hwritten, Hverify.
  split; [by destruct verdict|]. split; [by destruct verdict|].
  split; [by destruct verdict|].
  split; [|split].
  - destruct verdict as [[]|m]; cbn [fst snd VAULT_ITEMS_DIR
                                     Server.with_vault_items].
    + split; [done|].
      split; [intros f; apply lookup_prune_backups_count|].
      split; [by rewrite prune_backups_other|].
      apply at_most_five_backups.
    + split; [done|]. split; [done|].
      unfold Server.restore.
      change (Server.backupPath now) with backup_name.
      change Server.vaultItemsPath with "vault-items.enc".
      split.
      * intros previous Hprevious.
        assert (written !! backup_name = Some previous) as ->.
        { subst written backed_up. rewrite Hprevious.
          rewrite lookup_insert_ne by done. apply lookup_insert_eq. }
        split; [apply lookup_insert_eq|].
        split.
        { rewrite lookup_insert_ne by done. subst written backed_up.
          rewrite Hprevious. rewrite lookup_insert_ne by done.
          apply lookup_insert_eq. }
        intros f Hf Hf'. rewrite lookup_insert_ne by done.
        subst written backed_up. rewrite Hprevious.
        by rewrite !lookup_insert_ne by done.
      * intros Hnone Hnobackup. subst written backed_up. rewrite Hnone.
        rewrite lookup_insert_ne by done. by rewrite Hnobackup.
  - intros Hrt Hhex Hjson. rewrite <- Hverify, <- Hwritten.
    by apply verify_passes.
  - intros k t1 t2. apply backupPath_le.
Qed.

End SaveOutcome.

(** Scenario E, second half: a save over the stored snapshot whose
    verification is forced to fail restores that snapshot and reports the
    save error. *)
Lemma save_backs_up_verifies_restores_witness :
  let outcome :=
    @Server.post_vault_items Reference.crypto Reference.forgetful_node
      Scenario.storage_with_three
      (Some (JArr [JObj [("id", JStr "9"); ("name", JStr "New")]]))
      Scenario.masterPassword 48%nat 1700000000000 in
  outcome.2
  = Json 500 (JObj [("error", JStr "Failed to save vault items");
                    ("code", JStr "SAVE_ERROR");
                    ("details",
                     JStr "Verification failed: item count mismatch")])
  ∧ VAULT_ITEMS_DIR outcome.1.1 !! "vault-items.enc"
    = Some Scenario.snapshot_of_three
  ∧ VAULT_ITEMS_DIR outcome.1.1 !! "vault-items-backup-1700000000000.enc"
    = Some Scenario.snapshot_of_three.
Proof.
  intros outcome. subst outcome.
  destruct (@save_backs_up_verifies_restores Reference.crypto
              Reference.forgetful_node Scenario.storage_with_three
              [JObj [("id", JStr "9"); ("name", JStr "New")]]
              Scenario.masterPassword 48%nat 1700000000000)
    as (_ & _ & _ & Houtcome & _).
  - repeat constructor. by exists [("id", JStr "9"); ("name", JStr "New")], "9".
  - cbv zeta in Houtcome. cbn [encrypted salt iv] in Houtcome.
    rewrite !reference_hex_round_trip, reference_key_round_trip in Houtcome.
    cbn [JSON_parse Reference.forgetful_node] in Houtcome.
    rewrite decide_False in Houtcome by discriminate.
    destruct Houtcome as (Hresponse & _ & Hprevious & _).
    split; [exact Hresponse|].
    destruct (Hprevious Scenario.snapshot_of_three) as (Hsnapshot & Hbackup & _).
    + apply lookup_singleton_eq.
    + split; [exact Hsnapshot|exact Hbackup].
Defined.

(** C5 as stated fails on a first save: nothing is stored, the
    verification of the save is forced to fail, and the store is not as it
    was before the save. There was no snapshot to copy, so there is no
    backup to restore from, and the snapshot just written stays although
    the save is reported as failed. *)
Lemma failed_first_save_leaves_snapshot :
  let items := [JObj [("id", JStr "9"); ("name", JStr "New")]] in
  let outcome :=
    @Server.post_vault_items Reference.crypto Reference.forgetful_node
      Scenario.empty_storage (Some (JArr items)) Scenario.masterPassword
      0%nat 1700000000000 in
  VAULT_ITEMS_DIR Scenario.empty_storage = ∅
  ∧ outcome.2
    = Json 500 (JObj [("error", JStr "Failed to save vault items");
                      ("code", JStr "SAVE_ERROR");
                      ("details",
                       JStr "Verification failed: item count mismatch")])
  ∧ VAULT_ITEMS_DIR outcome.1.1
    = {[ "vault-items.enc"
         := (@FileEncryption.encrypt Reference.crypto
               (@JSON_stringify Reference.forgetful_node (JArr items))
               Scenario.masterPassword 0%nat).1 ]}
  ∧ VAULT_ITEMS_DIR outcome.1.1 ≠ VAULT_ITEMS_DIR Scenario.empty_storage.
Proof.
  intros items outcome.
  assert (VAULT_ITEMS_DIR outcome.1.1
          = {[ "vault-items.enc"
               := (@FileEncryption.encrypt Reference.crypto
                     (@JSON_stringify Reference.forgetful_node (JArr items))
                     Scenario.masterPassword 0%nat).1 ]}
          ∧ outcome.2
            = Json 500 (JObj [("error", JStr "Failed to save vault items");
                              ("code", JStr "SAVE_ERROR");
                              ("details",
                               JStr "Verification failed: item count mismatch")]))
    as [Hdir Hresponse].
  { subst outcome.
    rewrite (@post_vault_items_valid Reference.crypto
               Reference.forgetful_node) by reflexivity.
    cbv zeta.
    assert (@Server.verify Reference.crypto Reference.forgetful_node
              (@Server.after_write Reference.crypto Reference.forgetful_node
                 (VAULT_ITEMS_DIR Scenario.empty_storage) items
                 Scenario.masterPassword 0%nat 1700000000000)
              Scenario.masterPassword (length items)
            = Throw "Verification failed: item count mismatch") as ->.
    { unfold Server.verify, Server.after_write.
      rewrite lookup_insert_eq. cbn [mbind result_bind].
      unfold Server.written.
      rewrite (@FileEncryption_round_trip Reference.crypto)
        by auto using reference_key_round_trip, reference_hex_round_trip.
      reflexivity. }
    split; [|reflexivity].
    cbn [fst snd VAULT_ITEMS_DIR Server.with_vault_items].
    unfold Server.restore, Server.after_write, Server.backup.
    cbn [VAULT_ITEMS_DIR Scenario.empty_storage].
    rewrite lookup_empty.
    rewrite lookup_insert_ne
      by (intros Heq; by apply (backupPath_ne 1700000000000)).
    rewrite lookup_empty. reflexivity. }
  split; [reflexivity|]. split; [exact Hresponse|]. split; [exact Hdir|].
  rewrite Hdir. intros Heq.
  apply (f_equal (λ dir, dir !! "vault-items.enc")) in Heq.
  rewrite lookup_singleton_eq in Heq. discriminate Heq.
Qed.

(** ** The identifiers the client pushes *)

Section PushFacts.
Context {crypto_js : CryptoJS}.

Lemma length_pretty_N_go x s :
  (String.length s ≤ String.length (pretty_N_go x s))%nat.
Proof.
  revert s. induction (N.lt_wf_0 x) as [x _ IH]; intros s.
  destruct (decide (0 < x)%N) as [Hx|Hx].
  - rewrite pretty_N_go_step by done.
    etrans; [|apply IH; by apply N.div_lt]. simpl. lia.
  - assert (x = 0%N) as -> by lia. by rewrite pretty_N_go_0.
Qed.

(** [String(k)] is never the empty string. *)
Lemma String_of_Z_truthy k : truthy (String_of_Z k) = true.
Proof.
  unfold String_of_Z, pretty, pretty_Z. destruct k as [|p|p]; [done| |done].
  unfold pretty, pretty_positive, pretty, pretty_N.
  rewrite decide_False by done.
  rewrite pretty_N_go_step by lia.
  pose proof (length_pretty_N_go (N.pos p `div` 10)
                (String (pretty_N_char (N.pos p `mod` 10)) "")) as Hlen.
  destruct (pretty_N_go _ _); [simpl in Hlen; lia|done].
Qed.

Lemma id_decryptVaultItem item W :
  id (VaultCrypto.decryptVaultItem item W) = id item.
Proof.
  unfold VaultCrypto.decryptVaultItem.
  pose proof (clear_part_fold_decrypt W VaultCrypto.sensitiveFields item)
    as Hclear.
  unfold clear_part in Hclear. by simplify_eq.
Qed.

(** The items [getAllItems] returns carry the keys of their rows. *)
Lemma getAllItems_ids c :
  well_formed (db c) →
  Forall (λ item, ∃ k, id item = Some k) (vaultDB.getAllItems c).2.
Proof.
  intros [Hnd Hkeys]. unfold vaultDB.getAllItems.
  rewrite removeDuplicateItems_once by done. cbn [fst snd].
  assert (Forall (λ item, ∃ k, id item = Some k)
            (orderBy_createdAt_reverse
               {| rows := vaultDB.keep_first (rows (db c));
                  keygen := keygen (db c) |})) as Hrows.
  { unfold orderBy_createdAt_reverse. cbn [rows].
    rewrite reverse_Permutation, merge_sort_Permutation.
    apply Forall_forall. intros item Hitem.
    pose proof (keep_first_sublist (rows (db c))) as Hsub.
    rewrite Forall_forall in Hkeys.
    destruct (Hkeys item) as (k & Hk & _); [|by exists k].
    eapply elem_of_sublist; [|exact Hsub]. done. }
  destruct (negb (truthy (_masterPassword c))); [done|].
  apply Forall_fmap. eapply Forall_impl; [exact Hrows|].
  intros item (k & Hk). exists k. simpl. by rewrite id_decryptVaultItem.
Qed.

Lemma isAvailable_pushed r : pushed (isAvailable r).2 = pushed r.
Proof. unfold isAvailable. by destruct (probes r). Qed.

(** A push that succeeds: every item sent has as id the decimal text of the
    key of its row. *)
Lemma syncVaultItemsToServer_ids c r :
  well_formed (db c) →
  push_success (vaultDB.syncVaultItemsToServer c r).2 = true →
  ∃ sent,
    pushed (vaultDB.syncVaultItemsToServer c r).1.2 = pushed r ++ [sent]
    ∧ Forall (λ w, ∃ k, id (wire_fields w) = Some k
                        ∧ wire_id w = String_of_Z k
                        ∧ truthy (wire_id w) = true) sent.
Proof.
  intros Hwf. unfold vaultDB.syncVaultItemsToServer.
  destruct (negb (truthy (_masterPassword c))); [done|].
  pose proof (isAvailable_pushed r) as Hpushed.
  destruct (isAvailable r) as [available r1]. simpl in Hpushed.
  destruct (negb available); [done|].
  pose proof (getAllItems_ids c Hwf) as Hids.
  destruct (vaultDB.getAllItems c) as [c1 items]. simpl in Hids.
  destruct (saveVaultItems r1 _); [|done].
  intros _. exists (vaultDB.to_wire <$> items). simpl.
  split; [by rewrite Hpushed|].
  apply Forall_fmap. eapply Forall_impl; [exact Hids|].
  intros item (k & Hk). exists k. simpl. rewrite Hk. simpl.
  split; [done|]. split; [done|]. apply String_of_Z_truthy.
Qed.

End PushFacts.

(** ** The invariant of the stored snapshot *)

Section SnapshotInvariant.
Context {crypto_js : CryptoJS} {node_js : NodeJS}.

(** C10, what the code does: with one master password throughout, every
    item of the stored snapshot is an object whose id is a string, and the
    three handlers that write the snapshot keep it so. The save stores the
    array it is given when every item has a non-empty string id; it writes
    nothing when some item has no string id, or the empty string as id,
    answering 400 INVALID_ITEM_STRUCTURE with the number of invalid items.
    The one exception is an array that holds [null]: the callback of the
    validation reads [null.id], which raises, and the answer is
    500 SAVE_ERROR with the text of the [TypeError]; nothing is written
    then either. The update of one item leaves in the snapshot an item
    whose id is the path parameter, as a string. The client's push sends
    every item with the decimal text of the integer key of its row as id,
    which is never empty. *)
Theorem stored_ids_are_strings (st : Storage) (W : string) :
  key_round_trip → hex_parse_stringify → json_round_trip →
  Server.string_ids st W →
  (∀ items e now,
     Server.string_ids (Server.post_vault_items st items W e now).1.1 W)
  ∧ (∀ xs e now,
       Forall (λ x, Json.has_id x = true) xs →
       (Server.post_vault_items st (Some (JArr xs)) W e now).2
       = Server.saved_response (length xs) now
       ∧ Server.stored_items
           (Server.post_vault_items st (Some (JArr xs)) W e now).1.1 W
         = Ok (JArr xs))
  ∧ (∀ xs e now x,
       x ∈ xs → Json.string_id x = None ∨ Json.string_id x = Some "" →
       (0 < length (filter (λ x, negb (Json.has_id x) = true) xs))%nat
       ∧ (JNull ∈ xs →
          Server.post_vault_items st (Some (JArr xs)) W e now
          = (st, e, Server.save_error (Json.null_error "id")))
       ∧ (JNull ∉ xs →
          Server.post_vault_items st (Some (JArr xs)) W e now
          = (st, e,
             Server.invalid_structure
               (length (filter (λ x, negb (Json.has_id x) = true) xs)))))
  ∧ (∀ itemId item e now,
       Server.string_ids
         (Server.put_vault_item st itemId item W e now).1.1 W
       ∧ (Json.truthy_opt item = true →
          ∃ ys y,
            Server.stored_items
              (Server.put_vault_item st itemId item W e now).1.1 W
            = Ok (JArr ys)
            ∧ y ∈ ys ∧ Json.string_id y = Some itemId))
  ∧ (∀ itemId e now,
       Server.string_ids (Server.delete_vault_item st itemId W e now).1.1 W)
  ∧ (∀ c r,
       well_formed (db c) →
       push_success (vaultDB.syncVaultItemsToServer c r).2 = true →
       ∃ sent,
         pushed (vaultDB.syncVaultItemsToServer c r).1.2
         = pushed r ++ [sent]
         ∧ Forall (λ w, ∃ k, id (wire_fields w) = Some k
                             ∧ wire_id w = String_of_Z k
                             ∧ truthy (wire_id w) = true) sent).
Proof.
  intros Hrt Hhex Hjson Hinv.
  split; [intros; by apply post_vault_items_string_ids|].
  split; [intros; by apply post_vault_items_stored|].
  split.
  { intros xs e now x Hx Hid.
    by apply (post_vault_items_refused st xs W e now x Hx),
             string_id_has_id. }
  split; [intros; by apply put_vault_item_string_ids|].
  split; [intros; by apply delete_vault_item_string_ids|].
  intros c r. apply syncVaultItemsToServer_ids.
Qed.

End SnapshotInvariant.

(** An update of item 7 on the empty store: the snapshot written satisfies
    the invariant. *)
Lemma stored_ids_are_strings_witness :
  @Server.string_ids Reference.crypto Reference.node
    (@Server.put_vault_item Reference.crypto Reference.node
       Scenario.empty_storage "7" (Some (JObj [("name", JStr "Gmail")]))
       Scenario.masterPassword 0%nat 1700000000000).1.1
    Scenario.masterPassword.
Proof.
  destruct (@stored_ids_are_strings Reference.crypto Reference.node
              Scenario.empty_storage Scenario.masterPassword)
    as (_ & _ & _ & Hput & _).
  - apply reference_key_round_trip.
  - apply reference_hex_round_trip.
  - apply reference_json_round_trip.
  - by apply string_ids_initially.
  - apply Hput.
Defined.

(** C10, the input on which the code departs from it: an array that holds
    [null], which is an item without a string id, is refused and nothing is
    written, but the validation itself raises on it, and the answer is
    500 SAVE_ERROR and not the answer of the validation,
    400 INVALID_ITEM_STRUCTURE. *)
Lemma null_item_is_a_save_error :
  let outcome :=
    @Server.post_vault_items Reference.crypto Reference.node
      Scenario.empty_storage (Some (JArr [JNull])) Scenario.masterPassword
      0%nat 1700000000000 in
  Json.string_id JNull = None
  ∧ outcome.1.1 = Scenario.empty_storage
  ∧ outcome.2
    = Server.save_error "Cannot read properties of null (reading 'id')"
  ∧ ∀ n, outcome.2 ≠ Server.invalid_structure n.
Proof.
  intros outcome. subst outcome.
  split; [reflexivity|]. split; [reflexivity|]. split; [reflexivity|].
  intros n. discriminate.
Qed.

(** ** The files that the ids name *)

Section PathFacts.
Context {deployment : Deployment}.

Lemma includes_app c s t :
  includes c (s +:+ t) = includes c s || includes c t.
Proof.
  induction s as [|a s IH]; [done|]. rewrite append_cons. simpl.
  by destruct (Ascii.eqb a c).
Qed.

Lemma length_append (s t : string) :
  String.length (s +:+ t) = (String.length s + String.length t)%nat.
Proof. induction s as [|a s IH]; [done|]. simpl. by rewrite IH. Qed.


Lemma append_inj_r (s t u : string) : s +:+ t = s +:+ u → t = u.
Proof.
  induction s as [|a s IH]; [done|]. rewrite !append_cons.
  intros [= Heq]. by apply IH.
Qed.

(** A text with a suffix of four characters is a proper segment. *)
Lemma proper_suffix s t : (3 ≤ String.length t)%nat → proper (s +:+ t).
Proof.
  intros Ht. repeat split; intros Heq; apply (f_equal String.length) in Heq;
    rewrite length_append in Heq; simpl in Heq; lia.
Qed.

Lemma normalize_proper stack segment rest :
  proper segment →
  normalize stack (segment :: rest) = normalize (segment :: stack) rest.
Proof.
  intros (H1 & H2 & H3). simpl.
  rewrite decide_False by (intros [?|?]; done).
  by rewrite decide_False.
Qed.

Lemma normalize_app stack segments :
  ∃ stack', ∀ more,
    normalize stack (segments ++ more) = normalize stack' more.
Proof.
  revert stack. induction segments as [|segment segments IH]; intros stack.
  - by exists stack.
  - simpl. destruct (decide _); [apply IH|].
    destruct (decide _); apply IH.
Qed.

(** The pieces of a text with a suffix: those of the text, the last one
    with the suffix. *)
Lemma split_suffix c s t :
  includes c t = false →
  ∃ init piece, split c s = init ++ [piece]
                ∧ split c (s +:+ t) = init ++ [piece +:+ t].
Proof.
  intros Ht. induction s as [|a s (init & piece & Hs & Hst)].
  - exists [], "". split; [done|]. rewrite !append_nil_l.
    by apply split_without.
  - rewrite append_cons. simpl. rewrite Hs, Hst.
    destruct (Ascii.eqb a c).
    + by exists ("" :: init), piece.
    + destruct init as [|p init]; simpl.
      * by exists [], (String a piece).
      * by exists (String a p :: init), piece.
Qed.

(** The last segment of a joined path is the last piece of the name, when
    that is a proper segment. *)
Lemma last_path_join dir s t :
  includes slash t = false → (3 ≤ String.length t)%nat →
  ∃ piece, last (path_join dir (s +:+ t)) = Some (piece +:+ t).
Proof.
  intros Ht Hlen. destruct (split_suffix slash s t Ht)
    as (init & piece & _ & Hsplit).
  exists piece. unfold path_join. rewrite Hsplit.
  destruct (normalize_app (reverse dir) init) as (stack' & Hstack).
  rewrite Hstack. rewrite normalize_proper by by apply proper_suffix.
  simpl. by rewrite reverse_cons, last_snoc.
Qed.

(** A name without [/] that is a proper segment names a file of the
    directory itself. *)
Lemma path_join_plain dir name :
  includes slash name = false → proper name →
  path_join dir name = dir ++ [name].
Proof.
  intros Hname Hproper. unfold path_join. rewrite split_without by done.
  rewrite normalize_proper by done. simpl.
  by rewrite reverse_cons, reverse_involutive.
Qed.

Lemma strip_app prefix rest : strip prefix (prefix ++ rest) = Some rest.
Proof.
  induction prefix as [|a prefix IH]; [done|]. simpl.
  by rewrite decide_True.
Qed.

Lemma strip_Some prefix path rest :
  strip prefix path = Some rest → path = prefix ++ rest.
Proof.
  revert path. induction prefix as [|a prefix IH]; intros path.
  - by intros [= ->].
  - destruct path as [|b path]; [done|]. simpl.
    destruct (decide (a = b)) as [->|]; [|done].
    intros Hrest. by rewrite (IH _ Hrest).
Qed.

Lemma directory_of_name d : directory_of (directory_name d) = Some d.
Proof. by destruct d. Qed.

Lemma locate_within d name :
  Server.locate (Server.directory_path d ++ [name]) = Within d name.
Proof.
  unfold Server.locate, Server.directory_path.
  rewrite <- app_assoc, strip_app. simpl. by rewrite directory_of_name.
Qed.

Lemma file_name_locate path :
  basename (Server.locate path) = last path.
Proof.
  unfold Server.locate.
  destruct (strip Server.STORAGE_DIR path) as [rest|] eqn:Hstrip; [|done].
  destruct rest as [|d [|name [|more rest]]]; try done.
  destruct (directory_of d); [|done].
  apply strip_Some in Hstrip. rewrite Hstrip. simpl.
  change [d; name] with ([d] ++ [name]).
  by rewrite app_assoc, last_snoc.
Qed.

(** The two artifacts of a file id are different files, whatever the id. *)
Lemma filePath_ne_metadataPath a b :
  Server.filePath a ≠ Server.metadataPath b.
Proof.
  intros Heq. apply (f_equal basename) in Heq.
  unfold Server.filePath, Server.metadataPath in Heq.
  rewrite !file_name_locate in Heq.
  destruct (last_path_join (Server.directory_path in_FILES_DIR) a ".enc")
    as (p & Hp); [done|simpl; lia|].
  destruct (last_path_join (Server.directory_path in_METADATA_DIR) b
              ".meta") as (q & Hq); [done|simpl; lia|].
  rewrite Hp, Hq in Heq. injection Heq as Heq.
  assert (∀ s t : string, s +:+ ".enc" ≠ t +:+ ".meta") as Hsuffix.
  { clear. induction s as [|x s IH]; intros [|y t]; try done.
    - intros Heq. apply (f_equal String.length) in Heq.
      rewrite append_cons in Heq. simpl in Heq.
      rewrite length_append in Heq. simpl in Heq. lia.
    - destruct s as [|z s]; [done|].
      intros Heq. apply (f_equal String.length) in Heq.
      rewrite !append_cons in Heq. simpl in Heq.
      rewrite length_append in Heq. simpl in Heq. lia.
    - rewrite !append_cons. intros [= _ Heq]. by apply (IH t). }
  by apply (Hsuffix p q).
Qed.

(** An id without [/] names the two files of the two directories. *)
Lemma filePath_plain fileId :
  includes slash fileId = false →
  Server.filePath fileId = Within in_FILES_DIR (fileId +:+ ".enc").
Proof.
  intros Hid. unfold Server.filePath. rewrite path_join_plain.
  - apply locate_within.
  - rewrite includes_app, Hid. done.
  - apply proper_suffix. simpl. lia.
Qed.

Lemma metadataPath_plain fileId :
  includes slash fileId = false →
  Server.metadataPath fileId
  = Within in_METADATA_DIR (fileId +:+ ".meta").
Proof.
  intros Hid. unfold Server.metadataPath. rewrite path_join_plain.
  - apply locate_within.
  - rewrite includes_app, Hid. done.
  - apply proper_suffix. simpl. lia.
Qed.

(** [./id] names the files of [id]. *)
Lemma filePath_dot fileId :
  Server.filePath ("./" +:+ fileId) = Server.filePath fileId.
Proof.
  unfold Server.filePath, path_join.
  change (("./" +:+ fileId) +:+ ".enc")
    with ("." +:+ String slash (fileId +:+ ".enc")).
  rewrite split_app by done. cbn [normalize].
  by rewrite decide_True by by right.
Qed.




(** Reading after writing and after removing. *)
Lemma readJson_writeJson st place place' content :
  Server.readJson (Server.writeJson place' content st) place
  = if decide (place = place') then Some content
    else Server.readJson st place.
Proof.
  destruct (decide (place = place')) as [->|Hne].
  - destruct place' as [[] name|path]; simpl; apply lookup_insert_eq.
  - destruct place' as [[] name'|path'], place as [[] name|path]; simpl;
      try done; apply lookup_insert_ne; congruence.
Qed.

Lemma readJson_writeJson_eq st place content :
  Server.readJson (Server.writeJson place content st) place = Some content.
Proof. rewrite readJson_writeJson. by rewrite decide_True. Qed.

Lemma readJson_writeJson_ne st place place' content :
  place ≠ place' →
  Server.readJson (Server.writeJson place' content st) place
  = Server.readJson st place.
Proof. intros Hne. rewrite readJson_writeJson. by rewrite decide_False. Qed.





Lemma writeJson_writeJson st place content content' :
  Server.writeJson place content' (Server.writeJson place content st)
  = Server.writeJson place content' st.
Proof.
  destruct place as [[] name|path]; simpl;
    unfold Server.with_files, Server.with_vault_items,
      Server.with_elsewhere; simpl; by rewrite insert_insert_eq.
Qed.

Lemma writeJson_comm st p q c d :
  p ≠ q →
  Server.writeJson p c (Server.writeJson q d st)
  = Server.writeJson q d (Server.writeJson p c st).
Proof.
  intros Hne.
  destruct p as [[] a|a], q as [[] b|b]; simpl;
    unfold Server.with_files, Server.with_vault_items,
      Server.with_elsewhere; simpl; try done;
    f_equal; apply insert_insert_ne; congruence.
Qed.

End PathFacts.

(** ** GET /api/files/:fileId: the integrity check *)

Section DownloadFacts.
Context {crypto_js : CryptoJS} {node_js : NodeJS}.
Context {deployment : Deployment} {express : Express}.

(** What an upload leaves on the disk. *)
Lemma upload_file_stored st f description category W e fileId now :
  filesize f ≤ 100 * 1024 * 1024 →
  let text := Buffer_toString_base64 (buffer f) in
  let body := FileEncryption.encrypt text W e in
  let metadata :=
    JSON_stringify (Server.metadata_of fileId f description category now
                      text) in
  (Server.upload_file st (Some f) description category W e fileId now).1.1
  = Server.writeJson (Server.metadataPath fileId)
      (FileEncryption.encrypt metadata W body.2).1
      (Server.writeJson (Server.filePath fileId) body.1 st).
Proof.
  intros Hsize text body metadata. subst text body metadata.
  unfold Server.upload_file.
  assert ((100 * 1024 * 1024 <? filesize f) = false) as ->
    by (apply Z.ltb_ge; lia).
  destruct (FileEncryption.encrypt (Buffer_toString_base64 (buffer f)) W e)
    as [encryptedFile e1].
  cbn [fst snd].
  by destruct (FileEncryption.encrypt _ W e1) as [encryptedMetadata e2].
Qed.

(** The download of an uploaded file whose stored body is [body']: what the
    handler answers is decided by what [body'] decrypts to and, once the
    checksum agrees, by what Express makes of the headers. *)
Lemma get_file_with_body st f description category W e fileId now body' :
  key_round_trip → hex_parse_stringify → json_round_trip →
  digest_nonempty →
  (10 ≤ String.length fileId)%nat →
  filesize f ≤ 100 * 1024 * 1024 →
  Server.get_file
    (Server.with_file_body fileId body'
       (Server.upload_file st (Some f) description category W e fileId
                           now).1.1)
    fileId W
  = match FileEncryption.decrypt body' W with
    | Ok text' =>
        if bool_decide (SHA256 (Buffer_toString_base64 (buffer f))
                        = SHA256 text')
        then
          match
            Server.set_all
              [("Content-Type", Some (JStr (mimetype f)));
               ("Content-Length",
                Some (JNum (Z.of_nat (length (Buffer_from_base64 text')))));
               ("Content-Disposition",
                Some (JStr ("attachment; filename="
                            +:+ String Server.quote
                                  (originalname f
                                   +:+ String Server.quote ""))));
               ("X-File-ID", Some (JStr fileId));
               ("X-Upload-Date", Some (JStr (Date_toISOString now)))]
          with
          | Ok sent => Sent sent (Buffer_from_base64 text')
          | Throw m => Server.read_error "Download failed" "DOWNLOAD_ERROR" m
          end
        else Server.integrity_error
    | Throw m => Server.read_error "Download failed" "DOWNLOAD_ERROR" m
    end.
Proof.
  intros Hrt Hhex Hjson Hdigest Hid Hsize.
  rewrite upload_file_stored by done. cbv zeta.
  unfold Server.get_file, Server.with_file_body.
  assert (truthy fileId = true) as ->
    by (destruct fileId; [simpl in Hid; lia|done]).
  assert ((String.length fileId <? 10)%nat = false) as ->
    by (by apply Nat.ltb_ge).
  cbn [negb orb]. rewrite readJson_writeJson_eq.
  rewrite readJson_writeJson_ne
    by apply not_eq_sym, filePath_ne_metadataPath.
  rewrite readJson_writeJson_eq.
  unfold Server.download_body. rewrite !retryOperation_same.
  rewrite FileEncryption_round_trip by done. cbn [mbind result_bind].
  rewrite Hjson.
  destruct (FileEncryption.decrypt body' W) as [text'|m]; [|done].
  unfold Server.metadata_of, Server.download_headers.
  simpl. rewrite Hdigest. simpl.
  case_bool_decide as Hsum; [|done]. cbn [negb].
  match goal with |- _ = match ?x with _ => _ end => by destruct x end.
Qed.

(** The download of a file as the upload stored it: its bytes are sent,
    under the headers made from the recorded type, the length of the
    content, the recorded name, the id asked for and the recorded date,
    unless Express refuses one of the header values, a name with a line
    break for one; then the [catch] of the handler answers. *)
Theorem download_after_upload (st : Storage) (f : UploadedFile)
    (description category : option string) (W : string) (e : Entropy)
    (fileId : string) (now : Z) :
  key_round_trip → hex_parse_stringify → json_round_trip →
  digest_nonempty → base64_round_trip →
  (10 ≤ String.length fileId)%nat →
  filesize f ≤ 100 * 1024 * 1024 →
  Server.get_file
    (Server.upload_file st (Some f) description category W e fileId now).1.1
    fileId W
  = match
      Server.set_all
        [("Content-Type", Some (JStr (mimetype f)));
         ("Content-Length", Some (JNum (Z.of_nat (length (buffer f)))));
         ("Content-Disposition",
          Some (JStr ("attachment; filename="
                      +:+ String Server.quote
                            (originalname f +:+ String Server.quote ""))));
         ("X-File-ID", Some (JStr fileId));
         ("X-Upload-Date", Some (JStr (Date_toISOString now)))]
    with
    | Ok sent => Sent sent (buffer f)
    | Throw m =>
        if Json.includes_text "decrypt" m then
          Json 401 (JObj [("error",
                           JStr "Decryption failed - invalid master password");
                          ("code", JStr "DECRYPTION_ERROR")])
        else
          Json 500 (JObj [("error", JStr "Download failed");
                          ("code", JStr "DOWNLOAD_ERROR");
                          ("details", JStr m)])
    end.
Proof.
  intros Hrt Hhex Hjson Hdigest Hbase64 Hid Hsize.
  pose proof (get_file_with_body st f description category W e fileId now
                (FileEncryption.encrypt (Buffer_toString_base64 (buffer f))
                                        W e).1
                Hrt Hhex Hjson Hdigest Hid Hsize) as Hget.
  rewrite FileEncryption_round_trip in Hget by done.
  rewrite bool_decide_eq_true_2, Hbase64 in Hget by done.
  unfold Server.read_error in Hget.
  rewrite <- Hget. f_equal.
  rewrite upload_file_stored by done. cbv zeta.
  unfold Server.with_file_body.
  rewrite (writeJson_comm _ (Server.filePath fileId)
             (Server.metadataPath fileId))
    by apply filePath_ne_metadataPath.
  by rewrite writeJson_writeJson.
Qed.

(** C6, as amended: after an upload, whatever replaces the stored encrypted
    body of the file, one corrupted byte included, the download under the
    same password is decided by what that body decrypts to. It answers 500
    INTEGRITY_ERROR exactly when the body still decrypts to a text whose
    SHA-256 differs from the checksum kept in the metadata; when decrypting
    raises, as the library does on bytes that are not UTF-8, it answers
    500 DOWNLOAD_ERROR; and it sends content only when the SHA-256 of the
    decrypted text equals the stored checksum, the content being that text
    decoded from Base64, under the headers made from the metadata, unless
    Express refuses one of them. *)
Theorem download_checks_integrity (st : Storage) (f : UploadedFile)
    (description category : option string) (W : string) (e : Entropy)
    (fileId : string) (now : Z) (body' : EncryptedData) :
  key_round_trip → hex_parse_stringify → json_round_trip →
  digest_nonempty →
  (10 ≤ String.length fileId)%nat →
  filesize f ≤ 100 * 1024 * 1024 →
  let checksum := SHA256 (Buffer_toString_base64 (buffer f)) in
  let decrypted :=
    Utf8_stringify
      (AES_decrypt_key (encrypted body')
                       (PBKDF2_words W (Hex_parse (salt body')))
                       (Hex_parse (iv body'))) in
  let answer :=
    Server.get_file
      (Server.with_file_body fileId body'
         (Server.upload_file st (Some f) description category W e fileId
                             now).1.1)
      fileId W in
  (answer = Json 500 (JObj [("error", JStr "File integrity check failed");
                            ("code", JStr "INTEGRITY_ERROR")]) ↔
   ∃ text', decrypted = Some text' ∧ checksum ≠ SHA256 text')
  ∧ (decrypted = None →
     answer = Json 500 (JObj [("error", JStr "Download failed");
                              ("code", JStr "DOWNLOAD_ERROR");
                              ("details", JStr "Malformed UTF-8 data")]))
  ∧ (∀ headers content,
       answer = Sent headers content →
       ∃ text', decrypted = Some text'
                ∧ checksum = SHA256 text'
                ∧ content = Buffer_from_base64 text')
  ∧ (∀ text', decrypted = Some text' →
              checksum = SHA256 text' →
              answer
              = match
                  Server.set_all
                    [("Content-Type", Some (JStr (mimetype f)));
                     ("Content-Length",
                      Some (JNum (Z.of_nat
                                    (length (Buffer_from_base64 text')))));
                     ("Content-Disposition",
                      Some (JStr ("attachment; filename="
                                  +:+ String Server.quote
                                        (originalname f
                                         +:+ String Server.quote ""))));
                     ("X-File-ID", Some (JStr fileId));
                     ("X-Upload-Date",
                      Some (JStr (Date_toISOString now)))]
                with
                | Ok sent => Sent sent (Buffer_from_base64 text')
                | Throw m =>
                    if Json.includes_text "decrypt" m then
                      Json 401
                        (JObj [("error",
                                JStr "Decryption failed - invalid master password");
                               ("code", JStr "DECRYPTION_ERROR")])
                    else
                      Json 500 (JObj [("error", JStr "Download failed");
                                      ("code", JStr "DOWNLOAD_ERROR");
                                      ("details", JStr m)])
                end).
Proof.
  intros Hrt Hhex Hjson Hdigest Hid Hsize checksum decrypted answer.
  subst checksum answer. rewrite get_file_with_body by done.
  unfold FileEncryption.decrypt. fold decrypted.
  unfold Server.read_error, Server.integrity_error.
  destruct decrypted as [text'|].
  - case_bool_decide as Hsum.
    + split; [split|].
      { destruct (Server.set_all _) as [sent|m]; [done|].
        by destruct (Json.includes_text "decrypt" m). }
      { intros (t & [= <-] & Hne). done. }
      split; [done|]. split.
      * intros headers content Heq. exists text'.
        split; [done|]. split; [done|].
        destruct (Server.set_all _) as [sent|m].
        -- by injection Heq as _ <-.
        -- by destruct (Json.includes_text "decrypt" m).
      * by intros t [= <-] _.
    + split; [split; [intros _; by exists text'|done]|].
      split; [done|]. split; [done|].
      intros t [= <-] Heq. done.
  - split; [split; [done|by intros (t & ? & _)]|].
    split; [done|]. split; done.
Qed.

End DownloadFacts.

(** The first byte of the stored body overwritten so that the body still
    decrypts to text: the download answers with the integrity error. *)
Lemma download_checks_integrity_witness :
  @Server.get_file Reference.crypto Reference.node Reference.deployment
    Reference.express
    (@Server.with_file_body Reference.deployment Scenario.note_id
       (Scenario.corrupt "1" Scenario.note_body) Scenario.storage_with_note)
    Scenario.note_id Scenario.masterPassword
  = Json 500 (JObj [("error", JStr "File integrity check failed");
                    ("code", JStr "INTEGRITY_ERROR")]).
Proof.
  pose proof (@download_checks_integrity Reference.crypto Reference.node
                Reference.deployment Reference.express
                Scenario.empty_storage Scenario.note_file None None
                Scenario.masterPassword 0%nat Scenario.note_id 1700000000000
                (Scenario.corrupt "1" Scenario.note_body)
                reference_key_round_trip reference_hex_round_trip
                reference_json_round_trip reference_digest_nonempty)
    as Hdownload.
  cbv zeta in Hdownload.
  destruct Hdownload as (Hintegrity & _).
  - apply Nat.leb_le. reflexivity.
  - discriminate.
  - apply Hintegrity. exists "F869". split; [reflexivity|discriminate].
Defined.

(** C6 as stated fails: the file is uploaded, the first byte of its stored
    encrypted body is overwritten, and the download under the same password
    does not answer with the integrity error. The body no longer decrypts
    to UTF-8 text, the library raises before the checksum is compared, and
    the [catch] answers 500 DOWNLOAD_ERROR. *)
Lemma corrupted_body_is_a_download_error :
  let body' := Scenario.corrupt "f" Scenario.note_body in
  let answer :=
    @Server.get_file Reference.crypto Reference.node Reference.deployment
      Reference.express
      (@Server.with_file_body Reference.deployment Scenario.note_id body'
         Scenario.storage_with_note)
      Scenario.note_id Scenario.masterPassword in
  FILES_DIR Scenario.storage_with_note
    !! "3f2b8c1e-0d4a-4b6f-9a77-5e1c2d3f4a5b.enc"
  = Some Scenario.note_body
  ∧ encrypted Scenario.note_body = "6f616f60"
  ∧ encrypted body' = "ff616f60"
  ∧ salt body' = salt Scenario.note_body
  ∧ iv body' = iv Scenario.note_body
  ∧ answer = Json 500 (JObj [("error", JStr "Download failed");
                             ("code", JStr "DOWNLOAD_ERROR");
                             ("details", JStr "Malformed UTF-8 data")])
  ∧ answer ≠ Json 500 (JObj [("error", JStr "File integrity check failed");
                             ("code", JStr "INTEGRITY_ERROR")]).
Proof.
  intros body' answer.
  assert (answer = Json 500 (JObj [("error", JStr "Download failed");
                                   ("code", JStr "DOWNLOAD_ERROR");
                                   ("details",
                                    JStr "Malformed UTF-8 data")]))
    as Hanswer.
  { subst answer. unfold Scenario.storage_with_note.
    rewrite (@get_file_with_body Reference.crypto Reference.node)
      by first [ apply reference_key_round_trip
               | apply reference_hex_round_trip
               | apply reference_json_round_trip
               | apply reference_digest_nonempty
               | (apply Nat.leb_le; reflexivity)
               | discriminate ].
    reflexivity. }
  split.
  { unfold Scenario.storage_with_note.
    rewrite (@upload_file_stored Reference.crypto Reference.node)
      by discriminate.
    cbv zeta.
    rewrite (@filePath_plain Reference.deployment) by reflexivity.
    rewrite (@metadataPath_plain Reference.deployment) by reflexivity.
    cbn [Server.writeJson Server.with_files FILES_DIR].
    apply lookup_insert_eq. }
  split; [reflexivity|]. split; [reflexivity|]. split; [reflexivity|].
  split; [reflexivity|]. split; [exact Hanswer|].
  rewrite Hanswer. discriminate.
Qed.

(** The note as uploaded comes back byte for byte, and Express adds the
    charset to its type; the same file under a name that holds a line break
    is not sent: Express refuses the header made from the name, and the
    [catch] answers 500 DOWNLOAD_ERROR. *)
Lemma download_after_upload_witness :
  @Server.get_file Reference.crypto Reference.node Reference.deployment
    Reference.express Scenario.storage_with_note Scenario.note_id
    Scenario.masterPassword
  = Sent [("Content-Type", "text/plain; charset=utf-8");
          ("Content-Length", "2");
          ("Content-Disposition",
           "attachment; filename="
           +:+ String Server.quote ("note.txt" +:+ String Server.quote ""));
          ("X-File-ID", Scenario.note_id);
          ("X-Upload-Date", "1700000000000")]
         ["h"; "i"]%char
  ∧ @Server.get_file Reference.crypto Reference.node Reference.deployment
      Reference.express
      (@Server.upload_file Reference.crypto Reference.node
         Reference.deployment Scenario.empty_storage
         (Some Scenario.two_line_file) None None Scenario.masterPassword
         0%nat Scenario.note_id 1700000000000).1.1
      Scenario.note_id Scenario.masterPassword
    = Json 500
        (JObj [("error", JStr "Download failed");
               ("code", JStr "DOWNLOAD_ERROR");
               ("details",
                JStr ("Invalid character in header content ["
                      +:+ String Server.quote
                            ("Content-Disposition"
                             +:+ String Server.quote "]")))]).
Proof.
  unfold Scenario.storage_with_note.
  rewrite !(@download_after_upload Reference.crypto Reference.node
              Reference.deployment Reference.express
              Scenario.empty_storage _ None None
              Scenario.masterPassword 0%nat Scenario.note_id 1700000000000
              reference_key_round_trip reference_hex_round_trip
              reference_json_round_trip reference_digest_nonempty
              reference_base64_round_trip);
    first [ (split; reflexivity)
          | (apply Nat.leb_le; reflexivity)
          | discriminate ].
Defined.

(** A first save whose verification is forced to fail: the save error is
    reported and the snapshot just written stays, for want of a backup. *)
Lemma first_save_is_not_undone_witness :
  let outcome :=
    @Server.post_vault_items Reference.crypto Reference.forgetful_node
      Scenario.empty_storage
      (Some (JArr [JObj [("id", JStr "9"); ("name", JStr "New")]]))
      Scenario.masterPassword 0%nat 1700000000000 in
  outcome.2 = Server.save_error "Verification failed: item count mismatch"
  ∧ VAULT_ITEMS_DIR outcome.1.1 !! Server.vaultItemsPath
    = Some (@Server.written Reference.crypto Reference.forgetful_node
              [JObj [("id", JStr "9"); ("name", JStr "New")]]
              Scenario.masterPassword 0%nat).
Proof.
  apply (@first_save_is_not_undone Reference.crypto Reference.forgetful_node
           Scenario.empty_storage
           [JObj [("id", JStr "9"); ("name", JStr "New")]]
           Scenario.masterPassword 0%nat 1700000000000).
  - reflexivity.
  - apply lookup_empty.
  - apply lookup_empty.
  - unfold Server.verify, Server.after_write.
    rewrite lookup_insert_eq. cbn [mbind result_bind].
    unfold Server.written.
    rewrite (@FileEncryption_round_trip Reference.crypto)
      by auto using reference_key_round_trip, reference_hex_round_trip.
    reflexivity.
Defined.

(** ** Records through [VaultCrypto], and the password check *)

Section RecordRoundTrip.
Context {crypto_js : CryptoJS}.

(** A vault item is its sensitive fields and the rest. *)
Lemma VaultItem_ext a b :
  clear_part a = clear_part b →
  (∀ f, get_field f a = get_field f b) → a = b.
Proof.
  intros Hclear Hfields.
  pose proof (Hfields f_password) as Hp.
  pose proof (Hfields f_username) as Hu.
  pose proof (Hfields f_description) as Hd.
  pose proof (Hfields f_url) as Hr.
  pose proof (Hfields f_linkUrl) as Hl.
  clear Hfields. destruct a, b. unfold clear_part in Hclear.
  simpl in Hp, Hu, Hd, Hr, Hl, Hclear.
  injection Hclear as -> -> -> -> -> -> -> -> -> -> -> -> -> ->.
  subst. reflexivity.
Qed.

(** A value that does not split into three parts is left as it is. *)
Lemma decrypt_or_keep_other W v :
  length (split colon v) ≠ 3%nat →
  VaultCrypto.decrypt_or_keep W (Some v) = Some v.
Proof.
  intros Hv. unfold VaultCrypto.decrypt_or_keep.
  destruct (truthy v && includes colon v); [|done].
  assert (VaultCrypto.decrypt v W = Throw VaultCrypto.decrypt_error) as ->
    by (apply decrypt_Throw_iff; by left).
  done.
Qed.

(** What a field holds after encryption comes back on decryption. *)
Lemma decrypt_or_keep_encrypted W before after :
  hex_has_no_colon → ciphertext_has_no_colon → passphrase_round_trip →
  encrypted_as W before after →
  VaultCrypto.decrypt_or_keep W after = before.
Proof.
  intros Hhex Hct Hrt. unfold encrypted_as.
  destruct before as [v|]; [|by intros ->].
  destruct (truthy v) eqn:Hv.
  - intros [e ->]. unfold VaultCrypto.decrypt_or_keep.
    rewrite encrypt_includes_colon.
    rewrite (includes_truthy colon) by apply encrypt_includes_colon.
    cbn [andb]. rewrite decrypt_encrypt by done. by rewrite Hv.
  - intros ->. unfold VaultCrypto.decrypt_or_keep. by rewrite Hv.
Qed.

Lemma get_encryptVaultItem item W e f :
  encrypted_as W (get_field f item)
    (get_field f (VaultCrypto.encryptVaultItem item W e).1).
Proof.
  pose proof (get_fold_encrypt W VaultCrypto.sensitiveFields (item, e) f
                sensitiveFields_NoDup) as Hf.
  by rewrite decide_True in Hf by apply sensitiveFields_all.
Qed.

Lemma clear_part_encryptVaultItem item W e :
  clear_part (VaultCrypto.encryptVaultItem item W e).1 = clear_part item.
Proof. apply (clear_part_fold_encrypt W _ (item, e)). Qed.

Lemma clear_part_decryptVaultItem item W :
  clear_part (VaultCrypto.decryptVaultItem item W) = clear_part item.
Proof. apply clear_part_fold_decrypt. Qed.

(** Decrypting an encrypted record gives the record back, whole: every
    sensitive field, absent, empty or not, and every other field. *)
Theorem decryptVaultItem_encryptVaultItem (item : VaultItem) (W : string)
    (e : Entropy) :
  hex_has_no_colon → ciphertext_has_no_colon → passphrase_round_trip →
  VaultCrypto.decryptVaultItem (VaultCrypto.encryptVaultItem item W e).1 W
  = item.
Proof.
  intros Hhex Hct Hrt. apply VaultItem_ext.
  - by rewrite clear_part_decryptVaultItem, clear_part_encryptVaultItem.
  - intros f. rewrite get_decryptVaultItem.
    apply decrypt_or_keep_encrypted; [done..|]. apply get_encryptVaultItem.
Qed.

(** A record whose sensitive fields hold no text of three colon-separated
    parts, such as a record stored in clear, passes through
    [decryptVaultItem] unchanged, under any password. *)
Theorem decryptVaultItem_passes_plaintext (item : VaultItem) (W : string) :
  (∀ f v, get_field f item = Some v → length (split colon v) ≠ 3%nat) →
  VaultCrypto.decryptVaultItem item W = item.
Proof.
  intros Hplain. apply VaultItem_ext.
  - apply clear_part_decryptVaultItem.
  - intros f. rewrite get_decryptVaultItem.
    destruct (get_field f item) as [v|] eqn:Hf; [|done].
    apply decrypt_or_keep_other. by eapply Hplain.
Qed.

(** [validateMasterPassword] raises nothing. Without test data, and with
    the empty string as test data, it tests the password on a text of its
    own and accepts every password; with an envelope made under the
    password it accepts; with test data that is no three-part envelope it
    refuses. *)
Theorem validateMasterPassword_cases (password : string) (e : Entropy) :
  hex_has_no_colon → ciphertext_has_no_colon → passphrase_round_trip →
  VaultCrypto.validateMasterPassword password None e = true
  ∧ VaultCrypto.validateMasterPassword password (Some "") e = true
  ∧ (∀ P e', P ≠ "" →
       VaultCrypto.validateMasterPassword password
         (Some (VaultCrypto.encrypt P password e').1) e = true)
  ∧ (∀ testData, testData ≠ "" →
       VaultCrypto.validateMasterPassword password (Some testData) e
       = is_Ok (VaultCrypto.decrypt testData password))
  ∧ (∀ testData, testData ≠ "" → length (split colon testData) ≠ 3%nat →
       VaultCrypto.validateMasterPassword password (Some testData) e
       = false).
Proof.
  intros Hhex Hct Hrt.
  assert (∀ t, present t = false →
            VaultCrypto.validateMasterPassword password t e = true)
    as Hself.
  { intros t Ht. unfold VaultCrypto.validateMasterPassword. rewrite Ht.
    pose proof (decrypt_encrypt "test_validation_string" password e
                  Hhex Hct Hrt) as Hdec.
    destruct (VaultCrypto.encrypt _ password e) as [encrypted e1].
    cbn [fst] in Hdec. rewrite Hdec. cbn [truthy].
    by rewrite bool_decide_eq_true_2. }
  assert (∀ t, t ≠ "" →
            VaultCrypto.validateMasterPassword password (Some t) e
            = is_Ok (VaultCrypto.decrypt t password)) as Hdata.
  { intros t Ht%truthy_nonempty. unfold VaultCrypto.validateMasterPassword.
    cbn [present]. by rewrite Ht. }
  split; [by apply Hself|]. split; [by apply Hself|].
  split; [|split; [done|]].
  - intros P e' HP. rewrite Hdata.
    + rewrite decrypt_encrypt by done.
      apply truthy_nonempty in HP. by rewrite HP.
    + apply truthy_nonempty, (includes_truthy colon),
        encrypt_includes_colon.
  - intros t Ht Hlen. rewrite Hdata by done.
    assert (VaultCrypto.decrypt t password
            = Throw VaultCrypto.decrypt_error) as ->
      by (apply decrypt_Throw_iff; by left).
    done.
Qed.

End RecordRoundTrip.

(** ** [vaultDB]: adding and reading items *)

Section ItemFacts.
Context {crypto_js : CryptoJS}.

(** The fields [add] and [addItem] set are not sensitive ones. *)
Lemma get_field_stamped f k created updated fav item :
  get_field f (set_id k (set_dates created updated
                           (set_isFavorite fav item)))
  = get_field f item.
Proof. by destruct f. Qed.

Lemma clear_part_stamped k created updated fav a b :
  clear_part a = clear_part b →
  clear_part (set_id k (set_dates created updated (set_isFavorite fav a)))
  = clear_part (set_id k (set_dates created updated (set_isFavorite fav b))).
Proof.
  unfold clear_part. simpl.
  intros [= _ -> -> -> -> -> -> _ _ _ -> -> -> ->]. reflexivity.
Qed.

(** What [decryptVaultItem] makes of a record that was encrypted and then
    given its key, its dates and its favourite flag. *)
Lemma decryptVaultItem_stamped item W e k created updated fav :
  hex_has_no_colon → ciphertext_has_no_colon → passphrase_round_trip →
  VaultCrypto.decryptVaultItem
    (set_id k (set_dates created updated
                 (set_isFavorite fav
                    (VaultCrypto.encryptVaultItem item W e).1))) W
  = set_id k (set_dates created updated (set_isFavorite fav item)).
Proof.
  intros Hhex Hct Hrt. apply VaultItem_ext.
  - rewrite clear_part_decryptVaultItem.
    apply clear_part_stamped, clear_part_encryptVaultItem.
  - intros f. rewrite get_decryptVaultItem, !get_field_stamped.
    apply decrypt_or_keep_encrypted; [done..|]. apply get_encryptVaultItem.
Qed.

Lemma filter_none {A} (P : A → Prop) `{∀ x, Decision (P x)} (l : list A) :
  (∀ x, x ∈ l → ¬ P x) → filter P l = [].
Proof.
  induction l as [|x l IH]; intros Hl; [done|].
  rewrite filter_cons_False by (apply Hl, elem_of_cons; auto).
  apply IH. intros y Hy. apply Hl, elem_of_cons. auto.
Qed.

(** In a table as Dexie keeps it, [get] finds the row just added under the
    key [add] returned, and the other keys find what they found. *)
Lemma get_add item t key :
  well_formed t →
  Dexie.get key (add item t).2
  = if decide (key = keygen t) then Some (set_id (Some (keygen t)) item)
    else Dexie.get key t.
Proof.
  intros [_ Hkeys]. unfold Dexie.get, add. cbn [snd rows].
  rewrite filter_app. case_decide as Hkey.
  - subst key. rewrite (filter_none _ (rows t)).
    + rewrite filter_cons_True by done. done.
    + intros r Hr Hid. rewrite Forall_forall in Hkeys.
      destruct (Hkeys r Hr) as (k & Hk & Hlt). rewrite Hk in Hid.
      injection Hid as ->. lia.
  - rewrite filter_cons_False, filter_nil, app_nil_r; [done|].
    simpl. congruence.
Qed.

Lemma well_formed_add item t : well_formed t → well_formed (add item t).2.
Proof.
  intros [Hnd Hkeys]. unfold add. split; cbn [snd rows keygen].
  - rewrite fmap_app. apply NoDup_app. split; [done|]. split.
    + intros k Hk [->|[]%elem_of_nil]%elem_of_cons.
      apply list_elem_of_fmap in Hk as (r & Hr & Hin).
      rewrite Forall_forall in Hkeys.
      destruct (Hkeys r Hin) as (j & Hj & Hlt). simpl in Hr.
      rewrite Hj in Hr. injection Hr as Hr. lia.
    + apply NoDup_singleton.
  - apply Forall_app. split.
    + eapply Forall_impl; [exact Hkeys|].
      intros r (k & Hk & Hlt). exists k. split; [done|lia].
    + constructor; [|done]. exists (keygen t). split; [done|lia].
Qed.

(** [addItem] in one equation. *)
Lemma addItem_unfold c item isFavorite now e :
  vaultDB.addItem c item isFavorite now e =
  let stored :=
    if truthy (_masterPassword c)
    then VaultCrypto.encryptVaultItem item (_masterPassword c) e
    else (item, e) in
  let row :=
    set_dates now now
      (set_isFavorite (Some (vaultDB.isFavoriteBoolean isFavorite))
                      stored.1) in
  (vaultDB.with_db (add row (db c)).2 c, stored.2, keygen (db c)).
Proof.
  unfold vaultDB.addItem.
  by destruct (if truthy (_masterPassword c) then _ else _) as [i e'].
Qed.

Lemma get_fresh t :
  well_formed t → Dexie.get (keygen t) t = None.
Proof.
  intros [_ Hkeys]. unfold Dexie.get.
  rewrite (filter_none _ (rows t)); [done|].
  intros r Hr Hid. rewrite Forall_forall in Hkeys.
  destruct (Hkeys r Hr) as (k & Hk & Hlt). rewrite Hk in Hid.
  injection Hid as ->. lia.
Qed.

(** [addItem] and [getItemById]: the item comes back as it was given, with
    the key returned as id, the time of the call as both dates and the
    favourite flag as a boolean, whether a master password is set or not;
    the other keys find what they found before, and the key is new. *)
Theorem addItem_then_getItemById (c : Client) (item : VaultItem)
    (isFavorite : option (bool + string)) (now : Z) (e : Entropy) :
  hex_has_no_colon → ciphertext_has_no_colon → passphrase_round_trip →
  well_formed (db c) →
  let after := (vaultDB.addItem c item isFavorite now e).1.1 in
  let itemId := (vaultDB.addItem c item isFavorite now e).2 in
  vaultDB.getItemById after itemId
  = Some (set_id (Some itemId)
            (set_dates now now
               (set_isFavorite
                  (Some (vaultDB.isFavoriteBoolean isFavorite)) item)))
  ∧ vaultDB.getItemById c itemId = None
  ∧ (∀ key, key ≠ itemId →
       vaultDB.getItemById after key = vaultDB.getItemById c key)
  ∧ well_formed (db after).
Proof.
  intros Hhex Hct Hrt Hwf after itemId. subst after itemId.
  rewrite addItem_unfold. cbv zeta. cbn [fst snd].
  unfold vaultDB.getItemById. cbn [db _masterPassword vaultDB.with_db].
  split; [|split; [|split]].
  - rewrite get_add by done. rewrite decide_True by done.
    destruct (truthy (_masterPassword c)); cbn [negb fst]; [|done].
    f_equal. by apply decryptVaultItem_stamped.
  - by rewrite get_fresh.
  - intros key Hkey. rewrite get_add by done. by rewrite decide_False.
  - by apply well_formed_add.
Qed.

(** While no master password is set, [addItem] stores the record as it is
    given: the row holds every sensitive field in clear, and the random
    source is not used. *)
Theorem addItem_locked_stores_plaintext (c : Client) (item : VaultItem)
    (isFavorite : option (bool + string)) (now : Z) (e : Entropy) :
  _masterPassword c = "" →
  well_formed (db c) →
  let after := vaultDB.addItem c item isFavorite now e in
  Dexie.get after.2 (db after.1.1)
  = Some (set_id (Some after.2)
            (set_dates now now
               (set_isFavorite
                  (Some (vaultDB.isFavoriteBoolean isFavorite)) item)))
  ∧ (∀ f row, Dexie.get after.2 (db after.1.1) = Some row →
              get_field f row = get_field f item)
  ∧ after.1.2 = e.
Proof.
  intros Hlocked Hwf after. subst after.
  rewrite addItem_unfold, Hlocked. cbv zeta.
  cbn [truthy fst snd db vaultDB.with_db].
  rewrite get_add by done. rewrite decide_True by done.
  split; [done|]. split; [|done].
  intros f row [= <-]. apply get_field_stamped.
Qed.

(** With a master password set, the row [addItem] stores holds, for every
    sensitive field given with a non-empty text, an envelope of three
    parts that decrypts to the text, and [getItemById] with the password
    cleared returns that row, envelopes included. *)
Theorem addItem_unlocked_stores_envelopes (c : Client) (item : VaultItem)
    (isFavorite : option (bool + string)) (now : Z) (e : Entropy) :
  hex_has_no_colon → ciphertext_has_no_colon → passphrase_round_trip →
  _masterPassword c ≠ "" →
  well_formed (db c) →
  let after := vaultDB.addItem c item isFavorite now e in
  ∃ row,
    Dexie.get after.2 (db after.1.1) = Some row
    ∧ vaultDB.getItemById (vaultDB.clearMasterPassword after.1.1) after.2
      = Some row
    ∧ ∀ f v, get_field f item = Some v → v ≠ "" →
        ∃ envelope,
          get_field f row = Some envelope
          ∧ length (split colon envelope) = 3%nat
          ∧ VaultCrypto.decrypt envelope (_masterPassword c) = Ok v.
Proof.
  intros Hhex Hct Hrt Hunlocked%truthy_nonempty Hwf after. subst after.
  rewrite addItem_unfold, Hunlocked. cbv zeta.
  cbn [fst snd db vaultDB.with_db]. eexists. split; [|split].
  - rewrite get_add by done. by rewrite decide_True.
  - unfold vaultDB.getItemById, vaultDB.clearMasterPassword.
    cbn [db _masterPassword vaultDB.with_db truthy negb].
    rewrite get_add by done. by rewrite decide_True.
  - intros f v Hf Hv%truthy_nonempty. rewrite get_field_stamped.
    pose proof (get_encryptVaultItem item (_masterPassword c) e f) as Henc.
    unfold encrypted_as in Henc. rewrite Hf, Hv in Henc.
    destruct Henc as [e' ->]. eexists. split; [done|]. split.
    + rewrite split_encrypt by done.
      by destruct (VaultCrypto.envelope_parts v (_masterPassword c) e')
        as [[? ?] ?].
    + rewrite decrypt_encrypt by done. by rewrite Hv.
Qed.

End ItemFacts.

(** ** [vaultDB]: what the synchronisation does to the local table *)

Section ClientSync.
Context {crypto_js : CryptoJS}.

Lemma index_le_total : Total index_le.
Proof. intros a b. unfold index_le. lia. Qed.

Lemma index_le_trans : Transitive index_le.
Proof. intros a b c. unfold index_le. lia. Qed.

(** [orderBy('createdAt').reverse()]: newest first, and among rows of one
    time the larger key first. *)
Lemma orderBy_createdAt_reverse_sorted t :
  StronglySorted (flip index_le) (orderBy_createdAt_reverse t).
Proof.
  pose proof index_le_total. pose proof index_le_trans.
  apply Sorted_StronglySorted; [apply _|].
  apply Sorted_reverse, Sorted_merge_sort. done.
Qed.

Lemma orderBy_createdAt_reverse_Permutation t :
  orderBy_createdAt_reverse t ≡ₚ rows t.
Proof.
  unfold orderBy_createdAt_reverse.
  by rewrite reverse_Permutation, merge_sort_Permutation.
Qed.

Lemma createdAt_decryptVaultItem item W :
  createdAt (VaultCrypto.decryptVaultItem item W) = createdAt item.
Proof.
  pose proof (clear_part_decryptVaultItem item W) as Hclear.
  unfold clear_part in Hclear. by simplify_eq.
Qed.

Lemma duplicate_key_decryptVaultItem item W :
  vaultDB.duplicate_key (VaultCrypto.decryptVaultItem item W)
  = vaultDB.duplicate_key item.
Proof.
  pose proof (clear_part_decryptVaultItem item W) as Hclear.
  unfold clear_part in Hclear. unfold vaultDB.duplicate_key.
  injection Hclear as _ -> -> _ _ _ _ -> _ _ _ _ _ _. reflexivity.
Qed.

Lemma category_decryptVaultItem item W :
  category (VaultCrypto.decryptVaultItem item W) = category item.
Proof.
  pose proof (clear_part_decryptVaultItem item W) as Hclear.
  unfold clear_part in Hclear. by simplify_eq.
Qed.

Lemma as_read_Permutation W l k : l ≡ₚ k → as_read W l ≡ₚ as_read W k.
Proof. intros Hp. unfold as_read. destruct (negb _); by rewrite Hp. Qed.

Lemma elem_of_as_read W l x :
  x ∈ as_read W l →
  ∃ row, row ∈ l ∧ id x = id row ∧ createdAt x = createdAt row
         ∧ category x = category row
         ∧ vaultDB.duplicate_key x = vaultDB.duplicate_key row
         ∧ (truthy W = false → x = row)
         ∧ (truthy W = true → x = VaultCrypto.decryptVaultItem row W).
Proof.
  unfold as_read. destruct (truthy W); cbn [negb].
  - intros (row & -> & Hrow)%list_elem_of_fmap. exists row.
    rewrite id_decryptVaultItem, createdAt_decryptVaultItem,
      category_decryptVaultItem, duplicate_key_decryptVaultItem.
    by repeat split.
  - intros Hx. exists x. by repeat split.
Qed.

(** [getAllItems] in one equation. *)
Lemma getAllItems_unfold c :
  NoDup (id <$> rows (db c)) →
  vaultDB.getAllItems c
  = (vaultDB.with_db {| rows := vaultDB.keep_first (rows (db c));
                        keygen := keygen (db c) |} c,
     as_read (_masterPassword c)
       (orderBy_createdAt_reverse
          {| rows := vaultDB.keep_first (rows (db c));
             keygen := keygen (db c) |})).
Proof.
  intros Hnd. unfold vaultDB.getAllItems.
  by rewrite removeDuplicateItems_once by done.
Qed.

Lemma well_formed_sublist l k g g' :
  l `sublist_of` k → g ≤ g' →
  well_formed {| rows := k; keygen := g |} →
  well_formed {| rows := l; keygen := g' |}.
Proof.
  intros Hsub Hg [Hnd Hkeys]. split; cbn [rows keygen] in *.
  - eapply sublist_NoDup; [exact Hnd|]. by apply fmap_sublist.
  - apply Forall_forall. intros r Hr. rewrite Forall_forall in Hkeys.
    destruct (Hkeys r) as (j & Hj & Hlt).
    + eapply elem_of_sublist; [|exact Hsub]. done.
    + exists j. split; [done|lia].
Qed.

Lemma well_formed_eta t :
  well_formed t → well_formed {| rows := rows t; keygen := keygen t |}.
Proof. by destruct t. Qed.

Lemma well_formed_keep_first t :
  well_formed t →
  well_formed {| rows := vaultDB.keep_first (rows t); keygen := keygen t |}.
Proof.
  intros Hwf. eapply well_formed_sublist;
    [apply keep_first_sublist|reflexivity|by apply well_formed_eta].
Qed.

(** [getAllItems] returns the collection without its duplicates, newest
    first: the rows that remain after the clean-up, each decrypted when a
    master password is set, ordered by creation time descending and, at
    equal times, by key descending. No two items returned share a key or
    the triple of name, category and creation time, and the table stays as
    Dexie keeps it. *)
Theorem getAllItems_newest_first (c : Client) :
  well_formed (db c) →
  let items := (vaultDB.getAllItems c).2 in
  StronglySorted (flip index_le) items
  ∧ items ≡ₚ as_read (_masterPassword c) (vaultDB.keep_first (rows (db c)))
  ∧ NoDup (id <$> items)
  ∧ NoDup (vaultDB.duplicate_key <$> items)
  ∧ rows (db (vaultDB.getAllItems c).1) = vaultDB.keep_first (rows (db c))
  ∧ well_formed (db (vaultDB.getAllItems c).1).
Proof.
  intros Hwf items. subst items. pose proof Hwf as [Hnd _].
  rewrite getAllItems_unfold by done. cbn [fst snd db vaultDB.with_db].
  set (t := {| rows := vaultDB.keep_first (rows (db c));
               keygen := keygen (db c) |}).
  pose proof (orderBy_createdAt_reverse_sorted t) as Hsorted.
  pose proof (orderBy_createdAt_reverse_Permutation t) as Hperm.
  assert (as_read (_masterPassword c) (orderBy_createdAt_reverse t)
          ≡ₚ as_read (_masterPassword c) (vaultDB.keep_first (rows (db c))))
    as Hread by by apply as_read_Permutation.
  split; [|split; [done|split; [|split; [|split; [done|]]]]].
  - unfold as_read. destruct (negb _); [done|].
    eapply StronglySorted_fmap; [|exact Hsorted].
    intros x y. unfold flip, index_le.
    by rewrite !createdAt_decryptVaultItem, !id_decryptVaultItem.
  - rewrite Hread. unfold as_read. destruct (negb _).
    + by apply keep_first_ids.
    + rewrite <- list_fmap_compose.
      erewrite list_fmap_ext; [by apply keep_first_ids|].
      intros i x _. simpl. apply id_decryptVaultItem.
  - rewrite Hread. unfold as_read. destruct (negb _).
    + apply keep_first_NoDup.
    + rewrite <- list_fmap_compose.
      erewrite list_fmap_ext; [apply keep_first_NoDup|].
      intros i x _. simpl. apply duplicate_key_decryptVaultItem.
  - by apply well_formed_keep_first.
Qed.




(** A load from the server that fails, in one equation. *)
Lemma syncVaultItemsFromServer_failed c r :
  load_success (vaultDB.loadVaultItemsFromServer c r).2 = false →
  vaultDB.syncVaultItemsFromServer c r
  = (c, (vaultDB.loadVaultItemsFromServer c r).1,
     {| sync_success := false; sync_synced := 0;
        sync_error := load_error (vaultDB.loadVaultItemsFromServer c r).2 |}).
Proof.
  unfold vaultDB.syncVaultItemsFromServer.
  destruct (vaultDB.loadVaultItemsFromServer c r) as [r1 res].
  cbn [fst snd]. intros ->. by destruct (load_items res).
Qed.

(** When the load from the server fails, the local table is not touched.
    The load fails exactly when no master password is set, the server does
    not answer the availability probe, or its answer to the request
    raises; [syncVaultItemsFromServer] then reports no success and zero
    items, and [autoSyncVaultItems] leaves the client as it is as well,
    reporting success only when the server was not available. *)
Theorem failed_load_keeps_local (c : Client) (r : Remote) :
  let load := (vaultDB.loadVaultItemsFromServer c r).2 in
  (load_success load = false
   ↔ _masterPassword c = "" ∨ head (probes r) ≠ Some true
     ∨ ∃ m, getVaultItems r = Throw m)
  ∧ (load_success load = false →
     (vaultDB.syncVaultItemsFromServer c r).1.1 = c
     ∧ (vaultDB.syncVaultItemsFromServer c r).2
       = {| sync_success := false; sync_synced := 0;
            sync_error := load_error load |}
     ∧ (vaultDB.autoSyncVaultItems c r).1.1 = c
     ∧ (success (vaultDB.autoSyncVaultItems c r).2 = true
        ↔ _masterPassword c ≠ "" ∧ head (probes r) ≠ Some true)).
Proof.
  intros load. subst load. split.
  - unfold vaultDB.loadVaultItemsFromServer.
    destruct (_masterPassword c) as [|a W] eqn:HW; cbn [truthy negb].
    { split; [by left|done]. }
    pose proof (isAvailable_getVaultItems r) as Hget.
    unfold isAvailable in *.
    destruct (probes r) as [|[|] bs]; cbn [negb fst snd head] in *.
    + split; [right; left; done|done].
    + rewrite Hget.
      destruct (getVaultItems r) as [items|m]; cbn [snd load_success].
      * split; [done|]. intros [?|[?|[m ?]]]; done.
      * split; [|done]. intros _. right. right. by exists m.
    + split; [right; left; done|done].
  - intros Hfail. rewrite syncVaultItemsFromServer_failed by done.
    cbn [fst snd]. split; [done|]. split; [done|].
    unfold vaultDB.autoSyncVaultItems.
    unfold vaultDB.loadVaultItemsFromServer in Hfail.
    destruct (_masterPassword c) as [|a W] eqn:HW; cbn [truthy negb] in *.
    { cbn [fst snd success]. split; [done|]. split; [done|]. by intros [? _]. }
    unfold isAvailable in *.
    destruct (probes r) as [|[|] bs] eqn:Hprobes;
      cbn [negb fst snd head success] in *.
    + split; [done|]. split; [done|]. by intros _.
    + set (r1 := {| probes := bs; getVaultItems := getVaultItems r;
                    saveVaultItems := saveVaultItems r;
                    pushed := pushed r |}) in *.
      assert (load_success (vaultDB.loadVaultItemsFromServer c r1).2 = false)
        as Hfail1.
      { unfold vaultDB.loadVaultItemsFromServer. rewrite HW.
        cbn [truthy negb].
        pose proof (isAvailable_getVaultItems r1) as Hget.
        destruct (isAvailable r1) as [available r2]. cbn [snd] in Hget.
        destruct (negb available); [done|]. rewrite Hget.
        subst r1. cbn [getVaultItems].
        by destruct (getVaultItems r). }
      rewrite syncVaultItemsFromServer_failed by done.
      cbn [fst snd success sync_success]. split; [done|].
      split; [done|]. intros [_ Hne]. done.
    + split; [done|]. split; [done|]. by intros _.
Qed.

Lemma imported_to_row k item :
  set_id (Some k) (vaultDB.imported item)
  = set_id (Some k) (wire_fields item).
Proof. unfold vaultDB.imported. by destruct (wire_fields item). Qed.

Lemma elem_of_keyed k items row :
  row ∈ vaultDB.keyed k items ↔
  ∃ j item, items !! j = Some item
            ∧ row = set_id (Some (k + Z.of_nat j)) item.
Proof.
  revert k. induction items as [|x l IH]; intros k; cbn [vaultDB.keyed].
  - split; [by intros ?%elem_of_nil|]. by intros (j & item & ? & _).
  - rewrite elem_of_cons, IH. split.
    + intros [->|(j & item & Hj & ->)].
      * exists 0%nat, x. split; [done|]. by rewrite Z.add_0_r.
      * exists (S j), item. split; [done|]. f_equal. f_equal. lia.
    + intros ([|j] & item & Hj & ->).
      * left. simpl in Hj. simplify_eq. by rewrite Z.add_0_r.
      * right. exists j, item. split; [done|]. f_equal. f_equal. lia.
Qed.

Lemma well_formed_keyed k items :
  well_formed {| rows := vaultDB.keyed k items;
                 keygen := k + Z.of_nat (length items) |}.
Proof.
  split; cbn [rows keygen]; [apply keyed_ids_NoDup|].
  apply Forall_forall. intros row (j & item & Hj & ->)%elem_of_keyed.
  apply lookup_lt_Some in Hj. eexists. split; [done|]. lia.
Qed.

(** A synchronisation from the server that succeeds replaces the local
    table by the snapshot: no row held before remains; every row held
    afterwards is an item of the snapshot as it was received, its
    sensitive fields included, under a key the table had not used before,
    whatever id the server sent; every item of the snapshot is there, or
    another item with its name, category and creation time is; and the
    number reported is the length of the snapshot. *)
Theorem syncVaultItemsFromServer_replaces (c : Client) (r : Remote) :
  well_formed (db c) →
  sync_success (vaultDB.syncVaultItemsFromServer c r).2 = true →
  let after := db (vaultDB.syncVaultItemsFromServer c r).1.1 in
  ∃ items,
    getVaultItems r = Ok items
    ∧ sync_synced (vaultDB.syncVaultItemsFromServer c r).2 = length items
    ∧ (∀ row, row ∈ rows (db c) → row ∉ rows after)
    ∧ (∀ row, row ∈ rows after →
         ∃ k item, item ∈ items ∧ keygen (db c) ≤ k
                   ∧ row = set_id (Some k) (wire_fields item))
    ∧ (∀ item, item ∈ items →
         ∃ row, row ∈ rows after
                ∧ vaultDB.duplicate_key row
                  = vaultDB.duplicate_key (wire_fields item))
    ∧ well_formed after.
Proof.
  intros [Hnd Hkeys] Hsuccess after. subst after.
  destruct (vaultDB.syncVaultItemsFromServer c r) as [[c' r'] res] eqn:Hsync.
  cbn [fst snd] in *.
  destruct (syncVaultItemsFromServer_success _ _ _ _ _ Hsync Hsuccess)
    as (items & Hitems & Hsynced & Hdb).
  exists items. rewrite Hdb. cbn [rows].
  assert (∀ row,
            row ∈ vaultDB.keep_first
                    (vaultDB.keyed (keygen (db c))
                       (vaultDB.imported <$> items)) →
            ∃ k item, item ∈ items ∧ keygen (db c) ≤ k
                      ∧ row = set_id (Some k) (wire_fields item)) as Hrows.
  { intros row Hrow.
    eapply elem_of_sublist in Hrow; [|apply keep_first_sublist].
    apply elem_of_keyed in Hrow as (j & x & Hj & ->).
    rewrite list_lookup_fmap in Hj.
    destruct (items !! j) as [item|] eqn:Hitem; [|done].
    simpl in Hj. simplify_eq.
    exists (keygen (db c) + Z.of_nat j), item.
    split; [by eapply list_elem_of_lookup_2|]. split; [lia|].
    apply imported_to_row. }
  split; [done|]. split; [done|]. split; [|split; [done|split]].
  - intros row Hrow Hin. destruct (Hrows row Hin) as (k & item & _ & Hk & ->).
    rewrite Forall_forall in Hkeys.
    destruct (Hkeys _ Hrow) as (j & Hj & Hlt). simpl in Hj.
    simplify_eq. lia.
  - intros item Hitem.
    assert (vaultDB.imported_key item
            ∈ vaultDB.duplicate_key
                <$> vaultDB.keep_first
                      (vaultDB.keyed (keygen (db c))
                         (vaultDB.imported <$> items))) as Hkey.
    { apply keep_first_keys. rewrite keyed_keys, <- list_fmap_compose.
      apply list_elem_of_fmap. by exists item. }
    apply list_elem_of_fmap in Hkey as (row & Hkey & Hrow).
    exists row. split; [done|]. rewrite <- Hkey.
    unfold vaultDB.imported_key, vaultDB.imported, vaultDB.duplicate_key.
    by destruct (wire_fields item).
  - eapply well_formed_sublist;
      [apply keep_first_sublist|reflexivity|].
    rewrite <- (length_fmap vaultDB.imported). apply well_formed_keyed.
Qed.

(** A push that succeeds, in one equation. *)
Lemma syncVaultItemsToServer_success c r :
  push_success (vaultDB.syncVaultItemsToServer c r).2 = true →
  truthy (_masterPassword c) = true
  ∧ (vaultDB.syncVaultItemsToServer c r).1.1 = (vaultDB.getAllItems c).1
  ∧ pushed (vaultDB.syncVaultItemsToServer c r).1.2
    = pushed r ++ [vaultDB.to_wire <$> (vaultDB.getAllItems c).2].
Proof.
  unfold vaultDB.syncVaultItemsToServer.
  destruct (truthy (_masterPassword c)); cbn [negb]; [|done].
  pose proof (isAvailable_pushed r) as Hpushed.
  destruct (isAvailable r) as [available r1]. cbn [snd] in Hpushed.
  destruct (negb available); [done|].
  destruct (vaultDB.getAllItems c) as [c1 items]. cbn [fst snd].
  destruct (saveVaultItems r1 _); [|done].
  intros _. cbn [fst snd record_push pushed]. by rewrite Hpushed.
Qed.

(** Push, then pull: the push sends the items decrypted, and the pull
    stores what it receives as it is. So when the server serves what was
    pushed to it, every row of the local table after the pull holds its
    sensitive fields as [decryptVaultItem] returned them: a field that
    held the envelope of a text now holds the text, in clear. *)
Theorem push_then_pull_stores_plaintext (c : Client) (r r' : Remote)
    (sent : list WireItem) :
  hex_has_no_colon → ciphertext_has_no_colon → passphrase_round_trip →
  well_formed (db c) →
  push_success (vaultDB.syncVaultItemsToServer c r).2 = true →
  last (pushed (vaultDB.syncVaultItemsToServer c r).1.2) = Some sent →
  getVaultItems r' = Ok sent →
  sync_success
    (vaultDB.syncVaultItemsFromServer
       (vaultDB.syncVaultItemsToServer c r).1.1 r').2 = true →
  ∀ row',
    row' ∈ rows (db (vaultDB.syncVaultItemsFromServer
                       (vaultDB.syncVaultItemsToServer c r).1.1 r').1.1) →
    ∃ row,
      row ∈ rows (db c)
      ∧ (∀ f, get_field f row'
              = VaultCrypto.decrypt_or_keep (_masterPassword c)
                  (get_field f row))
      ∧ (∀ f P e, P ≠ "" →
           get_field f row
           = Some (VaultCrypto.encrypt P (_masterPassword c) e).1 →
           get_field f row' = Some P).
Proof.
  intros Hhex Hct Hrt Hwf Hpush Hlast Hserved Hpull row' Hrow'.
  destruct (syncVaultItemsToServer_success c r Hpush)
    as (HW & Hclient & Hpushed).
  rewrite Hpushed, last_snoc in Hlast. injection Hlast as <-.
  rewrite Hclient in Hpull, Hrow'. clear Hclient Hpushed Hpush.
  pose proof Hwf as [Hnd _].
  destruct (vaultDB.syncVaultItemsFromServer (vaultDB.getAllItems c).1 r')
    as [[c' r''] res] eqn:Hsync. cbn [fst snd] in *.
  destruct (syncVaultItemsFromServer_success _ _ _ _ _ Hsync Hpull)
    as (items & Hitems & _ & Hdb).
  rewrite Hserved in Hitems. injection Hitems as <-.
  rewrite Hdb in Hrow'. cbn [rows] in Hrow'.
  eapply elem_of_sublist in Hrow'; [|apply keep_first_sublist].
  apply elem_of_keyed in Hrow' as (j & x & Hj & ->).
  rewrite !list_lookup_fmap in Hj.
  destruct ((vaultDB.getAllItems c).2 !! j) as [item|] eqn:Hitem; [|done].
  simpl in Hj. simplify_eq. apply list_elem_of_lookup_2 in Hitem.
  rewrite getAllItems_unfold in Hitem by done. cbn [snd] in Hitem.
  rewrite (as_read_Permutation _ _ _
             (orderBy_createdAt_reverse_Permutation _)) in Hitem.
  cbn [rows] in Hitem.
  apply elem_of_as_read in Hitem as (row & Hrow & _ & _ & _ & _ & _ & Hdec).
  specialize (Hdec HW). subst item.
  exists row. split.
  { eapply elem_of_sublist; [exact Hrow|apply keep_first_sublist]. }
  assert (∀ f, get_field f
                 (set_id (Some (keygen (db (vaultDB.getAllItems c).1)
                                + Z.of_nat j))
                    (vaultDB.imported
                       (vaultDB.to_wire
                          (VaultCrypto.decryptVaultItem row
                             (_masterPassword c)))))
               = VaultCrypto.decrypt_or_keep (_masterPassword c)
                   (get_field f row)) as Hfields.
  { intros f. rewrite imported_to_row. cbn [vaultDB.to_wire wire_fields].
    rewrite <- get_decryptVaultItem. by destruct f. }
  split; [done|]. intros f P e HP Hf. rewrite Hfields, Hf.
  apply (decrypt_or_keep_encrypted _ (Some P)); [done..|].
  unfold encrypted_as. apply truthy_nonempty in HP. rewrite HP. by exists e.
Qed.

(** The table stays as Dexie keeps it, and keys are never reused: after
    each operation of [vaultDB] that writes, the rows have pairwise
    distinct keys below the key generator, and the generator has not
    moved back. *)
Theorem well_formed_preserved (c : Client) (r : Remote) (item : VaultItem)
    (isFavorite : option (bool + string)) (now : Z) (e : Entropy) :
  well_formed (db c) →
  let keeps c' := well_formed (db c') ∧ keygen (db c) ≤ keygen (db c') in
  keeps (vaultDB.addItem c item isFavorite now e).1.1
  ∧ keeps (vaultDB.getAllItems c).1
  ∧ keeps (vaultDB.syncVaultItemsToServer c r).1.1
  ∧ keeps (vaultDB.syncVaultItemsFromServer c r).1.1
  ∧ keeps (vaultDB.autoSyncVaultItems c r).1.1.
Proof.
  intros Hwf keeps. subst keeps. cbv beta. pose proof Hwf as [Hnd _].
  assert (well_formed (db (vaultDB.getAllItems c).1)
          ∧ keygen (db c) ≤ keygen (db (vaultDB.getAllItems c).1)) as Hall.
  { rewrite getAllItems_unfold by done. cbn [fst db vaultDB.with_db keygen].
    split; [by apply well_formed_keep_first|done]. }
  assert (∀ r0, well_formed (db (vaultDB.syncVaultItemsFromServer c r0).1.1)
                ∧ keygen (db c)
                  ≤ keygen (db (vaultDB.syncVaultItemsFromServer c r0).1.1))
    as Hfrom.
  { intros r0.
    destruct (vaultDB.syncVaultItemsFromServer c r0) as [[c' r'] res] eqn:Hs.
    cbn [fst].
    destruct (sync_success res) eqn:Hres.
    - destruct (syncVaultItemsFromServer_success _ _ _ _ _ Hs Hres)
        as (items & _ & _ & ->). cbn [keygen]. split; [|lia].
      eapply well_formed_sublist;
        [apply keep_first_sublist|reflexivity|].
      rewrite <- (length_fmap vaultDB.imported). apply well_formed_keyed.
    - assert (c' = c) as ->; [|done].
      revert Hs. unfold vaultDB.syncVaultItemsFromServer.
      destruct (vaultDB.loadVaultItemsFromServer c r0) as [r1 lres].
      destruct (load_items lres) as [items|]; [|congruence].
      destruct (negb (load_success lres)); [congruence|].
      rewrite add_all.
      destruct (vaultDB.removeDuplicateItems _) as [t3 ?].
      intros [= <- <- <-]. done. }
  split; [|split; [done|split; [|split; [done|]]]].
  - rewrite addItem_unfold. cbv zeta. cbn [fst db vaultDB.with_db].
    split; [by apply well_formed_add|]. unfold add. cbn [snd keygen]. lia.
  - unfold vaultDB.syncVaultItemsToServer.
    destruct (negb (truthy (_masterPassword c))); [done|].
    destruct (isAvailable r) as [available r1].
    destruct (negb available); [done|].
    destruct (vaultDB.getAllItems c) as [c1 items]. cbn [fst] in Hall.
    by destruct (saveVaultItems r1 _).
  - unfold vaultDB.autoSyncVaultItems.
    destruct (negb (truthy (_masterPassword c))); [done|].
    destruct (isAvailable r) as [available r1].
    destruct (negb available); [done|].
    specialize (Hfrom r1).
    by destruct (vaultDB.syncVaultItemsFromServer c r1) as [[c2 r2] res].
Qed.

End ClientSync.

(** ** The stored snapshot through its handlers *)

Section SnapshotFacts.
Context {crypto_js : CryptoJS} {node_js : NodeJS}.

(** The validation of GET /api/vault-items raises on no value. *)
Lemma valid_item_has_id item :
  Json.has_id item = true → Server.valid_item item = Ok true.
Proof.
  unfold Json.has_id, Json.string_id, Server.valid_item.
  destruct item as [| b | n | s | xs | props]; try done. simpl.
  destruct (Json.lookup_prop "id" props) as [[| b | n | s | xs | ps]|];
    try done.
  simpl. by intros ->.
Qed.

Lemma filter_result_all (p : json → result bool) xs :
  Forall (λ x, p x = Ok true) xs → Json.filter_result p xs = Ok xs.
Proof.
  induction 1 as [|x l Hx _ IH]; [done|].
  cbn [Json.filter_result]. by rewrite Hx, IH.
Qed.

(** GET /api/vault-items on a snapshot written for items that all have a
    non-empty string id. *)
Lemma get_vault_items_written st xs W e now :
  key_round_trip → hex_parse_stringify → json_round_trip →
  VAULT_ITEMS_DIR st !! Server.vaultItemsPath
  = Some (Server.written xs W e) →
  Forall (λ x, Json.has_id x = true) xs →
  Server.get_vault_items st W now
  = Json 200 (JObj [("items", JArr xs);
                    ("totalCount", JNum (Z.of_nat (length xs)));
                    ("timestamp", JStr (Date_toISOString now))]).
Proof.
  intros Hrt Hhex Hjson Hfile Hall. unfold Server.get_vault_items.
  rewrite Hfile, retryOperation_same. unfold Server.written.
  rewrite FileEncryption_round_trip by done. cbn [mbind result_bind].
  rewrite Hjson. cbn [mbind result_bind Server.as_array].
  rewrite filter_result_all
    by (eapply Forall_impl; [exact Hall|apply valid_item_has_id]).
  cbn [mbind result_bind]. rewrite Nat.sub_diag. reflexivity.
Qed.

(** What is saved is what is loaded: after a save of items that all have a
    non-empty string id, GET /api/vault-items answers with exactly these
    items, in their order, counts them and reports no invalid item. *)
Theorem save_then_get (st : Storage) (xs : list json) (W : string)
    (e : Entropy) (now now' : Z) :
  key_round_trip → hex_parse_stringify → json_round_trip →
  Forall (λ x, Json.has_id x = true) xs →
  (Server.post_vault_items st (Some (JArr xs)) W e now).2
  = Server.saved_response (length xs) now
  ∧ Server.get_vault_items
      (Server.post_vault_items st (Some (JArr xs)) W e now).1.1 W now'
    = Json 200 (JObj [("items", JArr xs);
                      ("totalCount", JNum (Z.of_nat (length xs)));
                      ("timestamp", JStr (Date_toISOString now'))]).
Proof.
  intros Hrt Hhex Hjson Hall.
  rewrite post_vault_items_valid by by apply filter_result_valid.
  cbv zeta. rewrite verify_passes by done. cbn [fst snd]. split; [done|].
  eapply get_vault_items_written; [done..| |done].
  cbn [Server.with_vault_items VAULT_ITEMS_DIR].
  rewrite prune_backups_other by done.
  unfold Server.after_write. apply lookup_insert_eq.
Qed.

(** [FileEncryption.decrypt] raises one error only, the library's. *)
Lemma FileEncryption_decrypt_Throw body W m :
  FileEncryption.decrypt body W = Throw m → m = VaultCrypto.utf8_error.
Proof.
  unfold FileEncryption.decrypt. destruct (Utf8_stringify _); congruence.
Qed.

(** When decrypting the stored snapshot raises, as it does under a password
    that yields bytes that are no UTF-8, GET /api/vault-items answers 500
    GET_ERROR with the library's message: the answer 401 DECRYPTION_ERROR is
    chosen by the text of the message, and the only message decrypting
    raises does not contain 'decrypt'. *)
Theorem failed_decryption_is_not_401 (st : Storage) (W : string) (now : Z)
    (snapshot : EncryptedData) (m : string) :
  VAULT_ITEMS_DIR st !! Server.vaultItemsPath = Some snapshot →
  FileEncryption.decrypt snapshot W = Throw m →
  Server.get_vault_items st W now
  = Json 500 (JObj [("error", JStr "Failed to get vault items");
                    ("code", JStr "GET_ERROR");
                    ("details", JStr "Malformed UTF-8 data")]).
Proof.
  intros Hfile Hthrow. unfold Server.get_vault_items.
  rewrite Hfile, retryOperation_same, Hthrow.
  apply FileEncryption_decrypt_Throw in Hthrow as ->. reflexivity.
Qed.

(** The callbacks of the single-item handlers read [i.id], which raises on
    [null] only. *)
Lemma id_callback (q : option json → bool) item :
  item ≠ JNull →
  (v ← Json.get item "id"; Ok (q v))
  = Ok (q (match item with
           | JObj props => Json.lookup_prop "id" props
           | _ => None
           end)).
Proof. by destruct item. Qed.

Lemma strict_eq_string_id item itemId :
  Json.strict_eq_string (match item with
                         | JObj props => Json.lookup_prop "id" props
                         | _ => None
                         end) itemId
  = bool_decide (Json.string_id item = Some itemId).
Proof.
  unfold Json.string_id. destruct item as [| b | n | s | xs | props];
    try done.
  destruct (Json.lookup_prop "id" props) as [[| b | n | s | xs | ps]|];
    try done.
  simpl. apply bool_decide_ext. split; congruence.
Qed.

Lemma filter_Forall_id {A} (P : A → Prop) `{∀ x, Decision (P x)} l :
  Forall P l → filter P l = l.
Proof.
  induction 1 as [|x l Hx _ IH]; [done|].
  by rewrite filter_cons_True, IH.
Qed.

(** DELETE /api/vault-items/:itemId on a snapshot that reads as the array
    [xs]. *)
Lemma delete_vault_item_loaded st itemId W e now snapshot xs :
  VAULT_ITEMS_DIR st !! Server.vaultItemsPath = Some snapshot →
  Server.load_items snapshot W = Ok (JArr xs) →
  JNull ∉ xs →
  Server.delete_vault_item st itemId W e now =
  let kept := filter (λ x, Json.string_id x ≠ Some itemId) xs in
  if (length kept =? length xs)%nat then
    (st, e, Json 404 (JObj [("error", JStr "Item not found")]))
  else
    (Server.with_vault_items
       (<[Server.vaultItemsPath := Server.written kept W e]>
          (VAULT_ITEMS_DIR st)) st,
     (FileEncryption.encrypt (JSON_stringify (JArr kept)) W e).2,
     Json 200 (JObj [("success", JBool true); ("itemId", JStr itemId);
                     ("deletedAt", JStr (Date_toISOString now))])).
Proof.
  intros Hfile Hload Hnull. unfold Server.delete_vault_item.
  rewrite Hfile, Hload. cbn [mbind result_bind Json.length_of
                             Server.as_array].
  rewrite (filter_result_total _
             (λ x, bool_decide (Json.string_id x ≠ Some itemId))).
  2: { apply Forall_forall. intros x Hx.
       rewrite id_callback by (intros ->; done).
       rewrite strict_eq_string_id. f_equal.
       by destruct (decide (Json.string_id x = Some itemId));
         [rewrite bool_decide_eq_true_2, bool_decide_eq_false_2 by auto
         |rewrite bool_decide_eq_false_2, bool_decide_eq_true_2 by auto]. }
  cbn [mbind result_bind]. cbv zeta.
  assert (filter (λ x, bool_decide (Json.string_id x ≠ Some itemId) = true)
                 xs
          = filter (λ x, Json.string_id x ≠ Some itemId) xs) as ->.
  { apply list_filter_iff. intros x. by rewrite bool_decide_eq_true. }
  destruct (_ =? _)%nat; [done|]. unfold Server.written.
  by destruct (FileEncryption.encrypt _ W e).
Qed.

(** DELETE /api/vault-items/:itemId removes every item whose id is the
    path parameter and keeps the others in their order; when no item has
    that id it answers 404 and writes nothing, which is also what a second
    deletion of the same id does. *)
Theorem delete_vault_item_removes (st : Storage) (itemId W : string)
    (e : Entropy) (now now' : Z) (snapshot : EncryptedData)
    (xs : list json) :
  key_round_trip → hex_parse_stringify → json_round_trip →
  VAULT_ITEMS_DIR st !! Server.vaultItemsPath = Some snapshot →
  Server.load_items snapshot W = Ok (JArr xs) →
  JNull ∉ xs →
  let outcome := Server.delete_vault_item st itemId W e now in
  let kept := filter (λ x, Json.string_id x ≠ Some itemId) xs in
  (Forall (λ x, Json.string_id x ≠ Some itemId) xs →
   outcome = (st, e, Json 404 (JObj [("error", JStr "Item not found")])))
  ∧ (Exists (λ x, Json.string_id x = Some itemId) xs →
     outcome.2
     = Json 200 (JObj [("success", JBool true); ("itemId", JStr itemId);
                       ("deletedAt", JStr (Date_toISOString now))])
     ∧ Server.stored_items outcome.1.1 W = Ok (JArr kept)
     ∧ (Server.delete_vault_item outcome.1.1 itemId W outcome.1.2 now').2
       = Json 404 (JObj [("error", JStr "Item not found")])).
Proof.
  intros Hrt Hhex Hjson Hfile Hload Hnull outcome kept.
  subst outcome kept.
  rewrite (delete_vault_item_loaded _ _ _ _ _ _ _ Hfile Hload Hnull).
  cbv zeta. split.
  - intros Hall. rewrite filter_Forall_id by done.
    by rewrite Nat.eqb_refl.
  - intros (x & Hx & Hid)%Exists_exists.
    pose proof (length_filter_lt (λ x, Json.string_id x ≠ Some itemId)
                  xs x Hx) as Hlt.
    assert ((length (filter (λ x, Json.string_id x ≠ Some itemId) xs)
             =? length xs)%nat = false) as ->.
    { apply Nat.eqb_neq. pose proof (Hlt ltac:(auto)). lia. }
    cbn [fst snd]. split; [done|]. split.
    { eapply stored_items_written; [done..|]. apply lookup_insert_eq. }
    rewrite (delete_vault_item_loaded _ itemId W _ now'
               (Server.written
                  (filter (λ x, Json.string_id x ≠ Some itemId) xs) W e)
               (filter (λ x, Json.string_id x ≠ Some itemId) xs)).
    + cbv zeta. rewrite filter_Forall_id.
      * by rewrite Nat.eqb_refl.
      * apply Forall_forall. by intros y [Hy _]%list_elem_of_filter.
    + cbn [Server.with_vault_items VAULT_ITEMS_DIR]. apply lookup_insert_eq.
    + by apply load_written.
    + intros [_ Hin]%list_elem_of_filter. done.
Qed.

Lemma lookup_set_prop_ne k k' v props :
  k' ≠ k →
  Json.lookup_prop k (Json.set_prop k' v props) = Json.lookup_prop k props.
Proof.
  intros Hne. induction props as [|[k0 v0] ps IH]; simpl.
  - by rewrite decide_False.
  - destruct (decide (k0 = k')) as [->|Hk0]; simpl.
    + by rewrite !decide_False.
    + destruct (decide (k0 = k)); [done|apply IH].
Qed.

(** Spreading [source] over [target]: the last property of a name in
    [source] wins, and the properties of [target] that [source] does not
    name stay. *)
Lemma lookup_assign k target source :
  Json.lookup_prop k (Json.assign target source)
  = match Json.lookup_prop k (reverse source) with
    | Some v => Some v
    | None => Json.lookup_prop k target
    end.
Proof.
  unfold Json.assign. induction source as [|[k' v'] l IH] using rev_ind.
  - done.
  - rewrite fold_left_app, reverse_snoc. cbn [fold_left fst snd].
    cbn [Json.lookup_prop]. destruct (decide (k' = k)) as [->|Hne].
    + apply lookup_set_prop.
    + by rewrite lookup_set_prop_ne.
Qed.

Lemma findIndex_none (p : json → result bool) l :
  Forall (λ y, p y = Ok false) l → Json.findIndex p l = Ok None.
Proof.
  induction 1 as [|y l Hy _ IH]; [done|].
  cbn [Json.findIndex]. by rewrite Hy, IH.
Qed.

Lemma findIndex_first (p : json → result bool) l1 x l2 :
  Forall (λ y, p y = Ok false) l1 → p x = Ok true →
  Json.findIndex p (l1 ++ x :: l2) = Ok (Some (length l1)).
Proof.
  intros Hl1 Hx. induction Hl1 as [|y l Hy _ IH]; cbn [Json.findIndex app].
  - by rewrite Hx.
  - by rewrite Hy, IH.
Qed.

Lemma id_callback_string_id item itemId :
  item ≠ JNull →
  (v ← Json.get item "id"; Ok (Json.strict_eq_string v itemId))
  = Ok (bool_decide (Json.string_id item = Some itemId)).
Proof.
  intros Hitem. rewrite (id_callback (λ v, Json.strict_eq_string v itemId))
    by done.
  by rewrite strict_eq_string_id.
Qed.

(** On an array without [null] the update of an item raises nothing. *)
Lemma upsert_string_ids_total xs itemId item :
  JNull ∉ xs → ∃ ys, Server.upsert (JArr xs) itemId item = Ok ys.
Proof.
  intros Hnull. unfold Server.upsert.
  cbn [Server.as_array mbind result_bind].
  assert (∃ r, Json.findIndex
                 (λ i, v ← Json.get i "id";
                       Ok (Json.strict_eq_string v itemId)) xs = Ok r)
    as [r ->].
  { induction xs as [|x l IH]; [by eexists|]. cbn [Json.findIndex].
    rewrite id_callback_string_id
      by (intros ->; apply Hnull, elem_of_cons; auto).
    destruct (bool_decide _); [by eexists|].
    destruct IH as [r ->]; [|by eexists].
    intros Hin. apply Hnull, elem_of_cons. auto. }
  cbn [mbind result_bind]. destruct r as [k|]; [|by eexists].
  destruct (xs !! k); by eexists.
Qed.

(** PUT /api/vault-items/:itemId on items that read as the array [xs]. *)
Lemma put_vault_item_loaded st itemId item W e now xs ys :
  key_round_trip → hex_parse_stringify → json_round_trip →
  Json.truthy_value item = true →
  Server.stored_items st W = Ok (JArr xs) →
  Server.upsert (JArr xs) itemId item = Ok ys →
  (Server.put_vault_item st itemId (Some item) W e now).2
  = Json 200 (JObj [("success", JBool true); ("itemId", JStr itemId);
                    ("updatedAt", JStr (Date_toISOString now))])
  ∧ Server.stored_items
      (Server.put_vault_item st itemId (Some item) W e now).1.1 W
    = Ok (JArr ys).
Proof.
  intros Hrt Hhex Hjson Hitem Hstored Hupsert. unfold Server.put_vault_item.
  rewrite Hitem. cbn [negb]. rewrite Hstored. cbn [mbind result_bind].
  rewrite Hupsert.
  destruct (FileEncryption.encrypt _ W e) as [encryptedItems e'] eqn:Henc.
  cbn [fst snd]. split; [done|].
  eapply stored_items_written; [done..|]. rewrite lookup_insert_eq.
  unfold Server.written. by rewrite Henc.
Qed.

(** PUT /api/vault-items/:itemId replaces the first item whose id is the
    path parameter, in its place, by the old item overlaid with the
    properties sent, and appends the item sent when no item has that id; in
    both cases the id stored is the path parameter, the other items stay as
    they are, and of the properties of the item written, those sent win
    over those the old item had. *)
Theorem put_vault_item_merges (st : Storage) (itemId : string) (item : json)
    (W : string) (e : Entropy) (now : Z) (xs : list json) :
  key_round_trip → hex_parse_stringify → json_round_trip →
  Json.truthy_value item = true →
  Server.stored_items st W = Ok (JArr xs) →
  JNull ∉ xs →
  let outcome := Server.put_vault_item st itemId (Some item) W e now in
  let written old :=
    Json.set_prop "id" (JStr itemId)
      (Json.assign (Json.assign [] (Json.own_props old))
                   (Json.own_props item)) in
  outcome.2
  = Json 200 (JObj [("success", JBool true); ("itemId", JStr itemId);
                    ("updatedAt", JStr (Date_toISOString now))])
  ∧ (Forall (λ x, Json.string_id x ≠ Some itemId) xs →
     Server.stored_items outcome.1.1 W
     = Ok (JArr (xs ++ [JObj (written (JObj []))])))
  ∧ (∀ l1 old l2,
       xs = l1 ++ old :: l2 →
       Forall (λ x, Json.string_id x ≠ Some itemId) l1 →
       Json.string_id old = Some itemId →
       Server.stored_items outcome.1.1 W
       = Ok (JArr (l1 ++ JObj (written old) :: l2)))
  ∧ (∀ old k,
       Json.lookup_prop k (written old)
       = if decide (k = "id") then Some (JStr itemId)
         else match Json.lookup_prop k (reverse (Json.own_props item)) with
              | Some v => Some v
              | None => Json.lookup_prop k (reverse (Json.own_props old))
              end).
Proof.
  intros Hrt Hhex Hjson Hitem Hstored Hnull outcome written.
  subst outcome written. cbv beta.
  assert (∀ l, JNull ∉ l →
            Forall (λ x, Json.string_id x ≠ Some itemId) l →
            Forall (λ y, (v ← Json.get y "id";
                          Ok (Json.strict_eq_string v itemId)) = Ok false) l)
    as Hcallback.
  { intros l Hl Hall. apply Forall_forall. intros y Hy.
    rewrite id_callback_string_id by (intros ->; done).
    rewrite Forall_forall in Hall.
    by rewrite bool_decide_eq_false_2 by by apply Hall. }
  split; [|split; [|split]].
  - destruct (upsert_string_ids_total xs itemId item Hnull) as [ys Hys].
    by destruct (put_vault_item_loaded st itemId item W e now xs ys).
  - intros Hall.
    eapply put_vault_item_loaded; [done..|].
    unfold Server.upsert. cbn [Server.as_array mbind result_bind].
    rewrite findIndex_none by by apply Hcallback.
    reflexivity.
  - intros l1 old l2 -> Hl1 Hold.
    eapply put_vault_item_loaded; [done..|].
    unfold Server.upsert. cbn [Server.as_array mbind result_bind].
    rewrite findIndex_first.
    + cbn [mbind result_bind]. rewrite list_lookup_middle by done.
      f_equal. rewrite insert_app_r_alt by done.
      by rewrite Nat.sub_diag.
    + apply Hcallback; [|done]. intros Hin. apply Hnull.
      apply elem_of_app. by left.
    + rewrite id_callback_string_id.
      * by rewrite bool_decide_eq_true_2.
      * intros ->. done.
  - intros old k. destruct (decide (k = "id")) as [->|Hk].
    + apply lookup_set_prop.
    + rewrite lookup_set_prop_ne by done. rewrite !lookup_assign.
      destruct (Json.lookup_prop k (reverse (Json.own_props item)));
        [done|].
      by destruct (Json.lookup_prop k (reverse (Json.own_props old))).
Qed.

End SnapshotFacts.

(** ** The stored files through their handlers *)

Section FileFacts.
Context {crypto_js : CryptoJS} {node_js : NodeJS}.
Context {deployment : Deployment} {express : Express}.







(** After an upload the metadata of the file is served as it was recorded:
    name, type and size of the upload, the description and category given
    or their defaults, and the SHA-256 of the Base64 text of the bytes. *)
Theorem metadata_after_upload (st : Storage) (f : UploadedFile)
    (description category : option string) (W : string) (e : Entropy)
    (fileId : string) (now : Z) :
  key_round_trip → hex_parse_stringify → json_round_trip →
  filesize f ≤ 100 * 1024 * 1024 →
  Server.get_file_metadata
    (Server.upload_file st (Some f) description category W e fileId now).1.1
    fileId W
  = Json 200
      (JObj [("id", JStr fileId);
             ("name", JStr (originalname f));
             ("type", JStr (mimetype f));
             ("size", JNum (filesize f));
             ("description",
              JStr (match description with
                    | Some d => d
                    | None => ""
                    end));
             ("category",
              JStr (match category with
                    | Some "" | None => "files"
                    | Some c => c
                    end));
             ("uploadedAt", JStr (Date_toISOString now));
             ("encrypted", JBool true);
             ("checksum",
              JStr (SHA256 (Buffer_toString_base64 (buffer f))))]).
Proof.
  intros Hrt Hhex Hjson Hsize. rewrite upload_file_stored by done.
  cbv zeta. unfold Server.get_file_metadata.
  rewrite readJson_writeJson_eq.
  rewrite FileEncryption_round_trip by done. cbn [mbind result_bind].
  rewrite Hjson. unfold Server.metadata_of.
  by destruct description as [[|a d]|], category as [[|b c]|].
Qed.


End FileFacts.

(** ** Requests that are refused *)

Section RefusedRequests.
Context {crypto_js : CryptoJS} {node_js : NodeJS} {deployment : Deployment}.

(** A request that is not answered with 200 writes nothing: the update and
    the deletion of an item and the upload of a file leave the storage and
    the random source as they were whenever they answer with an error, be
    it a missing item or file, a snapshot that does not decrypt under the
    password given, or a stored value that is no array; and so does a save
    that is answered with 400. *)
Theorem rejected_requests_write_nothing (st : Storage) (itemId : string)
    (item items : option json) (file : option UploadedFile)
    (description category : option string) (W : string) (e : Entropy)
    (fileId : string) (now : Z) :
  let ok (r : Response) := ∃ body, r = Json 200 body in
  (¬ ok (Server.put_vault_item st itemId item W e now).2 →
   (Server.put_vault_item st itemId item W e now).1 = (st, e))
  ∧ (¬ ok (Server.delete_vault_item st itemId W e now).2 →
     (Server.delete_vault_item st itemId W e now).1 = (st, e))
  ∧ (¬ ok (Server.upload_file st file description category W e fileId
                              now).2 →
     (Server.upload_file st file description category W e fileId now).1
     = (st, e))
  ∧ (∀ body,
       (Server.post_vault_items st items W e now).2 = Json 400 body →
       (Server.post_vault_items st items W e now).1 = (st, e)).
Proof.
  intros ok. subst ok. cbv beta. split; [|split; [|split]].
  - unfold Server.put_vault_item. destruct item as [item'|]; [|done].
    destruct (negb (Json.truthy_value item')); [done|].
    destruct (_ ← Server.stored_items st W; _) as [xs|m]; [|done].
    destruct (FileEncryption.encrypt _ W e) as [encryptedItems e'].
    cbn [fst snd]. intros Hrefused. exfalso. apply Hrefused. by eexists.
  - unfold Server.delete_vault_item.
    destruct (VAULT_ITEMS_DIR st !! Server.vaultItemsPath)
      as [encryptedItems|]; [|done].
    destruct (_ ← Server.load_items encryptedItems W; _) as [[xs kept]|m];
      [|done].
    destruct (length kept =? length xs)%nat; [done|].
    destruct (FileEncryption.encrypt _ W e) as [encryptedUpdatedItems e'].
    cbn [fst snd]. intros Hrefused. exfalso. apply Hrefused. by eexists.
  - unfold Server.upload_file. destruct file as [f|]; [|done].
    destruct (100 * 1024 * 1024 <? filesize f); [done|].
    destruct (FileEncryption.encrypt _ W e) as [encryptedFile e1].
    destruct (FileEncryption.encrypt _ W e1) as [encryptedMetadata e2].
    cbn [fst snd]. intros Hrefused. exfalso. apply Hrefused. by eexists.
  - intros body. unfold Server.post_vault_items.
    destruct items as [[| | | |xs|]|]; try done.
    destruct (Json.filter_result Server.invalid_item xs)
      as [invalidItems|m]; [|done].
    destruct (0 <? length invalidItems)%nat; [done|].
    destruct (FileEncryption.encrypt _ W e) as [encryptedItems e'].
    by destruct (Server.verify _ W (length xs)).
Qed.

End RefusedRequests.

(** ** The properties on the records of the scenarios *)

(** The tables and the snapshot of the scenarios are as the properties
    above require. *)
Lemma unlocked_client_well_formed : well_formed (db Scenario.unlocked_client).
Proof.
  split; cbn.
  - apply NoDup_singleton.
  - constructor; [|done]. exists 7. split; [done|lia].
Qed.

Lemma three_items_no_null : JNull ∉ Scenario.three_items.
Proof.
  unfold Scenario.three_items. intros H.
  repeat (apply elem_of_cons in H as [H|H]; [discriminate|]).
  by apply elem_of_nil in H.
Qed.

Lemma three_items_stored :
  @Server.stored_items Reference.crypto Reference.node
    Scenario.storage_with_three Scenario.masterPassword
  = Ok (JArr Scenario.three_items).
Proof.
  unfold Server.stored_items, Scenario.storage_with_three.
  cbn [VAULT_ITEMS_DIR]. rewrite lookup_singleton_eq.
  apply (@load_written Reference.crypto Reference.node);
    [apply reference_key_round_trip|apply reference_hex_round_trip
    |apply reference_json_round_trip].
Qed.

(** The Gmail item, encrypted under the master password and decrypted
    again. *)
Lemma decryptVaultItem_encryptVaultItem_witness :
  @VaultCrypto.decryptVaultItem Reference.crypto
    (@VaultCrypto.encryptVaultItem Reference.crypto Scenario.gmail
       Scenario.masterPassword 0%nat).1 Scenario.masterPassword
  = Scenario.gmail.
Proof.
  apply (@decryptVaultItem_encryptVaultItem Reference.crypto Scenario.gmail
           Scenario.masterPassword 0%nat reference_hex_has_no_colon
           reference_ciphertext_has_no_colon reference_passphrase_round_trip).
Defined.

(** The Gmail item in clear goes through unchanged. *)
Lemma decryptVaultItem_passes_plaintext_witness :
  @VaultCrypto.decryptVaultItem Reference.crypto Scenario.gmail "guess"
  = Scenario.gmail.
Proof.
  apply (@decryptVaultItem_passes_plaintext Reference.crypto).
  intros f v. destruct f; cbn; intros [= <-]; by vm_compute.
Defined.

Lemma validateMasterPassword_cases_witness :
  @VaultCrypto.validateMasterPassword Reference.crypto
    Scenario.masterPassword None 0%nat = true.
Proof.
  exact (proj1 (@validateMasterPassword_cases Reference.crypto
                  Scenario.masterPassword 0%nat reference_hex_has_no_colon
                  reference_ciphertext_has_no_colon
                  reference_passphrase_round_trip)).
Defined.

(** The Gmail item added by the unlocked client gets key 8 and reads back
    as given. *)
Lemma addItem_then_getItemById_witness :
  let after :=
    (@vaultDB.addItem Reference.crypto Scenario.unlocked_client
       Scenario.gmail None 1700000001000 0%nat).1.1 in
  let itemId :=
    (@vaultDB.addItem Reference.crypto Scenario.unlocked_client
       Scenario.gmail None 1700000001000 0%nat).2 in
  @vaultDB.getItemById Reference.crypto after itemId
  = Some (set_id (Some itemId)
            (set_dates 1700000001000 1700000001000
               (set_isFavorite (Some false) Scenario.gmail))).
Proof.
  intros after itemId. subst after itemId.
  apply (@addItem_then_getItemById Reference.crypto Scenario.unlocked_client
           Scenario.gmail None 1700000001000 0%nat
           reference_hex_has_no_colon reference_ciphertext_has_no_colon
           reference_passphrase_round_trip unlocked_client_well_formed).
Defined.

(** The locked client stores the Gmail item in clear. *)
Lemma addItem_locked_stores_plaintext_witness :
  let after :=
    @vaultDB.addItem Reference.crypto Scenario.locked_client Scenario.gmail
      None 1700000001000 0%nat in
  Dexie.get after.2 (db after.1.1)
  = Some (set_id (Some after.2)
            (set_dates 1700000001000 1700000001000
               (set_isFavorite (Some false) Scenario.gmail))).
Proof.
  intros after. subst after.
  destruct (@addItem_locked_stores_plaintext Reference.crypto
              Scenario.locked_client Scenario.gmail None 1700000001000
              0%nat) as (Hrow & _ & _).
  - reflexivity.
  - apply unlocked_client_well_formed.
  - exact Hrow.
Defined.

(** The unlocked client stores the password of the Gmail item as an
    envelope that decrypts to it. *)
Lemma addItem_unlocked_stores_envelopes_witness :
  let after :=
    @vaultDB.addItem Reference.crypto Scenario.unlocked_client
      Scenario.gmail None 1700000001000 0%nat in
  ∃ row envelope,
    Dexie.get after.2 (db after.1.1) = Some row
    ∧ password row = Some envelope
    ∧ @VaultCrypto.decrypt Reference.crypto envelope Scenario.masterPassword
      = Ok "p@ss".
Proof.
  intros after. subst after.
  destruct (@addItem_unlocked_stores_envelopes Reference.crypto
              Scenario.unlocked_client Scenario.gmail None 1700000001000
              0%nat reference_hex_has_no_colon
              reference_ciphertext_has_no_colon
              reference_passphrase_round_trip)
    as (row & Hrow & _ & Hfields).
  - discriminate.
  - apply unlocked_client_well_formed.
  - destruct (Hfields f_password "p@ss") as (envelope & Hf & _ & Hdec);
      [reflexivity|discriminate|].
    exists row, envelope. by repeat split.
Defined.

(** The table with the Gmail item imported twice: two items are returned,
    and the table holds two rows afterwards. *)
Lemma getAllItems_newest_first_witness :
  let c := {| db := Scenario.table_with_duplicate;
              _masterPassword := Scenario.masterPassword |} in
  NoDup (id <$> (@vaultDB.getAllItems Reference.crypto c).2)
  ∧ length (rows (db (@vaultDB.getAllItems Reference.crypto c).1)) = 2%nat.
Proof.
  intros c.
  destruct (@getAllItems_newest_first Reference.crypto c)
    as (_ & _ & Hids & _ & Hrows & _).
  - split; [by apply (bool_decide_unpack _); vm_compute|].
    cbn. repeat constructor; eexists; (split; [reflexivity|lia]).
  - split; [exact Hids|]. rewrite Hrows. reflexivity.
Defined.


(** The snapshot of two items replaces the one local item. *)
Lemma syncVaultItemsFromServer_replaces_witness :
  set_id (Some 7) Scenario.bank_note
  ∉ rows (db (vaultDB.syncVaultItemsFromServer
                Scenario.unlocked_client Scenario.server_with_two).1.1).
Proof.
  destruct (syncVaultItemsFromServer_replaces
              Scenario.unlocked_client Scenario.server_with_two
              unlocked_client_well_formed)
    as (items & _ & _ & Hgone & _).
  - reflexivity.
  - apply Hgone. cbn. apply list_elem_of_singleton. reflexivity.
Defined.

Lemma client_with_gmail_well_formed :
  well_formed (db Scenario.client_with_gmail).
Proof.
  split.
  - by apply (bool_decide_unpack _); vm_compute.
  - unfold Scenario.client_with_gmail. rewrite addItem_unfold.
    cbv zeta. cbn [fst db vaultDB.with_db]. unfold add. cbn [snd rows keygen].
    apply Forall_app. split.
    + cbn. constructor; [|done]. exists 7. split; [done|lia].
    + constructor; [|done]. exists 8. split; [done|]. cbn. lia.
Qed.

(** The Gmail item added under the master password is stored as
    envelopes; after the push and the pull of what was pushed, every row
    holds what decryption made of a row held before. *)
Lemma push_then_pull_stores_plaintext_witness :
  Forall (λ row',
            ∃ row,
              row ∈ rows (db Scenario.client_with_gmail)
              ∧ ∀ f, get_field f row'
                     = @VaultCrypto.decrypt_or_keep Reference.crypto
                         Scenario.masterPassword (get_field f row))
    (rows (db (vaultDB.syncVaultItemsFromServer
                 (@vaultDB.syncVaultItemsToServer Reference.crypto
                    Scenario.client_with_gmail
                    Scenario.server_with_two).1.1
                 Scenario.server_with_pushed).1.1)).
Proof.
  apply Forall_forall. intros row' Hrow'.
  destruct (@push_then_pull_stores_plaintext Reference.crypto
              Scenario.client_with_gmail Scenario.server_with_two
              Scenario.server_with_pushed Scenario.pushed_items
              reference_hex_has_no_colon reference_ciphertext_has_no_colon
              reference_passphrase_round_trip client_with_gmail_well_formed)
    with (row' := row') as (row & Hrow & Hfields & _).
  - reflexivity.
  - reflexivity.
  - reflexivity.
  - reflexivity.
  - exact Hrow'.
  - exists row. split; [exact Hrow|exact Hfields].
Defined.

(** The unlocked client stays well formed through a synchronisation. *)
Lemma well_formed_preserved_witness :
  well_formed (db (vaultDB.autoSyncVaultItems
                     Scenario.unlocked_client Scenario.server_with_two).1.1).
Proof.
  apply (@well_formed_preserved Reference.crypto Scenario.unlocked_client
           Scenario.server_with_two Scenario.gmail None 0 0%nat
           unlocked_client_well_formed).
Defined.

(** Three items saved to the empty storage are the three items served. *)
Lemma save_then_get_witness :
  @Server.get_vault_items Reference.crypto Reference.node
    (@Server.post_vault_items Reference.crypto Reference.node
       Scenario.empty_storage (Some (JArr Scenario.three_items))
       Scenario.masterPassword 0%nat 1700000000000).1.1
    Scenario.masterPassword 1700000000500
  = Json 200
      (JObj [("items", JArr Scenario.three_items);
             ("totalCount", JNum 3);
             ("timestamp",
              JStr (@Date_toISOString Reference.node 1700000000500))]).
Proof.
  apply (@save_then_get Reference.crypto Reference.node
           Scenario.empty_storage Scenario.three_items
           Scenario.masterPassword 0%nat 1700000000000 1700000000500
           reference_key_round_trip reference_hex_round_trip
           reference_json_round_trip).
  repeat constructor.
Defined.

(** A snapshot that is no ciphertext of the master password: GET answers
    500 GET_ERROR. *)
Lemma failed_decryption_is_not_401_witness :
  @Server.get_vault_items Reference.crypto Reference.node
    Scenario.garbled_storage Scenario.masterPassword 1700000000000
  = Json 500 (JObj [("error", JStr "Failed to get vault items");
                    ("code", JStr "GET_ERROR");
                    ("details", JStr "Malformed UTF-8 data")]).
Proof.
  apply (@failed_decryption_is_not_401 Reference.crypto Reference.node
           Scenario.garbled_storage Scenario.masterPassword 1700000000000
           Scenario.garbled_snapshot "Malformed UTF-8 data").
  - apply lookup_singleton_eq.
  - reflexivity.
Defined.

(** Deleting item 2 of the three leaves items 1 and 3. *)
Lemma delete_vault_item_removes_witness :
  @Server.stored_items Reference.crypto Reference.node
    (@Server.delete_vault_item Reference.crypto Reference.node
       Scenario.storage_with_three "2" Scenario.masterPassword 48%nat
       1700000000500).1.1 Scenario.masterPassword
  = Ok (JArr [JObj [("id", JStr "1"); ("name", JStr "Gmail")];
              JObj [("id", JStr "3"); ("name", JStr "Wiki")]]).
Proof.
  pose proof (@delete_vault_item_removes Reference.crypto Reference.node
                Scenario.storage_with_three "2" Scenario.masterPassword
                48%nat 1700000000500 1700000000600
                Scenario.snapshot_of_three Scenario.three_items
                reference_key_round_trip reference_hex_round_trip
                reference_json_round_trip) as Hdelete.
  cbv zeta in Hdelete. destruct Hdelete as (_ & Hfound).
  - apply lookup_singleton_eq.
  - apply (@load_written Reference.crypto Reference.node);
      [apply reference_key_round_trip|apply reference_hex_round_trip
      |apply reference_json_round_trip].
  - apply three_items_no_null.
  - destruct Hfound as (_ & Hstored & _).
    + apply Exists_cons_tl, Exists_cons_hd. reflexivity.
    + exact Hstored.
Defined.

(** Updating item 2 of the three with a new name keeps its place and its
    id. *)
Lemma put_vault_item_merges_witness :
  @Server.stored_items Reference.crypto Reference.node
    (@Server.put_vault_item Reference.crypto Reference.node
       Scenario.storage_with_three "2"
       (Some (JObj [("name", JStr "Bank, new")]))
       Scenario.masterPassword 48%nat 1700000000500).1.1
    Scenario.masterPassword
  = Ok (JArr [JObj [("id", JStr "1"); ("name", JStr "Gmail")];
              JObj [("id", JStr "2"); ("name", JStr "Bank, new")];
              JObj [("id", JStr "3"); ("name", JStr "Wiki")]]).
Proof.
  pose proof (@put_vault_item_merges Reference.crypto Reference.node
                Scenario.storage_with_three "2"
                (JObj [("name", JStr "Bank, new")])
                Scenario.masterPassword 48%nat 1700000000500
                Scenario.three_items
                reference_key_round_trip reference_hex_round_trip
                reference_json_round_trip) as Hput.
  cbv zeta in Hput. destruct Hput as (_ & _ & Hreplace & _).
  - reflexivity.
  - apply three_items_stored.
  - apply three_items_no_null.
  - apply (Hreplace [JObj [("id", JStr "1"); ("name", JStr "Gmail")]]
             (JObj [("id", JStr "2"); ("name", JStr "Bank")])
             [JObj [("id", JStr "3"); ("name", JStr "Wiki")]]).
    + reflexivity.
    + repeat constructor. discriminate.
    + reflexivity.
Defined.


(** The metadata of the note as served after its upload. *)
Lemma metadata_after_upload_witness :
  @Server.get_file_metadata Reference.crypto Reference.node
    Reference.deployment
    Scenario.storage_with_note Scenario.note_id Scenario.masterPassword
  = Json 200
      (JObj [("id", JStr Scenario.note_id);
             ("name", JStr "note.txt");
             ("type", JStr "text/plain");
             ("size", JNum 2);
             ("description", JStr "");
             ("category", JStr "files");
             ("uploadedAt",
              JStr (@Date_toISOString Reference.node 1700000000000));
             ("encrypted", JBool true);
             ("checksum",
              JStr (@SHA256 Reference.crypto
                      (@Buffer_toString_base64 Reference.node
                         ["h"; "i"]%char)))]).
Proof.
  apply (@metadata_after_upload Reference.crypto Reference.node
           Reference.deployment
           Scenario.empty_storage Scenario.note_file None None
           Scenario.masterPassword 0%nat Scenario.note_id 1700000000000
           reference_key_round_trip reference_hex_round_trip
           reference_json_round_trip).
  cbn. lia.
Defined.


(** ** [AuthService]: the master password and the session *)

Section AuthFacts.
Context {crypto_js : CryptoJS} {node_js : NodeJS} {ecma_script : ECMAScript}.

(** With test data, [validateMasterPassword] tells whether it decrypts. *)
Lemma validateMasterPassword_data password t e :
  t ≠ "" →
  VaultCrypto.validateMasterPassword password (Some t) e
  = is_Ok (VaultCrypto.decrypt t password).
Proof.
  intros Ht%truthy_nonempty. unfold VaultCrypto.validateMasterPassword.
  cbn [present]. by rewrite Ht.
Qed.

(** [verifyMasterPassword] reads [localStorage] only, and does not depend
    on the random source. *)
Lemma verifyMasterPassword_ext b b' password e e' :
  localStorage b = localStorage b' →
  AuthService.verifyMasterPassword b password e
  = AuthService.verifyMasterPassword b' password e'.
Proof.
  intros Hlocal. unfold AuthService.verifyMasterPassword. rewrite Hlocal.
  destruct (negb (present _)); [done|].
  destruct (negb (bool_decide _)); [done|].
  destruct (localStorage b' !! AuthService.VALIDATION_DATA_KEY) as [t|];
    [|done].
  cbn [present]. destruct (truthy t) eqn:Ht; [|done].
  apply truthy_nonempty in Ht. by rewrite !validateMasterPassword_data.
Qed.

(** What [verifyMasterPassword] accepts has the hash stored. *)
Lemma verifyMasterPassword_hash b password e :
  AuthService.verifyMasterPassword b password e = true →
  localStorage b !! AuthService.MASTER_PASSWORD_KEY
  = Some (VaultCrypto.hashMasterPassword password).
Proof.
  unfold AuthService.verifyMasterPassword.
  destruct (negb (present _)); [done|].
  destruct (bool_decide _) eqn:Hhash; [|done].
  by apply bool_decide_eq_true in Hhash.
Qed.

(** The storage after a master password was written: it is accepted. *)
Lemma verifyMasterPassword_written b local password e e' :
  hex_has_no_colon → ciphertext_has_no_colon → passphrase_round_trip →
  digest_nonempty →
  localStorage b
  = <[AuthService.VALIDATION_DATA_KEY :=
        (VaultCrypto.encrypt "validation_test" password e).1]>
      (<[AuthService.MASTER_PASSWORD_KEY :=
           VaultCrypto.hashMasterPassword password]> local) →
  AuthService.verifyMasterPassword b password e' = true.
Proof.
  intros Hhex Hct Hrt Hdigest Hlocal.
  unfold AuthService.verifyMasterPassword. rewrite Hlocal.
  rewrite lookup_insert_eq, lookup_insert_ne by done.
  rewrite lookup_insert_eq. cbn [present].
  unfold VaultCrypto.hashMasterPassword. rewrite Hdigest. cbn [negb].
  rewrite bool_decide_eq_true_2 by done. cbn [negb].
  rewrite (includes_truthy colon) by apply encrypt_includes_colon.
  rewrite validateMasterPassword_data.
  - by rewrite decrypt_encrypt by done.
  - apply truthy_nonempty, (includes_truthy colon), encrypt_includes_colon.
Qed.

Lemma setMasterPassword_unfold b password e :
  AuthService.hasMasterPassword b = false →
  AuthService.setMasterPassword b password e
  = (AuthService.with_localStorage
       (<[AuthService.VALIDATION_DATA_KEY :=
            (VaultCrypto.encrypt "validation_test" password e).1]>
          (<[AuthService.MASTER_PASSWORD_KEY :=
               VaultCrypto.hashMasterPassword password]>
             (localStorage b))) b,
     (VaultCrypto.encrypt "validation_test" password e).2, true).
Proof.
  intros Hnone. unfold AuthService.setMasterPassword. rewrite Hnone.
  by destruct (VaultCrypto.encrypt _ password e).
Qed.

(** Setting up the master password: on a browser that has none,
    [setMasterPassword] succeeds and touches [localStorage] only;
    afterwards the password is accepted by [verifyMasterPassword], whatever
    it accepts has the SHA-256 of the password, and a second
    [setMasterPassword] returns [false] and changes nothing. *)
Theorem setMasterPassword_then_verify (b : Browser) (password : string)
    (e e' : Entropy) :
  hex_has_no_colon → ciphertext_has_no_colon → passphrase_round_trip →
  digest_nonempty →
  AuthService.hasMasterPassword b = false →
  let after := (AuthService.setMasterPassword b password e).1.1 in
  (AuthService.setMasterPassword b password e).2 = true
  ∧ AuthService.hasMasterPassword after = true
  ∧ AuthService.verifyMasterPassword after password e' = true
  ∧ (∀ other,
       AuthService.verifyMasterPassword after other e' = true →
       VaultCrypto.hashMasterPassword other
       = VaultCrypto.hashMasterPassword password)
  ∧ (∀ other e'',
       AuthService.setMasterPassword after other e'' = (after, e'', false))
  ∧ sessionStorage after = sessionStorage b
  ∧ vault after = vault b.
Proof.
  intros Hhex Hct Hrt Hdigest Hnone after. subst after.
  rewrite setMasterPassword_unfold by done. cbn [fst snd].
  assert (AuthService.hasMasterPassword
            (AuthService.with_localStorage
               (<[AuthService.VALIDATION_DATA_KEY :=
                    (VaultCrypto.encrypt "validation_test" password e).1]>
                  (<[AuthService.MASTER_PASSWORD_KEY :=
                       VaultCrypto.hashMasterPassword password]>
                     (localStorage b))) b) = true) as Hhas.
  { unfold AuthService.hasMasterPassword.
    cbn [AuthService.with_localStorage localStorage].
    rewrite lookup_insert_ne by done. rewrite lookup_insert_eq.
    by apply bool_decide_eq_true_2. }
  split; [done|]. split; [done|]. split; [|split; [|split; [|done]]].
  - by eapply verifyMasterPassword_written.
  - intros other Hother%verifyMasterPassword_hash.
    cbn [AuthService.with_localStorage localStorage] in Hother.
    rewrite lookup_insert_ne in Hother by done.
    rewrite lookup_insert_eq in Hother. congruence.
  - intros other e''. unfold AuthService.setMasterPassword.
    by rewrite Hhas.
Qed.

Lemma masterPassword_autoSync c r :
  _masterPassword (vaultDB.autoSyncVaultItems c r).1.1 = _masterPassword c.
Proof.
  unfold vaultDB.autoSyncVaultItems.
  destruct (negb (truthy (_masterPassword c))); [done|].
  destruct (isAvailable r) as [available r1].
  destruct (negb available); [done|].
  unfold vaultDB.syncVaultItemsFromServer.
  destruct (vaultDB.loadVaultItemsFromServer c r1) as [r2 res].
  destruct (load_items res) as [items|]; [|done].
  destruct (negb (load_success res)); [done|].
  destruct (fold_left _ items _) as [t2 n].
  by destruct (vaultDB.removeDuplicateItems t2).
Qed.

(** [login] with a password that is accepted, in one equation. *)
Lemma login_unfold b r password now e :
  AuthService.verifyMasterPassword b password e = true →
  AuthService.login b r password now e
  = let envelope :=
      VaultCrypto.encrypt password
        (AuthService.sessionKey (Some (JNum now))) e in
    let synced :=
      vaultDB.autoSyncVaultItems
        (vaultDB.setMasterPassword password (vault b)) r in
    ({| localStorage := localStorage b;
        sessionStorage :=
          <[AuthService.SESSION_PASSWORD_KEY := envelope.1]>
            (<[AuthService.SESSION_KEY :=
                 JSON_stringify (AuthService.sessionData now)]>
               (sessionStorage b));
        vault := synced.1.1 |}, synced.1.2, envelope.2, true).
Proof.
  intros Hverify. unfold AuthService.login. rewrite Hverify.
  destruct (VaultCrypto.encrypt password _ e) as [envelope e1].
  by destruct (vaultDB.autoSyncVaultItems _ r) as [[c' r'] res].
Qed.

Lemma stringify_nonempty x :
  json_round_trip → empty_text_is_no_json → truthy (JSON_stringify x) = true.
Proof.
  intros Hjson Hempty. apply truthy_nonempty. intros Htext.
  pose proof (Hjson x) as Hparse. rewrite Htext in Hparse.
  unfold empty_text_is_no_json in Hempty. by rewrite Hparse in Hempty.
Qed.

(** [isAuthenticated] on a session that [login] or [extendSession]
    wrote. *)
Lemma isAuthenticated_written b t now :
  json_round_trip → empty_text_is_no_json →
  sessionStorage b !! AuthService.SESSION_KEY
  = Some (JSON_stringify (AuthService.sessionData t)) →
  AuthService.isAuthenticated b now
  = if bool_decide (now - t > AuthService.maxAge)
    then (AuthService.logout b, false) else (b, true).
Proof.
  intros Hjson Hempty Hsession. unfold AuthService.isAuthenticated.
  rewrite Hsession, stringify_nonempty, Hjson by done. cbn [negb].
  unfold AuthService.sessionData.
  cbn [Json.get Json.lookup_prop]. rewrite decide_True by done.
  cbn [AuthService.isExpired].
  destruct (bool_decide (now - t > AuthService.maxAge)); [done|].
  rewrite decide_False by done. by rewrite decide_True by done.
Qed.

(** [restoreMasterPasswordFromSession] on a session of time [t] that is
    not expired, with a stored envelope. *)
Lemma restore_written b t envelope now e :
  json_round_trip → empty_text_is_no_json →
  sessionStorage b !! AuthService.SESSION_KEY
  = Some (JSON_stringify (AuthService.sessionData t)) →
  sessionStorage b !! AuthService.SESSION_PASSWORD_KEY = Some envelope →
  envelope ≠ "" →
  now - t ≤ AuthService.maxAge →
  AuthService.restoreMasterPasswordFromSession b now e
  = match VaultCrypto.decrypt envelope
            (AuthService.sessionKey (Some (JNum t))) with
    | Ok decryptedPassword =>
        if AuthService.verifyMasterPassword b decryptedPassword e then
          (AuthService.with_vault
             (vaultDB.setMasterPassword decryptedPassword (vault b)) b,
           true)
        else (b, false)
    | Throw _ => (b, false)
    end.
Proof.
  intros Hjson Hempty Hsession Henvelope Hne%truthy_nonempty Hage.
  unfold AuthService.restoreMasterPasswordFromSession.
  rewrite Henvelope, Hsession, Hne, stringify_nonempty by done.
  cbn [negb orb]. rewrite (isAuthenticated_written b t) by done.
  rewrite bool_decide_eq_false_2 by lia. cbn [negb].
  rewrite Hjson. unfold AuthService.sessionData.
  cbn [Json.get Json.lookup_prop]. by rewrite decide_True by done.
Qed.

(** Log in, reload, restore: after [login] with a non-empty password that
    [verifyMasterPassword] accepts, the [vaultDB] object holds the
    password. When the page is then reloaded, so that [vaultDB] starts
    without a password, and at most eight hours have passed,
    [isAuthenticated] holds and [restoreMasterPasswordFromSession] puts
    the password back: the browser is as it was after [login]. After more
    than eight hours both log the session out and return [false]. *)
Theorem login_then_restore (b : Browser) (r : Remote) (password : string)
    (now now' : Z) (e e' : Entropy) :
  hex_has_no_colon → ciphertext_has_no_colon → passphrase_round_trip →
  json_round_trip → empty_text_is_no_json →
  AuthService.verifyMasterPassword b password e = true →
  password ≠ "" →
  let outcome := AuthService.login b r password now e in
  let after := outcome.1.1.1 in
  let reloaded :=
    AuthService.with_vault (vaultDB.clearMasterPassword (vault after))
      after in
  outcome.2 = true
  ∧ _masterPassword (vault after) = password
  ∧ localStorage after = localStorage b
  ∧ (now' - now ≤ AuthService.maxAge →
     AuthService.isAuthenticated reloaded now' = (reloaded, true)
     ∧ AuthService.restoreMasterPasswordFromSession reloaded now' e'
       = (after, true))
  ∧ (now' - now > AuthService.maxAge →
     AuthService.isAuthenticated reloaded now'
     = (AuthService.logout reloaded, false)
     ∧ AuthService.restoreMasterPasswordFromSession reloaded now' e'
       = (AuthService.logout reloaded, false)).
Proof.
  intros Hhex Hct Hrt Hjson Hempty Hverify Hpassword outcome after reloaded.
  subst reloaded after outcome. rewrite login_unfold by done.
  cbv zeta. cbn [fst snd].
  set (envelope := (VaultCrypto.encrypt password
                      (AuthService.sessionKey (Some (JNum now))) e).1).
  set (c := (vaultDB.autoSyncVaultItems
               (vaultDB.setMasterPassword password (vault b)) r).1.1).
  assert (_masterPassword c = password) as Hc
    by (subst c; by rewrite masterPassword_autoSync).
  set (after := {| localStorage := localStorage b;
                   sessionStorage :=
                     <[AuthService.SESSION_PASSWORD_KEY := envelope]>
                       (<[AuthService.SESSION_KEY :=
                            JSON_stringify (AuthService.sessionData now)]>
                          (sessionStorage b));
                   vault := c |}).
  change (vault after) with c.
  set (reloaded := AuthService.with_vault (vaultDB.clearMasterPassword c)
                     after).
  assert (sessionStorage reloaded !! AuthService.SESSION_KEY
          = Some (JSON_stringify (AuthService.sessionData now))) as Hsession.
  { cbn. rewrite lookup_insert_ne by done. apply lookup_insert_eq. }
  assert (sessionStorage reloaded !! AuthService.SESSION_PASSWORD_KEY
          = Some envelope) as Henvelope by apply lookup_insert_eq.
  assert (truthy envelope = true) as Htruthy
    by apply (includes_truthy colon), encrypt_includes_colon.
  split; [done|]. split; [done|]. split; [done|]. split.
  - intros Hage. rewrite (isAuthenticated_written reloaded now) by done.
    rewrite bool_decide_eq_false_2 by lia. split; [done|].
    rewrite (restore_written reloaded now envelope)
      by (try done; by apply truthy_nonempty).
    subst envelope. rewrite decrypt_encrypt by done.
    apply truthy_nonempty in Hpassword. rewrite Hpassword.
    rewrite (verifyMasterPassword_ext reloaded b password e' e) by done.
    rewrite Hverify. f_equal. subst reloaded after.
    unfold AuthService.with_vault, vaultDB.setMasterPassword,
      vaultDB.clearMasterPassword.
    cbn [localStorage sessionStorage vault db]. f_equal.
    destruct c as [t W]. cbn in *. by subst.
  - intros Hage. rewrite (isAuthenticated_written reloaded now) by done.
    rewrite bool_decide_eq_true_2 by lia. split; [done|].
    unfold AuthService.restoreMasterPasswordFromSession.
    rewrite Henvelope, Hsession, Htruthy, stringify_nonempty by done.
    cbn [negb orb]. rewrite (isAuthenticated_written reloaded now) by done.
    by rewrite bool_decide_eq_true_2 by lia.
Qed.

(** The empty master password: when [verifyMasterPassword] accepts the
    empty string, as it does after [setMasterPassword] with it, [login]
    succeeds and yet [vaultDB] stays without a password, so what it stores
    it stores in clear, and the session is never restored: the envelope of
    the empty password does not decrypt. *)
Theorem empty_master_password (b : Browser) (r : Remote) (now now' : Z)
    (e e' : Entropy) :
  hex_has_no_colon → ciphertext_has_no_colon → passphrase_round_trip →
  json_round_trip → empty_text_is_no_json →
  AuthService.verifyMasterPassword b "" e = true →
  let outcome := AuthService.login b r "" now e in
  let after := outcome.1.1.1 in
  outcome.2 = true
  ∧ _masterPassword (vault after) = ""
  ∧ db (vault after) = db (vault b)
  ∧ (AuthService.restoreMasterPasswordFromSession after now' e').2 = false.
Proof.
  intros Hhex Hct Hrt Hjson Hempty Hverify outcome after.
  subst after outcome. rewrite login_unfold by done.
  cbv zeta. cbn [fst snd vault].
  set (envelope := (VaultCrypto.encrypt ""
                      (AuthService.sessionKey (Some (JNum now))) e).1).
  split; [done|]. split; [by rewrite masterPassword_autoSync|].
  split; [done|].
  set (after := {| localStorage := localStorage b;
                   sessionStorage := _; vault := _ |}).
  assert (sessionStorage after !! AuthService.SESSION_KEY
          = Some (JSON_stringify (AuthService.sessionData now))) as Hsession.
  { cbn. rewrite lookup_insert_ne by done. apply lookup_insert_eq. }
  assert (sessionStorage after !! AuthService.SESSION_PASSWORD_KEY
          = Some envelope) as Henvelope by apply lookup_insert_eq.
  assert (truthy envelope = true) as Htruthy
    by apply (includes_truthy colon), encrypt_includes_colon.
  destruct (decide (now' - now ≤ AuthService.maxAge)) as [Hage|Hage].
  - rewrite (restore_written after now envelope)
      by (try done; by apply truthy_nonempty).
    subst envelope. by rewrite decrypt_encrypt_empty.
  - unfold AuthService.restoreMasterPasswordFromSession.
    rewrite Henvelope, Hsession, Htruthy, stringify_nonempty by done.
    cbn [negb orb]. rewrite (isAuthenticated_written after now) by done.
    by rewrite bool_decide_eq_true_2 by lia.
Qed.

Lemma sessionKey_inj t t' :
  AuthService.sessionKey (Some (JNum t))
  = AuthService.sessionKey (Some (JNum t')) → t = t'.
Proof.
  unfold AuthService.sessionKey.
  cbn [AuthService.to_string String.append].
  intros [= Heq]. rewrite !append_nil_l in Heq. unfold String_of_Z in Heq.
  by apply (inj pretty) in Heq.
Qed.

(** [extendSession] writes a session of the new time and leaves the stored
    envelope of the password as [login] made it, under the key of the
    login time. The session is extended: [isAuthenticated] holds up to
    eight hours after the new time. But after a reload,
    [restoreMasterPasswordFromSession] decrypts that envelope under the
    key of the new time, a different key unless the two times are the
    same, and restores the password only if that yields a text which
    [verifyMasterPassword] accepts. *)
Theorem extendSession_keeps_envelope (b : Browser) (r : Remote)
    (password : string) (now now1 now2 now3 : Z) (e e' : Entropy) :
  json_round_trip → empty_text_is_no_json →
  AuthService.verifyMasterPassword b password e = true →
  now1 - now ≤ AuthService.maxAge →
  now3 - now2 ≤ AuthService.maxAge →
  let after := (AuthService.login b r password now e).1.1.1 in
  let envelope :=
    (VaultCrypto.encrypt password
       (AuthService.sessionKey (Some (JNum now))) e).1 in
  let extended := AuthService.extendSession after now1 now2 in
  sessionStorage extended !! AuthService.SESSION_KEY
  = Some (JSON_stringify (AuthService.sessionData now2))
  ∧ sessionStorage extended !! AuthService.SESSION_PASSWORD_KEY
    = Some envelope
  ∧ AuthService.isAuthenticated extended now3 = (extended, true)
  ∧ AuthService.restoreMasterPasswordFromSession extended now3 e'
    = match VaultCrypto.decrypt envelope
              (AuthService.sessionKey (Some (JNum now2))) with
      | Ok decryptedPassword =>
          if AuthService.verifyMasterPassword extended decryptedPassword e'
          then (AuthService.with_vault
                  (vaultDB.setMasterPassword decryptedPassword
                     (vault extended)) extended, true)
          else (extended, false)
      | Throw _ => (extended, false)
      end
  ∧ (now2 ≠ now →
     AuthService.sessionKey (Some (JNum now2))
     ≠ AuthService.sessionKey (Some (JNum now))).
Proof.
  intros Hjson Hempty Hverify Hage1 Hage3 after envelope extended.
  subst extended envelope after. rewrite login_unfold by done.
  cbv zeta. cbn [fst snd].
  set (envelope := (VaultCrypto.encrypt password
                      (AuthService.sessionKey (Some (JNum now))) e).1).
  set (after := {| localStorage := localStorage b;
                   sessionStorage := _; vault := _ |}).
  assert (sessionStorage after !! AuthService.SESSION_KEY
          = Some (JSON_stringify (AuthService.sessionData now))) as Hsession.
  { cbn. rewrite lookup_insert_ne by done. apply lookup_insert_eq. }
  unfold AuthService.extendSession.
  rewrite (isAuthenticated_written after now) by done.
  rewrite bool_decide_eq_false_2 by lia.
  set (extended := AuthService.with_sessionStorage _ after).
  assert (sessionStorage extended !! AuthService.SESSION_KEY
          = Some (JSON_stringify (AuthService.sessionData now2)))
    as Hsession2 by apply lookup_insert_eq.
  assert (sessionStorage extended !! AuthService.SESSION_PASSWORD_KEY
          = Some envelope) as Henvelope.
  { cbn. rewrite lookup_insert_ne by done. apply lookup_insert_eq. }
  split; [done|]. split; [done|]. split; [|split].
  - rewrite (isAuthenticated_written extended now2) by done.
    by rewrite bool_decide_eq_false_2 by lia.
  - apply restore_written; try done.
    apply truthy_nonempty, (includes_truthy colon), encrypt_includes_colon.
  - intros Hne Hkey. by apply Hne, sessionKey_inj.
Qed.

Lemma isAuthenticated_no_session b now :
  sessionStorage b !! AuthService.SESSION_KEY = None →
  AuthService.isAuthenticated b now = (b, false).
Proof. intros Hnone. unfold AuthService.isAuthenticated. by rewrite Hnone. Qed.

Lemma restore_no_session b now e :
  sessionStorage b !! AuthService.SESSION_KEY = None →
  AuthService.restoreMasterPasswordFromSession b now e = (b, false).
Proof.
  intros Hnone. unfold AuthService.restoreMasterPasswordFromSession.
  cbv zeta. rewrite Hnone.
  by destruct (sessionStorage b !! AuthService.SESSION_PASSWORD_KEY).
Qed.

Lemma logout_no_session b :
  sessionStorage (AuthService.logout b) !! AuthService.SESSION_KEY = None.
Proof.
  cbn. rewrite lookup_delete_ne by done. apply lookup_delete_eq.
Qed.

(** [changeMasterPassword] with a current password that is not accepted
    returns [false] and changes nothing. With one that is accepted it
    returns [true]; the new password is then accepted and whatever is
    accepted has its SHA-256; the session is gone and [vaultDB] is left
    without a password; and the rows of the database are the rows of
    before: what was encrypted under the old password stays so. *)
Theorem changeMasterPassword_effects (b : Browser)
    (currentPassword newPassword : string) (now : Z) (e e' : Entropy) :
  hex_has_no_colon → ciphertext_has_no_colon → passphrase_round_trip →
  digest_nonempty →
  let outcome :=
    AuthService.changeMasterPassword b currentPassword newPassword e in
  let after := outcome.1.1 in
  (AuthService.verifyMasterPassword b currentPassword e = false →
   outcome = (b, e, false))
  ∧ (AuthService.verifyMasterPassword b currentPassword e = true →
     outcome.2 = true
     ∧ AuthService.verifyMasterPassword after newPassword e' = true
     ∧ (∀ other,
          AuthService.verifyMasterPassword after other e' = true →
          VaultCrypto.hashMasterPassword other
          = VaultCrypto.hashMasterPassword newPassword)
     ∧ _masterPassword (vault after) = ""
     ∧ db (vault after) = db (vault b)
     ∧ AuthService.isAuthenticated after now = (after, false)
     ∧ AuthService.restoreMasterPasswordFromSession after now e'
       = (after, false)).
Proof.
  intros Hhex Hct Hrt Hdigest outcome after. subst after outcome.
  unfold AuthService.changeMasterPassword. split.
  { by intros ->. }
  intros ->. cbn [negb].
  destruct (VaultCrypto.encrypt "validation_test" newPassword e)
    as [validation e1] eqn:Hvalidation. cbn [fst snd].
  split; [done|]. split; [|split; [|split; [done|split; [done|split]]]].
  - eapply (verifyMasterPassword_written _ (localStorage b) newPassword e);
      [done..|].
    cbn [AuthService.logout AuthService.with_localStorage localStorage].
    by rewrite Hvalidation.
  - intros other Hother%verifyMasterPassword_hash.
    cbn [AuthService.logout AuthService.with_localStorage localStorage]
      in Hother.
    rewrite lookup_insert_ne in Hother by done.
    rewrite lookup_insert_eq in Hother. congruence.
  - apply isAuthenticated_no_session, logout_no_session.
  - apply restore_no_session, logout_no_session.
Qed.

(** [logout] ends the session and keeps the master password's hash:
    afterwards [isAuthenticated] and [restoreMasterPasswordFromSession]
    return [false], [vaultDB] holds no password, and
    [verifyMasterPassword] answers as before. [resetAuth] also forgets the
    hash: no password is accepted any more and a new master password can
    be set, by anyone, while the rows of the database stay where they
    are. *)
Theorem logout_and_resetAuth (b : Browser) (password : string) (now : Z)
    (e : Entropy) :
  let out := AuthService.logout b in
  let reset := AuthService.resetAuth b in
  AuthService.isAuthenticated out now = (out, false)
  ∧ AuthService.restoreMasterPasswordFromSession out now e = (out, false)
  ∧ _masterPassword (vault out) = ""
  ∧ AuthService.verifyMasterPassword out password e
    = AuthService.verifyMasterPassword b password e
  ∧ AuthService.hasMasterPassword reset = false
  ∧ AuthService.verifyMasterPassword reset password e = false
  ∧ (AuthService.setMasterPassword reset password e).2 = true
  ∧ AuthService.isAuthenticated reset now = (reset, false)
  ∧ _masterPassword (vault reset) = ""
  ∧ db (vault reset) = db (vault b)
  ∧ db (vault out) = db (vault b).
Proof.
  intros out reset. subst out reset.
  assert (localStorage (AuthService.resetAuth b)
          !! AuthService.MASTER_PASSWORD_KEY = None) as Hhash.
  { cbn. rewrite lookup_delete_ne by done. apply lookup_delete_eq. }
  assert (AuthService.hasMasterPassword (AuthService.resetAuth b) = false)
    as Hnone.
  { unfold AuthService.hasMasterPassword. rewrite Hhash.
    apply bool_decide_eq_false_2. by intros [? ?]. }
  split; [apply isAuthenticated_no_session, logout_no_session|].
  split; [apply restore_no_session, logout_no_session|].
  split; [done|]. split; [by apply verifyMasterPassword_ext|].
  split; [done|]. split.
  { unfold AuthService.verifyMasterPassword. by rewrite Hhash. }
  split; [by rewrite setMasterPassword_unfold|].
  split; [|done]. apply isAuthenticated_no_session. cbn.
  rewrite lookup_delete_ne by done. apply lookup_delete_eq.
Qed.

End AuthFacts.

Lemma reference_empty_text_is_no_json :
  @empty_text_is_no_json Reference.node.
Proof. reflexivity. Qed.

Lemma browser_with_password_verifies :
  @AuthService.verifyMasterPassword Reference.crypto
    Scenario.browser_with_password Scenario.masterPassword 0%nat = true.
Proof.
  eapply (@verifyMasterPassword_written Reference.crypto);
    [apply reference_hex_has_no_colon|apply reference_ciphertext_has_no_colon
    |apply reference_passphrase_round_trip|apply reference_digest_nonempty|].
  unfold Scenario.browser_with_password.
  rewrite (@setMasterPassword_unfold Reference.crypto) by reflexivity.
  reflexivity.
Qed.

Lemma browser_with_empty_password_verifies :
  @AuthService.verifyMasterPassword Reference.crypto
    Scenario.browser_with_empty_password "" 0%nat = true.
Proof.
  eapply (@verifyMasterPassword_written Reference.crypto);
    [apply reference_hex_has_no_colon|apply reference_ciphertext_has_no_colon
    |apply reference_passphrase_round_trip|apply reference_digest_nonempty|].
  unfold Scenario.browser_with_empty_password.
  rewrite (@setMasterPassword_unfold Reference.crypto) by reflexivity.
  reflexivity.
Qed.

(** On a fresh browser the master password is set and then accepted. *)
Lemma setMasterPassword_then_verify_witness :
  @AuthService.verifyMasterPassword Reference.crypto
    Scenario.browser_with_password Scenario.masterPassword 7%nat = true.
Proof.
  destruct (@setMasterPassword_then_verify Reference.crypto
              Scenario.fresh_browser Scenario.masterPassword 0%nat 7%nat
              reference_hex_has_no_colon reference_ciphertext_has_no_colon
              reference_passphrase_round_trip reference_digest_nonempty)
    as (_ & _ & Hverify & _).
  - reflexivity.
  - exact Hverify.
Defined.

(** Logged in at one time and reloaded an hour later, the browser gets its
    master password back. *)
Lemma login_then_restore_witness :
  let after :=
    (@AuthService.login Reference.crypto Reference.node
       Scenario.browser_with_password Scenario.server_with_two
       Scenario.masterPassword 1700000000000 0%nat).1.1.1 in
  @AuthService.restoreMasterPasswordFromSession Reference.crypto
    Reference.node Reference.ecma
    (AuthService.with_vault (vaultDB.clearMasterPassword (vault after))
       after) 1700003600000 0%nat
  = (after, true).
Proof.
  intros after. subst after.
  pose proof (@login_then_restore Reference.crypto Reference.node
                Reference.ecma Scenario.browser_with_password
                Scenario.server_with_two Scenario.masterPassword
                1700000000000 1700003600000 0%nat 0%nat
                reference_hex_has_no_colon
                reference_ciphertext_has_no_colon
                reference_passphrase_round_trip reference_json_round_trip
                reference_empty_text_is_no_json
                browser_with_password_verifies) as Hrestore.
  cbv zeta in Hrestore.
  destruct Hrestore as (_ & _ & _ & Hfresh & _); [discriminate|].
  destruct Hfresh as [_ Hrestored]; [unfold AuthService.maxAge; lia|].
  exact Hrestored.
Defined.

(** With the empty master password the session is not restored. *)
Lemma empty_master_password_witness :
  (@AuthService.restoreMasterPasswordFromSession Reference.crypto
     Reference.node Reference.ecma
     (@AuthService.login Reference.crypto Reference.node
        Scenario.browser_with_empty_password Scenario.server_with_two ""
        1700000000000 0%nat).1.1.1 1700003600000 0%nat).2 = false.
Proof.
  pose proof (@empty_master_password Reference.crypto Reference.node
                Reference.ecma Scenario.browser_with_empty_password
                Scenario.server_with_two 1700000000000 1700003600000
                0%nat 0%nat
                reference_hex_has_no_colon
                reference_ciphertext_has_no_colon
                reference_passphrase_round_trip reference_json_round_trip
                reference_empty_text_is_no_json
                browser_with_empty_password_verifies) as Hempty.
  cbv zeta in Hempty. destruct Hempty as (_ & _ & _ & Hrestore).
  exact Hrestore.
Defined.

(** Extended half an hour after the login, the session holds the envelope
    of the login. *)
Lemma extendSession_keeps_envelope_witness :
  sessionStorage
    (@AuthService.extendSession Reference.node Reference.ecma
       (@AuthService.login Reference.crypto Reference.node
          Scenario.browser_with_password Scenario.server_with_two
          Scenario.masterPassword 1700000000000 0%nat).1.1.1
       1700001800000 1700001800001)
  !! AuthService.SESSION_PASSWORD_KEY
  = Some (@VaultCrypto.encrypt Reference.crypto Scenario.masterPassword
            (AuthService.sessionKey (Some (JNum 1700000000000))) 0%nat).1.
Proof.
  pose proof (@extendSession_keeps_envelope Reference.crypto Reference.node
                Reference.ecma Scenario.browser_with_password
                Scenario.server_with_two Scenario.masterPassword
                1700000000000 1700001800000 1700001800001 1700003600000
                0%nat 0%nat reference_json_round_trip
                reference_empty_text_is_no_json
                browser_with_password_verifies) as Hextend.
  cbv zeta in Hextend.
  destruct Hextend as (_ & Henvelope & _);
    [unfold AuthService.maxAge; lia..|].
  exact Henvelope.
Defined.

(** The master password changed: the new one is accepted. *)
Lemma changeMasterPassword_effects_witness :
  @AuthService.verifyMasterPassword Reference.crypto
    (@AuthService.changeMasterPassword Reference.crypto
       Scenario.browser_with_password Scenario.masterPassword
       "correct horse" 0%nat).1.1 "correct horse" 0%nat = true.
Proof.
  pose proof (@changeMasterPassword_effects Reference.crypto Reference.node
                Reference.ecma Scenario.browser_with_password
                Scenario.masterPassword "correct horse" 1700003600000
                0%nat 0%nat
                reference_hex_has_no_colon
                reference_ciphertext_has_no_colon
                reference_passphrase_round_trip reference_digest_nonempty)
    as Hchange.
  cbv zeta in Hchange. destruct Hchange as (_ & Hchanged).
  destruct (Hchanged browser_with_password_verifies) as (_ & Hverify & _).
  exact Hverify.
Defined.
